(** * E_Programmer: the web client of the SPI flash programmer

    A shallow embedding of the browser-side JavaScript of the repository:
    - [Utils]       webserver/utils.js       (base64 <-> Uint8Array)
    - [Serializer]  js_jsonrpc2/serializer.js and exceptions.js
    - [WsManager]   ws_manager.js            (receive buffer, getRPCResponse)
    - [Transfer]    what the two copies of programmer.js have in common
    - [Programmer]  programmer.js, the copy with getNumberOfBlocksForChip and
                    getBlockSize (get_read_block_size / get_write_block_size)
    - [ProgrammerPackets] programmer.js, the copy with
                    getNumberOfTransmitPackets / getNumberOfReceivePackets
    - [DomManager]  webserver/dom_manager.js (erase click handler)

    Platform functions (atob, btoa, typeof, truthiness, the number
    operators) are modelled in [JS] and [Base64] after ECMAScript and the
    HTML Standard. *)

From Stdlib Require Import String ZArith QArith Qround List Bool Lia Arith.
From Stdlib Require Import DecimalString.
Import ListNotations.
Local Open Scope Z_scope.

(* ================================================================== *)
(** ** JavaScript numbers and typed arrays *)

Module JS.

(** A JavaScript number: finite values are kept as exact rationals (the
    sizes handled here are integers far below 2^53, where quotients that
    come out integral are exact); rounding and the sign of zero are not
    represented. *)
Inductive number :=
| Fin (q : Q)
| PInf
| NInf
| NaN.

Definition of_Z (z : Z) : number := Fin (inject_Z z).

Definition Qsign_pos (q : Q) : bool := 0 <? Qnum q.
Definition Qis_zero (q : Q) : bool := Qnum q =? 0.

(** [truncq q]: the integer part of q, rounding toward zero. *)
Definition truncq (q : Q) : Z :=
  if Qle_bool 0 q then Qfloor q else Qceiling q.

(** [a / b] *)
Definition div (a b : number) : number :=
  match a, b with
  | NaN, _ | _, NaN => NaN
  | Fin x, Fin y =>
      if Qis_zero y then
        (if Qis_zero x then NaN else if Qsign_pos x then PInf else NInf)
      else Fin (Qred (x / y))
  | Fin _, (PInf | NInf) => Fin 0
  | PInf, Fin y => if Qsign_pos y || Qis_zero y then PInf else NInf
  | NInf, Fin y => if Qsign_pos y || Qis_zero y then NInf else PInf
  | (PInf | NInf), (PInf | NInf) => NaN
  end.

(** [a % b]: the remainder takes the sign of the dividend. *)
Definition rem (a b : number) : number :=
  match a, b with
  | NaN, _ | _, NaN => NaN
  | (PInf | NInf), _ => NaN
  | Fin x, (PInf | NInf) => Fin x
  | Fin x, Fin y =>
      if Qis_zero y then NaN
      else Fin (Qred (x - y * inject_Z (truncq (x / y))))
  end.

(** [a * b] *)
Definition mul (a b : number) : number :=
  match a, b with
  | NaN, _ | _, NaN => NaN
  | Fin x, Fin y => Fin (Qred (x * y))
  | Fin x, PInf | PInf, Fin x =>
      if Qis_zero x then NaN else if Qsign_pos x then PInf else NInf
  | Fin x, NInf | NInf, Fin x =>
      if Qis_zero x then NaN else if Qsign_pos x then NInf else PInf
  | PInf, PInf | NInf, NInf => PInf
  | PInf, NInf | NInf, PInf => NInf
  end.

(** [a + b] *)
Definition add (a b : number) : number :=
  match a, b with
  | NaN, _ | _, NaN => NaN
  | Fin x, Fin y => Fin (Qred (x + y))
  | PInf, NInf | NInf, PInf => NaN
  | PInf, _ | _, PInf => PInf
  | NInf, _ | _, NInf => NInf
  end.

(** [a < b] *)
Definition lt (a b : number) : bool :=
  match a, b with
  | NaN, _ | _, NaN => false
  | Fin x, Fin y => negb (Qle_bool y x)
  | _, NInf => false
  | PInf, _ => false
  | NInf, _ => true
  | Fin _, PInf => true
  end.

(** [a === b] on numbers *)
Definition strict_eq (a b : number) : bool :=
  match a, b with
  | Fin x, Fin y => Qeq_bool x y
  | PInf, PInf | NInf, NInf => true
  | _, _ => false
  end.

(** ToIntegerOrInfinity, clamped into [0, len] the way
    %TypedArray%.prototype.slice treats a relative index. *)
Definition relative_index (len : Z) (n : number) : Z :=
  match n with
  | NaN => 0
  | PInf => len
  | NInf => 0
  | Fin q => let k := truncq q in
             if k <? 0 then Z.max (len + k) 0 else Z.min k len
  end.

(** A Uint8Array is the list of its elements, each in 0..255. *)
Definition Uint8Array := list Z.

Definition is_uint8 (b : Z) : Prop := 0 <= b < 256.
Definition is_Uint8Array (a : Uint8Array) : Prop := Forall is_uint8 a.

(** [arr.slice(start, end)] *)
Definition slice (arr : Uint8Array) (start stop : number) : Uint8Array :=
  let len := Z.of_nat (length arr) in
  let k := relative_index len start in
  let final := relative_index len stop in
  firstn (Z.to_nat (final - k)) (skipn (Z.to_nat k) arr).

(** [arr.reduce((a, b) => a + b, 0)] *)
Definition reduce_add (arr : Uint8Array) : Z := fold_left Z.add arr 0.

(** [arr[arr.length - 1]]: undefined (None) on an empty array. *)
Definition last_element (arr : Uint8Array) : option Z :=
  nth_error arr (Nat.pred (length arr)).

(** A string is the list of its UTF-16 code units. *)
Definition DOMString := list Z.

(** [String.fromCharCode(n)] for an integer n: ToUint16. *)
Definition fromCharCode (n : Z) : Z := n mod 65536.

(** Storing a number into a Uint8Array element: ToUint8. *)
Definition toUint8 (n : Z) : Z := n mod 256.

(** *** Values *)

(** The prototype an object was created with.  exceptions.js builds the
    chain Error.prototype <- JsonRpcError.prototype <- the four derived
    prototypes ([inherits]). *)
Inductive prototype :=
| ObjectProto
| ErrorProto
| JsonRpcErrorProto
| ParseErrorProto
| InvalidRequestErrorProto
| MethodNotFoundErrorProto
| InvalidParamsErrorProto
| PromiseProto.

#[local] Unset Elimination Schemes.
Inductive value :=
| Undefined
| Null
| Bool (b : bool)
| Num (n : number)
| Str (s : string)
| Fn
| Arr (elems : list value)
| Obj (proto : prototype) (props : list (string * value)).
#[local] Set Elimination Schemes.

(** [typeof v] *)
Definition typeof (v : value) : string :=
  match v with
  | Undefined => "undefined"
  | Null => "object"
  | Bool _ => "boolean"
  | Num _ => "number"
  | Str _ => "string"
  | Fn => "function"
  | Arr _ | Obj _ _ => "object"
  end.

(** ToBoolean *)
Definition truthy (v : value) : bool :=
  match v with
  | Undefined | Null => false
  | Bool b => b
  | Num (Fin q) => negb (Qis_zero q)
  | Num NaN => false
  | Num _ => true
  | Str s => negb (String.eqb s EmptyString)
  | Fn | Arr _ | Obj _ _ => true
  end.

Fixpoint own_property (props : list (string * value)) (k : string)
  : option value :=
  match props with
  | [] => None
  | (k', v) :: rest => if String.eqb k' k then Some v else own_property rest k
  end.

(** Does the prototype chain of [p] pass through Error.prototype /
    JsonRpcError.prototype? *)
Definition derives_Error (p : prototype) : bool :=
  match p with
  | ObjectProto | PromiseProto => false
  | _ => true
  end.

Definition derives_JsonRpcError (p : prototype) : bool :=
  match p with
  | ObjectProto | PromiseProto | ErrorProto => false
  | _ => true
  end.

(** A property found on the prototype chain.  Error.prototype carries
    [message] (the empty string) and [name]; JsonRpcError.prototype adds
    [serialize].  The methods of Object.prototype are never read by the
    code below and are left out. *)
Definition inherited_property (p : prototype) (k : string) : value :=
  if derives_Error p && String.eqb k "message" then Str EmptyString
  else if derives_Error p && String.eqb k "name" then Str "Error"
  else if derives_JsonRpcError p && String.eqb k "serialize" then Fn
  else Undefined.

(** [v.k] for a receiver that is neither null nor undefined. *)
Definition get (v : value) (k : string) : value :=
  match v with
  | Obj p props =>
      match own_property props k with
      | Some x => x
      | None => inherited_property p k
      end
  | _ => Undefined
  end.

(** [v.hasOwnProperty(k)] *)
Definition hasOwnProperty (v : value) (k : string) : bool :=
  match v with
  | Obj _ props =>
      match own_property props k with Some _ => true | None => false end
  | _ => false
  end.

(** [v instanceof JsonRpcError] *)
Definition instanceof_JsonRpcError (v : value) : bool :=
  match v with
  | Obj p _ => derives_JsonRpcError p
  | _ => false
  end.

(** [v === s] for a string literal s, [v === n] for a number n. *)
Definition is_string_lit (v : value) (s : string) : bool :=
  match v with Str s' => String.eqb s' s | _ => false end.

Definition is_number_lit (v : value) (n : number) : bool :=
  match v with Num m => strict_eq m n | _ => false end.

(** What a call completes with. *)
Inductive exn :=
| TypeError
| InvalidCharacterError
| ConnectError
| RpcErrorResponse (id : Z) (payload : value)
| TimeoutWaiting (id : Z)
| ChipNotFound (chipName : string)
| FailedToRetrieveBlockSize (cause : exn)
| DataLengthNotMultiple (byteLength : Z) (BLOCK_SIZE : number)
| FailedToReadBlock (i : Z)
| FailedToWriteBlock (blockId : Z).

Inductive completion (A : Type) :=
| Returned (a : A)
| Thrown (e : exn).
Arguments Returned {A} a.
Arguments Thrown {A} e.

End JS.

(* ================================================================== *)
(** ** atob and btoa (HTML Standard, forgiving-base64) *)

Module Base64.
Import JS.

Definition pad : Z := 61.   (* U+003D = *)

(** The base64 alphabet of RFC 4648, table 1: value -> code unit. *)
Definition alphabet_char (v : Z) : Z :=
  if v <? 26 then 65 + v
  else if v <? 52 then 97 + (v - 26)
  else if v <? 62 then 48 + (v - 52)
  else if v =? 62 then 43
  else 47.

(** Code unit -> value; None outside the alphabet. *)
Definition alphabet_index (c : Z) : option Z :=
  if (65 <=? c) && (c <=? 90) then Some (c - 65)
  else if (97 <=? c) && (c <=? 122) then Some (c - 97 + 26)
  else if (48 <=? c) && (c <=? 57) then Some (c - 48 + 52)
  else if c =? 43 then Some 62
  else if c =? 47 then Some 63
  else None.

(** Three octets form a 24-bit group read as four 6-bit values; a final
    group of one or two octets is zero-extended to 12 or 18 bits and
    padded with "=". *)
Fixpoint encode (octets : list Z) : DOMString :=
  match octets with
  | [] => []
  | [a] =>
      [alphabet_char (a / 4); alphabet_char ((a mod 4) * 16); pad; pad]
  | [a; b] =>
      let n := (a * 256 + b) * 4 in
      [alphabet_char (n / 4096); alphabet_char ((n / 64) mod 64);
       alphabet_char (n mod 64); pad]
  | a :: b :: c :: rest =>
      let n := a * 65536 + b * 256 + c in
      alphabet_char (n / 262144) :: alphabet_char ((n / 4096) mod 64)
        :: alphabet_char ((n / 64) mod 64) :: alphabet_char (n mod 64)
        :: encode rest
  end.

(** [btoa(data)]: InvalidCharacterError (None) when a code unit exceeds
    U+00FF, otherwise the base64 encoding of the code units as octets. *)
Definition btoa (data : DOMString) : option DOMString :=
  if forallb (fun c => (0 <=? c) && (c <=? 255)) data
  then Some (encode data) else None.

(** ASCII whitespace: TAB, LF, FF, CR, SPACE. *)
Definition is_ascii_whitespace (c : Z) : bool :=
  (c =? 9) || (c =? 10) || (c =? 12) || (c =? 13) || (c =? 32).

(** "If data ends with one or two U+003D (=) code points, then remove
    them from data." *)
Definition strip_padding (data : DOMString) : DOMString :=
  if last data 0 =? pad then
    let d := removelast data in
    if last d 0 =? pad then removelast d else d
  else data.

Fixpoint indices (data : DOMString) : option (list Z) :=
  match data with
  | [] => Some []
  | c :: rest =>
      match alphabet_index c, indices rest with
      | Some v, Some vs => Some (v :: vs)
      | _, _ => None
      end
  end.

(** The bit buffer: [buf] holds [nbits] bits; every 24 bits are flushed
    as three octets; 12 or 18 left-over bits give one or two octets
    after dropping the last 4 or 2 bits. *)
Fixpoint decode_loop (vals : list Z) (buf nbits : Z) (output : list Z)
  : list Z :=
  match vals with
  | [] =>
      if nbits =? 12 then output ++ [buf / 16]
      else if nbits =? 18 then
        output ++ [(buf / 4) / 256; (buf / 4) mod 256]
      else output
  | v :: rest =>
      let buf' := buf * 64 + v in
      let nbits' := nbits + 6 in
      if nbits' =? 24 then
        decode_loop rest 0 0
          (output ++ [buf' / 65536; (buf' / 256) mod 256; buf' mod 256])
      else decode_loop rest buf' nbits' output
  end.

(** [atob(data)]: forgiving-base64 decode; None is InvalidCharacterError. *)
Definition atob (data : DOMString) : option DOMString :=
  let data := filter (fun c => negb (is_ascii_whitespace c)) data in
  let data :=
    if Z.of_nat (length data) mod 4 =? 0 then strip_padding data else data in
  if Z.of_nat (length data) mod 4 =? 1 then None
  else match indices data with
       | None => None
       | Some vals => Some (decode_loop vals 0 0 [])
       end.

End Base64.

(* ================================================================== *)
(** ** webserver/utils.js *)

Module Utils.
Import JS.

(** [base64ToUint8Array(base64Str)]: None when atob throws. *)
Definition base64ToUint8Array (base64Str : DOMString) : option Uint8Array :=
  match Base64.atob base64Str with
  | None => None
  | Some binaryStr => Some (map toUint8 binaryStr)
  end.

(** [uint8ArrayToBase64(uint8Array)]: None when btoa throws. *)
Definition uint8ArrayToBase64 (uint8Array : Uint8Array) : option DOMString :=
  let binary := fold_left (fun s b => s ++ [fromCharCode b]) uint8Array [] in
  Base64.btoa binary.

(** [joinUint8Arrays(arr1, arr2)] *)
Definition joinUint8Arrays (arr1 arr2 : Uint8Array) : Uint8Array :=
  arr1 ++ arr2.

End Utils.

(* ================================================================== *)
(** ** js_jsonrpc2/serializer.js and exceptions.js *)

Module Serializer.
Import JS.
Local Open Scope string_scope.

(** [arr.push(x)] *)
Definition push {A : Type} (arr : list A) (x : A) : list A :=
  (arr ++ [x])%list.

Definition isString (obj : value) : bool := String.eqb (typeof obj) "string".
Definition isNumber (obj : value) : bool := String.eqb (typeof obj) "number".
Definition isObject (obj : value) : bool := String.eqb (typeof obj) "object".
Definition isNull (obj : value) : bool :=
  match obj with Null => true | _ => false end.
Definition isArray (obj : value) : bool :=
  match obj with Arr _ => true | _ => false end.

(** [v % 1 !== 0]; every use sits behind [isNumber(v) &&]. *)
Definition mod1_nonzero (v : value) : bool :=
  match v with
  | Num n => negb (strict_eq (rem n (of_Z 1)) (of_Z 0))
  | _ => true
  end.

Definition id_message : string :=
  "An ID must be provided. It must be either a string or an integer (no fractions allowed)".

Definition checkId (id : value) (errors : list string) : list string :=
  if negb (isString id)
     && (negb (isNumber id) || (isNumber id && mod1_nonzero id))
  then push errors id_message else errors.

Definition checkErrorId (id : value) (errors : list string) : list string :=
  if negb (isNull id) && negb (isString id)
     && (negb (isNumber id) || (isNumber id && mod1_nonzero id))
  then push errors id_message else errors.

(** The parameter is ignored: the body reads [data.method]. *)
Definition checkMethod (data : value) (errors : list string) : list string :=
  if negb (isString (get data "method"))
  then push errors ("Method should be a string. Received "
                      ++ typeof (get data "method") ++ " instead")
  else errors.

Definition checkResult (result : value) (errors : list string)
  : list string :=
  match result with
  | Undefined => push errors "Result must exist for success Response objects"
  | _ => errors
  end.

Definition checkError (error : value) (errors : list string) : list string :=
  if negb (isObject error) then
    push errors "Error must be an object conforming to the JSON-RPC 2.0 error object specs"
  else if negb (instanceof_JsonRpcError error) then
    push errors "Error must be an instance of JsonRpcError, or any derivatives of it"
  else
    let code := get error "code" in
    let message := get error "message" in
    let errors :=
      if negb (isNumber code) && (isNumber code && mod1_nonzero code)
      then push errors "Invalid error code. It MUST be an integer."
      else errors in
    if negb (isString message)
    then push errors "Message must exist or must be a string."
    else errors.

(** [_validateMessageStructure(type, data)]: null (None) when no check
    failed. *)
Definition _validateMessageStructure (type : string) (data : value)
  : option (list string) :=
  let errors :=
    if String.eqb type "request" then
      checkMethod data (checkId (get data "id") [])
    else if String.eqb type "notification" then
      checkMethod data []
    else if String.eqb type "success" then
      checkResult (get data "result") (checkId (get data "id") [])
    else if String.eqb type "error" then
      checkError (get data "error") (checkErrorId (get data "id") [])
    else [] in
  match errors with
  | [] => None
  | _ => Some errors
  end.

(** What a constructor returns: the list of validation messages, or the
    text [JSON.stringify(obj)], kept as the object that is serialized. *)
Inductive built :=
| Errors (errors : list string)
| Serialized (obj : value).

(** [if (this.errorHandler) this.errorHandler(arg)]: the arguments the
    hook is called with. *)
Definition hook (errorHandler : bool) (arg : value) : list value :=
  if errorHandler then [arg] else [].

Definition finish (errorHandler : bool) (errors : option (list string))
  (obj : value) : built * list value :=
  match errors with
  | Some errs => (Errors errs, hook errorHandler (Arr (map Str errs)))
  | None => (Serialized obj, [])
  end.

Definition with_params (obj : list (string * value)) (params : value)
  : list (string * value) :=
  if truthy params then push obj ("params", params) else obj.

Definition requestObject (id method params : value) : value :=
  Obj ObjectProto
    (with_params [("jsonrpc", Str "2.0"); ("id", id); ("method", method)]
       params).

Definition request (errorHandler : bool) (id method params : value)
  : built * list value :=
  let params :=
    if truthy params && negb (isObject params) && negb (isArray params)
    then Arr [params] else params in
  finish errorHandler
    (_validateMessageStructure "request"
       (Obj ObjectProto [("id", id); ("method", method); ("params", params)]))
    (requestObject id method params).

Definition notificationObject (method params : value) : value :=
  Obj ObjectProto
    (with_params [("jsonrpc", Str "2.0"); ("method", method)] params).

Definition notification (errorHandler : bool) (method params : value)
  : built * list value :=
  finish errorHandler
    (_validateMessageStructure "notification"
       (Obj ObjectProto [("method", method); ("params", params)]))
    (notificationObject method params).

Definition successObject (id result : value) : value :=
  Obj ObjectProto [("jsonrpc", Str "2.0"); ("id", id); ("result", result)].

Definition success (errorHandler : bool) (id result : value)
  : built * list value :=
  finish errorHandler
    (_validateMessageStructure "success"
       (Obj ObjectProto [("id", id); ("result", result)]))
    (successObject id result).

Definition errorObject (id errdata : value) : value :=
  Obj ObjectProto [("jsonrpc", Str "2.0"); ("id", id); ("error", errdata)].

(** [jsonrpc.error(id, errdata)] *)
Definition error (errorHandler : bool) (id errdata : value)
  : built * list value :=
  finish errorHandler
    (_validateMessageStructure "error"
       (Obj ObjectProto [("id", id); ("error", errdata)]))
    (errorObject id errdata).

(** exceptions.js: [new ParseError(arg)], [new InvalidRequestError(arg)]. *)
Definition new_ParseError (arg : value) : value :=
  Obj ParseErrorProto
    [("name", Str "ParseError");
     ("code", Num (of_Z (-32700)));
     ("message", Str "Unable to parse payload as a JSON.");
     ("data", Arr [arg])].

Definition new_InvalidRequestError (arg : value) : value :=
  Obj InvalidRequestErrorProto
    [("name", Str "InvalidRequestError");
     ("code", Num (of_Z (-32600)));
     ("message", Str "The request object is not a valid JSON-RPC 2.0 object.");
     ("data", Arr [arg])].

(** What [deserialize] hands back: a [{ type, payload }] object, or one of
    the error instances (which has no [payload] property). *)
Inductive received :=
| Envelope (type : string) (payload : value)
| Failure (err : value).

(** [obj.hasOwnProperty(k)], called through the object.  A message that
    holds a key hasOwnProperty of its own shadows the method of
    Object.prototype; what JSON.parse put under that key is never a
    function, and calling it is a TypeError. *)
Definition call_hasOwnProperty (obj : value) (k : string)
  : completion bool :=
  match obj with
  | Obj _ props =>
      match own_property props "hasOwnProperty" with
      | Some _ => Thrown TypeError
      | None => Returned (hasOwnProperty obj k)
      end
  | _ => Returned (hasOwnProperty obj k)
  end.

(** [jsonrpc.deserializeObject(obj)], for an [obj] that came out of
    JSON.parse; reading [obj.jsonrpc] off null is a TypeError. *)
Definition deserializeObject (errorHandler : bool) (obj : value)
  : completion received * list value :=
  match obj with
  | Null | Undefined => (Thrown TypeError, [])
  | _ =>
    if negb (is_string_lit (get obj "jsonrpc") "2.0") then
      (Returned (Failure (new_InvalidRequestError obj)),
       hook errorHandler obj)
    else
      match get obj "id" with
      | Undefined =>
          (Returned (Envelope "notification"
             (Obj ObjectProto [("method", get obj "method");
                               ("params", get obj "params")])), [])
      | _ =>
        if isString (get obj "method") then
          (Returned (Envelope "request"
             (Obj ObjectProto [("id", get obj "id");
                               ("method", get obj "method");
                               ("params", get obj "params")])), [])
        else
          match call_hasOwnProperty obj "result" with
          | Thrown e => (Thrown e, [])
          | Returned true =>
              (Returned (Envelope "success"
                 (Obj ObjectProto [("id", get obj "id");
                                   ("result", get obj "result")])), [])
          | Returned false =>
              if truthy (get obj "error") then
                (Returned (Envelope "error"
                   (Obj ObjectProto [("id", get obj "id");
                                     ("error", get obj "error")])), [])
              else
                (Returned (Failure (new_InvalidRequestError obj)),
                 hook errorHandler obj)
          end
      end
  end.

(** The text of a message and what [JSON.parse] makes of it: a
    SyntaxError, or the parsed value. *)
Inductive message :=
| Malformed (msg : string)
| Parsed (msg : string) (obj : value).

(** [jsonrpc.deserialize(msg)] *)
Definition deserialize (errorHandler : bool) (m : message)
  : completion received * list value :=
  match m with
  | Malformed msg =>
      (Returned (Failure (new_ParseError (Str msg))),
       hook errorHandler (Str msg))
  | Parsed _ obj => deserializeObject errorHandler obj
  end.

End Serializer.

(* ================================================================== *)
(** ** ws_manager.js *)

Module WsManager.
Import JS Serializer.

(** [receiveBuffer] *)
Definition receiveBuffer := list received.

(** The 'message' listener of [connectToWS]: the buffer it leaves.  When
    [deserialize] throws, the listener stops before the push. *)
Definition on_message (errorHandler : bool) (buffer : receiveBuffer)
  (data : message) : receiveBuffer :=
  match fst (deserialize errorHandler data) with
  | Thrown _ => buffer
  | Returned response =>
      let buffer := push buffer response in
      if (64 <? length buffer)%nat then tl buffer else buffer
  end.

(** [resp.type] and [resp.payload]: undefined on an error instance. *)
Definition type_of (resp : received) : value :=
  match resp with
  | Envelope type _ => Str type
  | Failure _ => Undefined
  end.

Definition payload_of (resp : received) : value :=
  match resp with
  | Envelope _ payload => payload
  | Failure _ => Undefined
  end.

(** [resp => resp.payload && resp.payload.id === id] *)
Definition matches (id : Z) (resp : received) : bool :=
  truthy (payload_of resp)
  && is_number_lit (get (payload_of resp) "id") (of_Z id).

(** What surrounds one call of [getRPCResponse]: the buffer as the k-th
    poll finds it, and by how many ms the k-th 100 ms timer fires late.
    Time only passes while the call sleeps. *)
Record surroundings := {
  inbox : nat -> receiveBuffer;
  lateness : nat -> N
}.

(** The loop of [getRPCResponse].  The two Errors it can throw are kept
    as the operands of their templates; the message an Error holds, which
    is all it holds, is [error_text] below. *)
Fixpoint poll (fuel : nat) (env : surroundings) (id : Z)
  (k : nat) (elapsed : Z) : option (completion received) :=
  match fuel with
  | O => None
  | S fuel' =>
      if elapsed <? 40000 then
        match find (matches id) (inbox env k) with
        | Some response =>
            if is_string_lit (type_of response) "error"
            then Some (Thrown (RpcErrorResponse id (payload_of response)))
            else Some (Returned response)
        | None =>
            poll fuel' env id (S k) (elapsed + 100 + Z.of_N (lateness env k))
        end
      else Some (Thrown (TimeoutWaiting id))
  end.

(** [getRPCResponse(id)]; 401 guard evaluations are the most the 40 s
    allow at 100 ms or more per round. *)
Definition getRPCResponse (env : surroundings) (id : Z)
  : option (completion received) :=
  poll 401 env id 0 0.

(** A value inside a template literal.  An integer below 10^21 in size is
    written with its decimal digits. *)
Definition number_text (n : Z) : option string :=
  if Z.abs n <? 10 ^ 21
  then Some (NilZero.string_of_int (Z.to_int n))
  else None.

(** Null, undefined, booleans and strings are written as they are; an
    object that has no toString of its own inherits the one of
    Object.prototype.  None where the text is not modelled: numbers that
    are not ids, arrays, functions, error instances, objects with a key
    toString. *)
Definition template_text (v : value) : option string :=
  match v with
  | Undefined => Some "undefined"%string
  | Null => Some "null"%string
  | Bool true => Some "true"%string
  | Bool false => Some "false"%string
  | Str s => Some s
  | Obj ObjectProto props =>
      match own_property props "toString" with
      | None => Some "[object Object]"%string
      | Some _ => None
      end
  | _ => None
  end.

(** The message of the Error thrown:
    [`RPC error response for id ${id}: ${response.payload}`] and
    [`Timeout waiting for RPC response with id ${id}`]. *)
Definition error_text (e : exn) : option string :=
  match e with
  | RpcErrorResponse id payload =>
      match number_text id, template_text payload with
      | Some i, Some p =>
          Some ("RPC error response for id " ++ i ++ ": " ++ p)%string
      | _, _ => None
      end
  | TimeoutWaiting id =>
      match number_text id with
      | Some i =>
          Some ("Timeout waiting for RPC response with id " ++ i)%string
      | None => None
      end
  | _ => None
  end.

End WsManager.

(* ================================================================== *)
(** ** programmer.js *)

(** What both copies of programmer.js share: the chip catalog, the RPC
    round trip as they use it, and the two block loops, whose text is the
    same in both files up to the parameters of programmer_write_block. *)
Module Transfer.
Import JS.
Local Open Scope string_scope.
Local Open Scope list_scope.
Local Open Scope Z_scope.

(** An entry of [parts] in knows_chips.json. *)
Record chip := {
  model : string;
  jdec_id : string;
  capacity : Z;
  page_size : Z;
  manufacturer_name : string
}.

(** [data.parts.find(part => part.model === chipName)] *)
Definition find_chip (parts : list chip) (chipName : string) : option chip :=
  find (fun part => String.eqb (model part) chipName) parts.

(** A value in the params object of a request. *)
Inductive param :=
| PNum (n : Z)
| PBool (b : bool)
| PStr (s : DOMString).

(** A request as [ws.send(jsonrpc.request(rpcId, method, params))] puts
    it on the wire. *)
Record request := {
  req_id : Z;
  req_method : string;
  req_params : list (string * param)
}.

(** What [getRPCResponse(id)] ends with for a request: a timeout, an error
    envelope (both thrown), or a success envelope whose [payload.result]
    is read. *)
Inductive reply (A : Type) :=
| NoResponse
| ErrorResponse (payload : value)
| Result (result : A).
Arguments NoResponse {A}.
Arguments ErrorResponse {A} payload.
Arguments Result {A} result.

(** The far side of the socket.  [link_up k]: does the k-th [RPCCall]
    find or open a connection.  Results are typed as the device interface
    gives them: byte counts, base64 text, an echoed checksum, a flag. *)
Record network := {
  link_up : nat -> bool;
  size_reply : request -> reply Z;
  read_reply : request -> reply DOMString;
  write_reply : request -> reply Z;
  erase_start_reply : request -> reply value;
  erase_done_reply : request -> reply bool
}.

(** Module state of ws_manager.js plus the log of what was sent. *)
Record world := {
  rpcId : Z;
  calls : nat;
  sent : list request
}.

Definition initial : world := {| rpcId := 0; calls := O; sent := [] |}.

Definition M (A : Type) : Type := world -> completion A * world.

Definition ret {A : Type} (a : A) : M A := fun w => (Returned a, w).
Definition throw {A : Type} (e : exn) : M A := fun w => (Thrown e, w).
Definition bind {A B : Type} (m : M A) (k : A -> M B) : M B :=
  fun w => match m w with
           | (Returned a, w') => k a w'
           | (Thrown e, w') => (Thrown e, w')
           end.

Notation "x <- m ;; k" := (bind m (fun x => k))
  (at level 61, m at next level, right associativity).

(** [await RPCCall(method, params)] *)
Definition RPCCall (net : network) (method : string)
  (params : list (string * param)) : M Z :=
  fun w =>
    if link_up net (calls w) then
      let id := rpcId w + 1 in
      (Returned id,
       {| rpcId := id; calls := S (calls w);
          sent := sent w ++ [{| req_id := id; req_method := method;
                                 req_params := params |}] |})
    else
      (Thrown ConnectError,
       {| rpcId := rpcId w; calls := S (calls w); sent := sent w |}).

(** [(await getRPCResponse(id)).payload.result]; an id that was never
    sent finds no response. *)
Definition getRPCResponse_result {A : Type} (answer : request -> reply A)
  (id : Z) : M A :=
  fun w =>
    match find (fun r => req_id r =? id) (sent w) with
    | None => (Thrown (TimeoutWaiting id), w)
    | Some r =>
        match answer r with
        | NoResponse => (Thrown (TimeoutWaiting id), w)
        | ErrorResponse payload => (Thrown (RpcErrorResponse id payload), w)
        | Result result => (Returned result, w)
        end
    end.

(** How an async generator run to its end looks from outside. *)
Inductive ending :=
| Done
| Failed (e : exn)
| Unfinished.

Record run (A : Type) := {
  yielded : list A;
  ended : ending;
  final : world
}.
Arguments yielded {A} r.
Arguments ended {A} r.
Arguments final {A} r.

(** *** The read loop *)

(** [blockData.slice(0, -1)] *)
Definition without_last (blockData : Uint8Array) : Uint8Array :=
  slice blockData (of_Z 0) (of_Z (-1)).

(** [crc === sum] with
    [crc = blockData[blockData.length - 1]] and
    [sum = blockData.slice(0, -1).reduce((a, b) => a + b, 0) % 256]. *)
Definition crc_matches (blockData : Uint8Array) : bool :=
  let crc := last_element blockData in
  let sum := Z.rem (reduce_add (without_last blockData)) 256 in
  match crc with
  | Some c => c =? sum
  | None => false
  end.

(** The body of the [try] in readChipBlocks. *)
Definition fetch_block (net : network) (i : Z) (append_crc : bool)
  : M Uint8Array :=
  rpcId <- RPCCall net "programmer_read_block"
             [("block_id", PNum i); ("append_crc", PBool append_crc)] ;;
  result <- getRPCResponse_result (read_reply net) rpcId ;;
  match Utils.base64ToUint8Array result with
  | Some blockData => ret blockData
  | None => throw InvalidCharacterError
  end.

(** The variables of one iteration of the [for]. *)
Record read_state := {
  valid : bool;
  blockData : option Uint8Array;
  attempts : Z
}.

(** [while (!valid && attempts < 3) { ... }]; [budget] bounds the number
    of guard evaluations that enter the body. *)
Fixpoint read_while (budget : nat) (net : network) (i : Z)
  (append_crc : bool) (st : read_state) (w : world) : read_state * world :=
  match budget with
  | O => (st, w)
  | S budget' =>
      if negb (valid st) && (attempts st <? 3) then
        let attempts' := attempts st + 1 in
        match fetch_block net i append_crc w with
        | (Thrown _, w') =>
            read_while budget' net i append_crc
              {| valid := valid st; blockData := blockData st;
                 attempts := attempts' |} w'
        | (Returned data, w') =>
            read_while budget' net i append_crc
              {| valid := if append_crc then crc_matches data else true;
                 blockData := Some data;
                 attempts := attempts' |} w'
        end
      else (st, w)
  end.

(** [yield append_crc ? blockData.slice(0, -1) : blockData] *)
Definition read_yield (append_crc : bool) (data : Uint8Array) : Uint8Array :=
  if append_crc then without_last data else data.

(** [for (let i = 0; i < num_blocks; i++) { ... }], from index i on. *)
Fixpoint read_for (fuel : nat) (net : network) (append_crc : bool)
  (num_blocks : number) (i : Z) (out : list Uint8Array) (w : world)
  : run Uint8Array :=
  match fuel with
  | O => {| yielded := out; ended := Unfinished; final := w |}
  | S fuel' =>
      if lt (of_Z i) num_blocks then
        let '(st, w') :=
          read_while 3 net i append_crc
            {| valid := false; blockData := None; attempts := 0 |} w in
        if negb (valid st) then
          {| yielded := out; ended := Failed (FailedToReadBlock i);
             final := w' |}
        else
          match blockData st with
          | Some data =>
              read_for fuel' net append_crc num_blocks (i + 1)
                (out ++ [read_yield append_crc data]) w'
          | None =>
              {| yielded := out; ended := Failed TypeError; final := w' |}
          end
      else {| yielded := out; ended := Done; final := w |}
  end.

(** The generator behind [readChipBlocks], given how the block count is
    obtained. *)
Definition read_blocks (fuel : nat) (net : network) (append_crc : bool)
  (count : M number) (w : world) : run Uint8Array :=
  match count w with
  | (Thrown e, w') => {| yielded := []; ended := Failed e; final := w' |}
  | (Returned num_blocks, w') =>
      read_for fuel net append_crc num_blocks 0 [] w'
  end.

(** *** The write loop *)

(** [blockData.reduce((a, b) => a + b, 0) % 256] *)
Definition write_crc (blockData : Uint8Array) : Z :=
  Z.rem (reduce_add blockData) 256.

(** [while (!written && attempts < 3) { ... }]; [params crc] is the
    params object of the call.  Returns [written]. *)
Fixpoint write_while (budget : nat) (net : network)
  (params : Z -> list (string * param)) (blockData : Uint8Array)
  (written : bool) (attempts : Z) (w : world) : bool * world :=
  match budget with
  | O => (written, w)
  | S budget' =>
      if negb written && (attempts <? 3) then
        let attempts' := attempts + 1 in
        let crc := write_crc blockData in
        match (rpcId <- RPCCall net "programmer_write_block" (params crc) ;;
               getRPCResponse_result (write_reply net) rpcId) w with
        | (Returned _, w') =>
            write_while budget' net params blockData true attempts' w'
        | (Thrown _, w') =>
            write_while budget' net params blockData written attempts' w'
        end
      else (written, w)
  end.

(** [for (let blockId = 0; blockId < numBlocks; blockId++) { ... }], from
    blockId on; [params blockId data crc] is the params object. *)
Fixpoint write_for (fuel : nat) (net : network)
  (params : Z -> DOMString -> Z -> list (string * param))
  (fileData : Uint8Array) (BLOCK_SIZE numBlocks : number)
  (blockId : Z) (out : list Z) (w : world) : run Z :=
  match fuel with
  | O => {| yielded := out; ended := Unfinished; final := w |}
  | S fuel' =>
      if lt (of_Z blockId) numBlocks then
        let start := mul (of_Z blockId) BLOCK_SIZE in
        let stop := add start BLOCK_SIZE in
        let blockData := slice fileData start stop in
        match Utils.uint8ArrayToBase64 blockData with
        | None =>
            {| yielded := out; ended := Failed InvalidCharacterError;
               final := w |}
        | Some blockDataB64 =>
            let '(written, w') :=
              write_while 3 net (params blockId blockDataB64) blockData
                false 0 w in
            if negb written then
              {| yielded := out; ended := Failed (FailedToWriteBlock blockId);
                 final := w' |}
            else
              write_for fuel' net params fileData BLOCK_SIZE numBlocks
                (blockId + 1) (out ++ [blockId]) w'
        end
      else {| yielded := out; ended := Done; final := w |}
  end.

(** [startEraseChip] and [getEraseDone] *)
Definition startEraseChip (net : network) : M value :=
  rpcId <- RPCCall net "programmer_start_erase_chip" [] ;;
  getRPCResponse_result (erase_start_reply net) rpcId.

Definition getEraseDone (net : network) : M bool :=
  rpcId <- RPCCall net "programmer_erase_done" [] ;;
  getRPCResponse_result (erase_done_reply net) rpcId.

End Transfer.

(** *** The copy built on get_read_block_size / get_write_block_size *)

Module Programmer.
Import JS Transfer.
Local Open Scope string_scope.
Local Open Scope list_scope.
Local Open Scope Z_scope.

(** [getNumberOfBlocksForChip(chipName, for_read)] *)
Definition getNumberOfBlocksForChip (net : network) (parts : list chip)
  (chipName : string) (for_read : bool) : M number :=
  match find_chip parts chipName with
  | None => throw (ChipNotFound chipName)
  | Some chip =>
      let total_size := capacity chip in
      id <- (if for_read then RPCCall net "get_read_block_size" []
             else RPCCall net "get_write_block_size" []) ;;
      blockSize <- getRPCResponse_result (size_reply net) id ;;
      ret (div (of_Z total_size) (of_Z blockSize))
  end.

(** [getBlockSize(for_read)]: any failure is rethrown wrapped. *)
Definition getBlockSize (net : network) (for_read : bool) : M Z :=
  fun w =>
    match (rpcIdBlockSize <-
             (if for_read then RPCCall net "get_read_block_size" []
              else RPCCall net "get_write_block_size" []) ;;
           getRPCResponse_result (size_reply net) rpcIdBlockSize) w with
    | (Returned blockSize, w') => (Returned blockSize, w')
    | (Thrown error, w') => (Thrown (FailedToRetrieveBlockSize error), w')
    end.

(** [readChipBlocks(chipName, append_crc)] *)
Definition readChipBlocks (fuel : nat) (net : network) (parts : list chip)
  (chipName : string) (append_crc : bool) (w : world) : run Uint8Array :=
  read_blocks fuel net append_crc
    (getNumberOfBlocksForChip net parts chipName true) w.

(** [{ block_id: blockId, chip_page_size: pageSize, data: blockDataB64,
      crc: crc }] *)
Definition write_params (pageSize blockId : Z) (blockDataB64 : DOMString)
  (crc : Z) : list (string * param) :=
  [("block_id", PNum blockId); ("chip_page_size", PNum pageSize);
   ("data", PStr blockDataB64); ("crc", PNum crc)].

(** [writeChipBlocks(chipName, fileData)]; reading [chip.page_size] off
    a chip that was not found is a TypeError. *)
Definition writeChipBlocks (fuel : nat) (net : network) (parts : list chip)
  (chipName : string) (fileData : Uint8Array) (w : world) : run Z :=
  match getBlockSize net false w with
  | (Thrown e, w1) => {| yielded := []; ended := Failed e; final := w1 |}
  | (Returned blockSize, w1) =>
      let BLOCK_SIZE := of_Z blockSize in
      let byteLength := Z.of_nat (length fileData) in
      if negb (strict_eq (rem (of_Z byteLength) BLOCK_SIZE) (of_Z 0)) then
        {| yielded := [];
           ended := Failed (DataLengthNotMultiple byteLength BLOCK_SIZE);
           final := w1 |}
      else
        let numBlocks := div (of_Z byteLength) BLOCK_SIZE in
        match find_chip parts chipName with
        | None => {| yielded := []; ended := Failed TypeError; final := w1 |}
        | Some chip =>
            let pageSize := page_size chip in
            write_for fuel net (write_params pageSize) fileData
              BLOCK_SIZE numBlocks 0 [] w1
        end
  end.

End Programmer.

(** *** The copy built on get_transmit_packet_size /
        get_receive_packet_size *)

Module ProgrammerPackets.
Import JS Transfer.
Local Open Scope string_scope.
Local Open Scope list_scope.
Local Open Scope Z_scope.

(** [getNumberOfTransmitPackets(chipName)] *)
Definition getNumberOfTransmitPackets (net : network) (parts : list chip)
  (chipName : string) : M number :=
  match find_chip parts chipName with
  | None => throw (ChipNotFound chipName)
  | Some chip =>
      let total_size := capacity chip in
      id <- RPCCall net "get_transmit_packet_size" [] ;;
      blockSize <- getRPCResponse_result (size_reply net) id ;;
      ret (div (of_Z total_size) (of_Z blockSize))
  end.

(** [getNumberOfReceivePackets(chipName)] *)
Definition getNumberOfReceivePackets (net : network) (parts : list chip)
  (chipName : string) : M number :=
  match find_chip parts chipName with
  | None => throw (ChipNotFound chipName)
  | Some chip =>
      let total_size := capacity chip in
      id <- RPCCall net "get_receive_packet_size" [] ;;
      blockSize <- getRPCResponse_result (size_reply net) id ;;
      ret (div (of_Z total_size) (of_Z blockSize))
  end.

(** [readChipBlocks(chipName, append_crc)] *)
Definition readChipBlocks (fuel : nat) (net : network) (parts : list chip)
  (chipName : string) (append_crc : bool) (w : world) : run Uint8Array :=
  read_blocks fuel net append_crc
    (getNumberOfTransmitPackets net parts chipName) w.

(** [{ block_id: blockId, data: blockDataB64, crc: crc }] *)
Definition write_params (blockId : Z) (blockDataB64 : DOMString) (crc : Z)
  : list (string * param) :=
  [("block_id", PNum blockId); ("data", PStr blockDataB64);
   ("crc", PNum crc)].

(** [writeChipBlocks(chipName, fileData)]; reading [CHIP.capacity] off a
    chip that was not found is a TypeError.  [BLOCK_SIZE] is the exact
    quotient; the doubles of the code give the same number when the
    packet size divides the capacity. *)
Definition writeChipBlocks (fuel : nat) (net : network) (parts : list chip)
  (chipName : string) (fileData : Uint8Array) (w : world) : run Z :=
  match find_chip parts chipName with
  | None => {| yielded := []; ended := Failed TypeError; final := w |}
  | Some CHIP =>
      let CHIP_SIZE := capacity CHIP in
      match getNumberOfReceivePackets net parts chipName w with
      | (Thrown e, w1) => {| yielded := []; ended := Failed e; final := w1 |}
      | (Returned BLOCK_COUNT, w1) =>
          let BLOCK_SIZE := div (of_Z CHIP_SIZE) BLOCK_COUNT in
          let byteLength := Z.of_nat (length fileData) in
          if negb (strict_eq (rem (of_Z byteLength) BLOCK_SIZE) (of_Z 0)) then
            {| yielded := [];
               ended := Failed (DataLengthNotMultiple byteLength BLOCK_SIZE);
               final := w1 |}
          else
            let numBlocks := div (of_Z byteLength) BLOCK_SIZE in
            write_for fuel net write_params fileData
              BLOCK_SIZE numBlocks 0 [] w1
      end
  end.

End ProgrammerPackets.

(* ================================================================== *)
(** ** webserver/dom_manager.js *)

Module DomManager.
Import JS Transfer.
Local Open Scope string_scope.
Local Open Scope list_scope.
Local Open Scope Z_scope.

(** The promise an async function hands back when it is called without
    [await].  The caller holds an object; what it will settle with is
    kept beside it.  The requests of the body are taken to go out in
    call order. *)
Record promise (A : Type) := { settles_with : completion A }.
Arguments settles_with {A} p.

Definition as_value {A : Type} (p : promise A) : value :=
  Obj PromiseProto [].

Definition call_async {A : Type} (body : M A) (w : world)
  : promise A * world :=
  let '(c, w') := body w in ({| settles_with := c |}, w').

(** What the handler does to the page and to the timer queue. *)
Inductive effect :=
| LogSet (text : string)
| LogAppend (text : string)
| ProgressWidth (percent : Z)
| SetTimeout (ms : Z).

Record page := {
  effects : list effect;
  done_queries : list (promise bool);
  net_state : world
}.

(** [while (!getEraseDone(true, DEBUG)) { await ...setTimeout(resolve,
    1000); log.innerHTML += '.'; }] *)
Fixpoint erase_wait (fuel : nat) (net : network) (pg : page) : option page :=
  match fuel with
  | O => None
  | S fuel' =>
      let '(p, w') := call_async (getEraseDone net) (net_state pg) in
      let asked := {| effects := effects pg;
                      done_queries := done_queries pg ++ [p];
                      net_state := w' |} in
      if negb (truthy (as_value p)) then
        erase_wait fuel' net
          {| effects := effects asked ++ [SetTimeout 1000; LogAppend "."];
             done_queries := done_queries asked;
             net_state := net_state asked |}
      else Some asked
  end.

(** The click listener of the erase button. *)
Definition erase_click (fuel : nat) (net : network) (w : world)
  : option page :=
  let '(_, w1) := call_async (startEraseChip net) w in
  match erase_wait fuel net
          {| effects := [LogSet "Erasing..."; ProgressWidth 1];
             done_queries := []; net_state := w1 |} with
  | None => None
  | Some pg =>
      Some {| effects := effects pg ++ [ProgressWidth 100];
              done_queries := done_queries pg;
              net_state := net_state pg |}
  end.

End DomManager.

(* ================================================================== *)
(** * Properties *)

(** ** Lists taken three elements at a time *)

Lemma list_ind3 (A : Type) (P : list A -> Prop) :
  P [] ->
  (forall a, P [a]) ->
  (forall a b, P [a; b]) ->
  (forall a b c rest, P rest -> P (a :: b :: c :: rest)) ->
  forall l, P l.
Proof.
  intros H0 H1 H2 H3.
  fix IH 1.
  intros [|a [|b [|c rest]]].
  - exact H0.
  - apply H1.
  - apply H2.
  - apply H3, IH.
Qed.

Ltac zbool :=
  repeat match goal with
    | |- context [?a <? ?b] => destruct (Z.ltb_spec a b)
    | |- context [?a <=? ?b] => destruct (Z.leb_spec a b)
    | |- context [?a =? ?b] => destruct (Z.eqb_spec a b)
    end.

(** ** Numbers *)

Lemma truncq_comp (q q' : Q) : (q == q')%Q -> JS.truncq q = JS.truncq q'.
Proof.
  intros H. unfold JS.truncq.
  assert (E : Qle_bool 0 q = Qle_bool 0 q').
  { apply eq_true_iff_eq. rewrite !Qle_bool_iff, H. reflexivity. }
  rewrite E, (Qfloor_comp _ _ H), (Qceiling_comp _ _ H). reflexivity.
Qed.

Lemma truncq_inject_Z (z : Z) : JS.truncq (inject_Z z) = z.
Proof.
  unfold JS.truncq. rewrite Qfloor_Z, Qceiling_Z.
  now destruct (Qle_bool 0 (inject_Z z)).
Qed.

(** ** base64 *)

Module Base64Facts.
Import JS Base64.

Definition sextet (v : Z) : Prop := 0 <= v < 64.

(** The 6-bit values [encode] writes, without the padding. *)
Fixpoint values (octets : list Z) : list Z :=
  match octets with
  | [] => []
  | [a] => [a / 4; (a mod 4) * 16]
  | [a; b] =>
      let n := (a * 256 + b) * 4 in
      [n / 4096; (n / 64) mod 64; n mod 64]
  | a :: b :: c :: rest =>
      let n := a * 65536 + b * 256 + c in
      n / 262144 :: (n / 4096) mod 64 :: (n / 64) mod 64 :: n mod 64
        :: values rest
  end.

Fixpoint pads (octets : list Z) : list Z :=
  match octets with
  | [] => []
  | [_] => [pad; pad]
  | [_; _] => [pad]
  | _ :: _ :: _ :: rest => pads rest
  end.

Lemma encode_values octets :
  encode octets = map alphabet_char (values octets) ++ pads octets.
Proof.
  induction octets as [| a | a b | a b c rest IH] using list_ind3;
    try reflexivity.
  cbn [encode values pads map app]. now rewrite IH.
Qed.

Lemma values_sextets octets :
  is_Uint8Array octets -> Forall sextet (values octets).
Proof.
  unfold is_Uint8Array, is_uint8, sextet.
  induction octets as [| a | a b | a b c rest IH] using list_ind3; intros H.
  - constructor.
  - inversion_clear H. cbn [values].
    repeat constructor; Z.div_mod_to_equations; lia.
  - inversion_clear H as [|? ? Ha H']. inversion_clear H' as [|? ? Hb _].
    cbn [values]. repeat constructor; Z.div_mod_to_equations; lia.
  - inversion_clear H as [|? ? Ha H']. inversion_clear H' as [|? ? Hb H''].
    inversion_clear H'' as [|? ? Hc Hrest].
    cbn [values]. repeat (constructor; [Z.div_mod_to_equations; lia|]).
    now apply IH.
Qed.

Lemma values_length octets :
  let n := Z.of_nat (length (values octets)) in
  (n mod 4 = 0 /\ pads octets = []) \/
  (n mod 4 = 2 /\ pads octets = [pad; pad]) \/
  (n mod 4 = 3 /\ pads octets = [pad]).
Proof.
  induction octets as [| a | a b | a b c rest IH] using list_ind3;
    cbn [values pads length]; auto.
  cbv zeta in IH.
  replace (Z.of_nat (S (S (S (S (length (values rest)))))))
    with (Z.of_nat (length (values rest)) + 1 * 4) by lia.
  now rewrite Z.mod_add by lia.
Qed.

Lemma alphabet_index_char v :
  sextet v -> alphabet_index (alphabet_char v) = Some v.
Proof.
  unfold sextet, alphabet_char. intros H.
  zbool; unfold alphabet_index; zbool; cbn [andb];
    try (f_equal; lia); try lia.
Qed.

Lemma alphabet_char_not_whitespace v :
  sextet v -> is_ascii_whitespace (alphabet_char v) = false.
Proof.
  unfold sextet, alphabet_char. intros H.
  zbool; unfold is_ascii_whitespace; zbool; cbn [orb];
    try reflexivity; lia.
Qed.

Lemma alphabet_char_not_pad v : sextet v -> alphabet_char v <> pad.
Proof.
  unfold sextet, alphabet_char, pad. intros H. zbool; lia.
Qed.

Lemma indices_chars vals :
  Forall sextet vals -> indices (map alphabet_char vals) = Some vals.
Proof.
  induction 1 as [|v vals Hv _ IH]; [reflexivity|].
  cbn [map indices]. now rewrite alphabet_index_char, IH.
Qed.

Lemma filter_chars vals :
  Forall sextet vals ->
  filter (fun c => negb (is_ascii_whitespace c)) (map alphabet_char vals)
  = map alphabet_char vals.
Proof.
  induction 1 as [|v vals Hv _ IH]; [reflexivity|].
  cbn [map filter]. now rewrite alphabet_char_not_whitespace, IH.
Qed.

Lemma last_chars vals :
  Forall sextet vals -> last (map alphabet_char vals) 0 <> pad.
Proof.
  destruct vals as [|x vals'] using rev_ind; intros H.
  - discriminate.
  - rewrite map_app. cbn [map]. rewrite last_last.
    apply alphabet_char_not_pad.
    apply Forall_app in H. destruct H as [_ H]. now inversion H.
Qed.

Lemma strip_padding_chars vals ps :
  Forall sextet vals ->
  ps = [] \/ ps = [pad; pad] \/ ps = [pad] ->
  strip_padding (map alphabet_char vals ++ ps) = map alphabet_char vals.
Proof.
  intros H Hps. pose proof (last_chars vals H) as Hlast.
  apply Z.eqb_neq in Hlast.
  unfold strip_padding.
  destruct Hps as [-> | [-> | ->]].
  - rewrite app_nil_r. now rewrite Hlast.
  - change [pad; pad] with ([pad] ++ [pad]). rewrite app_assoc.
    rewrite last_last, Z.eqb_refl. cbv zeta.
    rewrite removelast_last, last_last, Z.eqb_refl.
    now rewrite removelast_last.
  - rewrite last_last, Z.eqb_refl. cbv zeta.
    rewrite removelast_last. now rewrite Hlast.
Qed.

Lemma decode_four v0 v1 v2 v3 rest out :
  decode_loop (v0 :: v1 :: v2 :: v3 :: rest) 0 0 out =
  let buf := (((0 * 64 + v0) * 64 + v1) * 64 + v2) * 64 + v3 in
  decode_loop rest 0 0
    (out ++ [buf / 65536; (buf / 256) mod 256; buf mod 256]).
Proof. reflexivity. Qed.

Lemma decode_values octets :
  is_Uint8Array octets ->
  forall out, decode_loop (values octets) 0 0 out = out ++ octets.
Proof.
  unfold is_Uint8Array, is_uint8.
  induction octets as [| a | a b | a b c rest IH] using list_ind3;
    intros H out.
  - cbn. now rewrite app_nil_r.
  - inversion_clear H as [|? ? Ha _].
    change (decode_loop (values [a]) 0 0 out)
      with (out ++ [((0 * 64 + a / 4) * 64 + a mod 4 * 16) / 16]).
    do 2 f_equal. Z.div_mod_to_equations; lia.
  - inversion_clear H as [|? ? Ha H']. inversion_clear H' as [|? ? Hb _].
    cbn [values].
    set (n := (a * 256 + b) * 4).
    change (decode_loop [n / 4096; (n / 64) mod 64; n mod 64] 0 0 out)
      with (let buf := ((0 * 64 + n / 4096) * 64 + (n / 64) mod 64) * 64
                       + n mod 64 in
            out ++ [(buf / 4) / 256; (buf / 4) mod 256]).
    cbv zeta.
    assert (Hbuf : ((0 * 64 + n / 4096) * 64 + (n / 64) mod 64) * 64
                   + n mod 64 = n)
      by (Z.div_mod_to_equations; lia).
    rewrite Hbuf. subst n.
    rewrite Z.div_mul by lia.
    f_equal. f_equal; [|f_equal]; Z.div_mod_to_equations; lia.
  - inversion_clear H as [|? ? Ha H']. inversion_clear H' as [|? ? Hb H''].
    inversion_clear H'' as [|? ? Hc Hrest].
    cbn [values].
    set (n := a * 65536 + b * 256 + c).
    rewrite decode_four. cbv zeta.
    assert (Hbuf : (((0 * 64 + n / 262144) * 64 + (n / 4096) mod 64) * 64
                    + (n / 64) mod 64) * 64 + n mod 64 = n)
      by (Z.div_mod_to_equations; lia).
    rewrite Hbuf, IH by assumption.
    rewrite <- app_assoc. f_equal. cbn [app].
    subst n. f_equal; [|f_equal; [|f_equal]]; Z.div_mod_to_equations; lia.
Qed.

(** [atob] undoes [encode] on octets. *)
Lemma atob_encode octets :
  is_Uint8Array octets -> atob (encode octets) = Some octets.
Proof.
  intros H. pose proof (values_sextets octets H) as Hs.
  unfold atob. rewrite encode_values.
  rewrite filter_app, filter_chars by assumption.
  assert (Hp : filter (fun c => negb (is_ascii_whitespace c)) (pads octets)
               = pads octets).
  { destruct (values_length octets) as [[_ ->] | [[_ ->] | [_ ->]]];
      reflexivity. }
  rewrite Hp.
  assert (Hlen : Z.of_nat (length (map alphabet_char (values octets)
                                     ++ pads octets)) mod 4 = 0).
  { rewrite length_app, length_map.
    destruct (values_length octets) as [[E ->] | [[E ->] | [E ->]]];
      cbv zeta in E; cbn [length]; Z.div_mod_to_equations; lia. }
  rewrite Hlen, Z.eqb_refl.
  rewrite strip_padding_chars; auto.
  2:{ destruct (values_length octets) as [[_ ->] | [[_ ->] | [_ ->]]]; auto. }
  rewrite length_map.
  assert (Hne : Z.of_nat (length (values octets)) mod 4 <> 1).
  { destruct (values_length octets) as [[E _] | [[E _] | [E _]]];
      cbv zeta in E; lia. }
  apply Z.eqb_neq in Hne. rewrite Hne.
  rewrite indices_chars by assumption.
  now rewrite decode_values.
Qed.

End Base64Facts.

(** ** utils.js and the checksum *)

Module UtilsFacts.
Import JS Transfer.

Lemma map_small (f : Z -> Z) (a : list Z) :
  (forall b, 0 <= b < 256 -> f b = b) ->
  is_Uint8Array a -> map f a = a.
Proof.
  intros Hf. induction 1 as [|b a Hb _ IH]; [reflexivity|].
  cbn [map]. now rewrite Hf, IH.
Qed.

Lemma fold_left_snoc (f : Z -> Z) (a : list Z) (init : list Z) :
  fold_left (fun s b => s ++ [f b]) a init = init ++ map f a.
Proof.
  revert init. induction a as [|b a IH]; intros init; cbn [fold_left map].
  - now rewrite app_nil_r.
  - rewrite IH, <- app_assoc. reflexivity.
Qed.

Lemma octets_pass_btoa (a : list Z) :
  is_Uint8Array a -> forallb (fun c => (0 <=? c) && (c <=? 255)) a = true.
Proof.
  induction 1 as [|b a Hb _ IH]; [reflexivity|].
  cbn [forallb]. rewrite IH. unfold is_uint8 in Hb.
  zbool; try reflexivity; lia.
Qed.

(** C10.  For every byte array a (elements in 0..255),
    uint8ArrayToBase64(a) returns a string and base64ToUint8Array gives
    back a from it: the payload encoding is a lossless round trip. *)
Theorem base64_roundtrip (a : Uint8Array) :
  is_Uint8Array a ->
  exists base64Str,
    Utils.uint8ArrayToBase64 a = Some base64Str /\
    Utils.base64ToUint8Array base64Str = Some a.
Proof.
  intros H. exists (Base64.encode a).
  unfold Utils.uint8ArrayToBase64, Utils.base64ToUint8Array, Base64.btoa.
  rewrite fold_left_snoc. cbn [app].
  assert (Hc : map fromCharCode a = a).
  { apply (map_small fromCharCode); [|assumption].
    intros b Hb. unfold fromCharCode. apply Z.mod_small. lia. }
  rewrite Hc, octets_pass_btoa by assumption.
  split; [reflexivity|].
  rewrite Base64Facts.atob_encode by assumption.
  f_equal. apply (map_small toUint8); [|assumption].
  intros b Hb. unfold toUint8. now apply Z.mod_small.
Qed.

Lemma base64_roundtrip_witness :
  is_Uint8Array [72; 101; 108; 108; 111] /\
  exists base64Str,
    Utils.uint8ArrayToBase64 [72; 101; 108; 108; 111] = Some base64Str /\
    Utils.base64ToUint8Array base64Str = Some [72; 101; 108; 108; 111].
Proof.
  assert (H : is_Uint8Array [72; 101; 108; 108; 111])
    by (repeat constructor; unfold is_uint8; lia).
  split; [exact H | exact (base64_roundtrip _ H)].
Defined.

(** The sum of the bytes, as the specification writes it. *)
Definition sum_bytes (p : list Z) : Z := fold_right Z.add 0 p.

Lemma reduce_add_from (p : list Z) (acc : Z) :
  fold_left Z.add p acc = acc + sum_bytes p.
Proof.
  revert acc. induction p as [|b p IH]; intros acc; cbn.
  - lia.
  - rewrite IH. unfold sum_bytes. lia.
Qed.

Lemma reduce_add_sum (p : list Z) : reduce_add p = sum_bytes p.
Proof. unfold reduce_add. now rewrite reduce_add_from. Qed.

Lemma sum_bytes_nonneg (p : list Z) : is_Uint8Array p -> 0 <= sum_bytes p.
Proof.
  induction 1 as [|b p Hb _ IH]; cbn; [lia|].
  unfold is_uint8 in Hb. unfold sum_bytes in IH. lia.
Qed.

Lemma write_crc_sum (p : Uint8Array) :
  is_Uint8Array p -> write_crc p = sum_bytes p mod 256.
Proof.
  intros H. unfold write_crc. rewrite reduce_add_sum.
  apply Z.rem_mod_nonneg; [now apply sum_bytes_nonneg | lia].
Qed.

Lemma without_last_removelast (d : Uint8Array) :
  without_last d = removelast d.
Proof.
  unfold without_last, slice, relative_index, of_Z.
  rewrite !truncq_inject_Z.
  change (0 <? 0) with false. change (-1 <? 0) with true. cbv iota.
  rewrite Z.min_l by lia. cbn [Z.to_nat skipn].
  destruct d as [|x d] using rev_ind; [reflexivity|].
  rewrite removelast_last, length_app. cbn [length].
  rewrite Z.max_l by lia.
  replace (Z.to_nat (Z.of_nat (length d + 1) + -1 - 0)) with (length d + 0)%nat
    by lia.
  rewrite firstn_app_2. cbn. now rewrite app_nil_r.
Qed.

Lemma last_element_snoc (p : Uint8Array) (c : Z) :
  last_element (p ++ [c]) = Some c.
Proof.
  unfold last_element. rewrite length_app. cbn [length].
  replace (Nat.pred (length p + 1)) with (length p) by lia.
  rewrite nth_error_app2 by lia. now rewrite Nat.sub_diag.
Qed.

(** C2.  The write side computes the sum of the payload bytes modulo
    256; the read side accepts a block exactly when its last byte is that
    value for the bytes before it; and a payload followed by its
    checksum always passes the read-side check. *)
Theorem checksum_append_validates (p : Uint8Array) :
  is_Uint8Array p ->
  write_crc p = sum_bytes p mod 256 /\
  (forall d, crc_matches d = true <->
             last_element d = Some (write_crc (without_last d))) /\
  crc_matches (p ++ [write_crc p]) = true.
Proof.
  intros H. split; [now apply write_crc_sum|]. split.
  - intros d. unfold crc_matches, write_crc.
    destruct (last_element d) as [c|]; split; intros E; try discriminate.
    + apply Z.eqb_eq in E. now subst c.
    + injection E as ->. apply Z.eqb_refl.
  - unfold crc_matches.
    rewrite last_element_snoc, without_last_removelast, removelast_last.
    apply Z.eqb_refl.
Qed.

Lemma checksum_append_validates_witness :
  is_Uint8Array [200; 100; 7] /\
  write_crc [200; 100; 7] = 51 /\
  crc_matches ([200; 100; 7] ++ [write_crc [200; 100; 7]]) = true.
Proof.
  assert (H : is_Uint8Array [200; 100; 7])
    by (repeat constructor; unfold is_uint8; lia).
  destruct (checksum_append_validates _ H) as [E [_ V]].
  split; [exact H|]. split; [rewrite E; reflexivity | exact V].
Defined.

End UtilsFacts.

(** ** ws_manager.js *)

Module WsManagerFacts.
Import JS Serializer WsManager.
Local Open Scope string_scope.
Local Open Scope list_scope.
Local Open Scope Z_scope.

(** The buffer after the listener has seen [msgs], starting empty. *)
Definition receive (errorHandler : bool) (msgs : list message)
  : receiveBuffer :=
  fold_left (on_message errorHandler) msgs [].

Lemma on_message_bound errorHandler buffer data :
  (length buffer <= 64)%nat ->
  (length (on_message errorHandler buffer data) <= 64)%nat.
Proof.
  intros H. unfold on_message, push.
  destruct (fst (deserialize errorHandler data)) as [response|e];
    [|assumption].
  destruct (Nat.ltb_spec 64 (length (buffer ++ [response]))) as [L|L];
    [|assumption].
  destruct buffer as [|oldest rest]; cbn [app tl length] in *;
    rewrite ?length_app in *; cbn [length] in *; lia.
Qed.

Lemma receive_from_bound errorHandler msgs buffer :
  (length buffer <= 64)%nat ->
  (length (fold_left (on_message errorHandler) msgs buffer) <= 64)%nat.
Proof.
  revert buffer. induction msgs as [|m msgs IH]; intros buffer H;
    cbn [fold_left]; [assumption|].
  apply IH. now apply on_message_bound.
Qed.

Lemma receive_bound errorHandler msgs :
  (length (receive errorHandler msgs) <= 64)%nat.
Proof. apply receive_from_bound. cbn. lia. Qed.

(** C8.  Whatever messages came before, after the listener has processed
    one more message the buffer holds at most 64 entries; a decoded
    envelope goes to the end, and once 64 entries are held the oldest one
    (the head) is dropped to make room, matched or not. *)
Theorem receive_buffer_bounded (errorHandler : bool) (msgs : list message)
  (data : message) (response : received) :
  fst (deserialize errorHandler data) = Returned response ->
  let buffer := receive errorHandler msgs in
  (length (on_message errorHandler buffer data) <= 64)%nat /\
  on_message errorHandler buffer data =
    if (length buffer <? 64)%nat then buffer ++ [response]
    else tl buffer ++ [response].
Proof.
  intros E buffer. split.
  - apply on_message_bound, receive_bound.
  - pose proof (receive_bound errorHandler msgs) as B. fold buffer in B.
    unfold on_message, push. rewrite E.
    rewrite length_app. cbn [length].
    destruct (Nat.ltb_spec (length buffer) 64) as [L|L].
    + destruct (Nat.ltb_spec 64 (length buffer + 1)) as [L'|L'];
        [lia|reflexivity].
    + destruct (Nat.ltb_spec 64 (length buffer + 1)) as [L'|L']; [|lia].
      destruct buffer as [|oldest rest]; [cbn in L; lia|reflexivity].
Qed.

(** A notification numbered n, as JSON.parse delivers it. *)
Definition note (n : Z) : message :=
  Parsed "{...}"
    (Obj ObjectProto [("jsonrpc", Str "2.0"); ("method", Str "tick");
                      ("params", Num (of_Z n))]).

Definition reply_7 : message :=
  Parsed "{...}"
    (Obj ObjectProto [("jsonrpc", Str "2.0"); ("id", Num (of_Z 7));
                      ("result", Str "QQ==")]).

Definition envelope_7 : received :=
  Envelope "success"
    (Obj ObjectProto [("id", Num (of_Z 7)); ("result", Str "QQ==")]).

Definition sixty_four_notes : list message :=
  map (fun n => note (Z.of_nat n)) (seq 0 64).

Lemma receive_buffer_bounded_witness :
  fst (deserialize false reply_7) = Returned envelope_7 /\
  length (receive false sixty_four_notes) = 64%nat /\
  on_message false (receive false sixty_four_notes) reply_7 =
    tl (receive false sixty_four_notes) ++ [envelope_7].
Proof.
  assert (E : fst (deserialize false reply_7) = Returned envelope_7)
    by reflexivity.
  split; [exact E|]. split; [reflexivity|].
  exact (proj2 (receive_buffer_bounded false sixty_four_notes reply_7
                  envelope_7 E)).
Defined.

(** Time on the clock of [getRPCResponse] when it polls for the k-th
    time (k = 0 is the first poll). *)
Fixpoint elapsed_at (env : surroundings) (k : nat) : Z :=
  match k with
  | O => 0
  | S k' => elapsed_at env k' + 100 + Z.of_N (lateness env k')
  end.

(** What a match makes [getRPCResponse] do. *)
Definition answer_with (id : Z) (response : received)
  : completion received :=
  if is_string_lit (type_of response) "error"
  then Thrown (RpcErrorResponse id (payload_of response))
  else Returned response.

Lemma elapsed_at_step env k : elapsed_at env k + 100 <= elapsed_at env (S k).
Proof. cbn [elapsed_at]. lia. Qed.

Lemma elapsed_at_mono env j k :
  (j <= k)%nat -> elapsed_at env j <= elapsed_at env k.
Proof.
  induction 1 as [|k _ IH]; [lia|].
  pose proof (elapsed_at_step env k). lia.
Qed.

Lemma poll_match env id fuel :
  forall k j response,
    (k <= j)%nat ->
    40000 <= (Z.of_nat fuel - 1) * 100 + elapsed_at env k ->
    elapsed_at env j < 40000 ->
    (forall i, (k <= i < j)%nat -> find (matches id) (inbox env i) = None) ->
    find (matches id) (inbox env j) = Some response ->
    poll fuel env id k (elapsed_at env k) = Some (answer_with id response).
Proof.
  induction fuel as [|fuel IH]; intros k j response Hkj Hfuel Hj Hnone Hfind.
  - pose proof (elapsed_at_mono env k j Hkj). lia.
  - pose proof (elapsed_at_mono env k j Hkj) as Hm.
    cbn [poll].
    destruct (Z.ltb_spec (elapsed_at env k) 40000) as [Hlt|Hge]; [|lia].
    destruct (Nat.eq_dec k j) as [->|Hne].
    + rewrite Hfind. unfold answer_with.
      now destruct (is_string_lit (type_of response) "error").
    + rewrite Hnone by lia.
      change (elapsed_at env k + 100 + Z.of_N (lateness env k))
        with (elapsed_at env (S k)).
      apply (IH (S k) j response); try assumption; try lia.
      * pose proof (elapsed_at_step env k). lia.
      * intros i Hi. apply Hnone. lia.
Qed.

Lemma poll_timeout env id fuel :
  forall k,
    (1 <= fuel)%nat ->
    40000 <= (Z.of_nat fuel - 1) * 100 + elapsed_at env k ->
    (forall i, (k <= i)%nat -> elapsed_at env i < 40000 ->
               find (matches id) (inbox env i) = None) ->
    poll fuel env id k (elapsed_at env k) = Some (Thrown (TimeoutWaiting id)).
Proof.
  induction fuel as [|fuel IH]; intros k Hpos Hfuel Hnone; [lia|].
  cbn [poll].
  destruct (Z.ltb_spec (elapsed_at env k) 40000) as [Hlt|Hge];
    [|reflexivity].
  rewrite Hnone by (auto; lia).
  change (elapsed_at env k + 100 + Z.of_N (lateness env k))
    with (elapsed_at env (S k)).
  apply IH.
  - lia.
  - pose proof (elapsed_at_step env k). lia.
  - intros i Hi. apply Hnone. lia.
Qed.

(** [getRPCResponse(id)] looks into the buffer every 100 ms (plus
    whatever the timer is late) for the first envelope whose payload id
    is id.  At the first poll inside the 40 s that finds one, it throws
    an RPC error built from the payload when the envelope's type is
    error and returns the envelope otherwise.  If no poll inside the 40 s
    finds one, it throws the timeout error.  One of the two always
    happens. *)
Theorem getRPCResponse_spec (env : surroundings) (id : Z) :
  (forall j response,
      elapsed_at env j < 40000 ->
      (forall i, (i < j)%nat -> find (matches id) (inbox env i) = None) ->
      find (matches id) (inbox env j) = Some response ->
      getRPCResponse env id = Some (answer_with id response)) /\
  ((forall j, elapsed_at env j < 40000 ->
              find (matches id) (inbox env j) = None) ->
   getRPCResponse env id = Some (Thrown (TimeoutWaiting id))).
Proof.
  unfold getRPCResponse. split.
  - intros j response Hj Hnone Hfind.
    apply (poll_match env id 401 0 j response); try assumption; try lia.
    + cbn [elapsed_at]. lia.
    + intros i Hi. apply Hnone. lia.
  - intros Hnone.
    apply (poll_timeout env id 401 0).
    + lia.
    + cbn [elapsed_at]. lia.
    + intros i _ Hi. now apply Hnone.
Qed.

(** A response to request 7 that shows up in the buffer from the third
    poll on, behind an unrelated notification; and a quiet socket. *)
Definition note_1 : received :=
  Envelope "notification"
    (Obj ObjectProto [("method", Str "tick"); ("params", Undefined)]).

Definition arrives_at_third_poll : surroundings :=
  {| inbox := fun k => if (k <? 2)%nat then [note_1]
                       else [note_1; envelope_7];
     lateness := fun _ => 0%N |}.

Definition quiet : surroundings :=
  {| inbox := fun _ => [note_1]; lateness := fun _ => 3%N |}.

Lemma getRPCResponse_spec_witness :
  getRPCResponse arrives_at_third_poll 7 = Some (Returned envelope_7) /\
  getRPCResponse quiet 7 = Some (Thrown (TimeoutWaiting 7)).
Proof.
  split.
  - apply (proj1 (getRPCResponse_spec arrives_at_third_poll 7) 2%nat
             envelope_7).
    + cbn. lia.
    + intros i Hi. destruct i as [|[|i]]; [reflexivity|reflexivity|lia].
    + reflexivity.
  - apply (proj2 (getRPCResponse_spec quiet 7)).
    intros j _. reflexivity.
Defined.

(** C4.  An error response to request id, as the device sends it and
    the listener buffers it, makes [getRPCResponse(id)] throw at its
    first poll.  The Error thrown holds its message and nothing else,
    and in the message the payload is written as an object: the text is
    the same whatever the error data, so the Error does not carry the
    payload. *)
Theorem rpc_error_text_drops_payload (errorHandler : bool) (id : Z)
  (error : value) (late : nat -> N) (text : string) :
  0 <= id < 10 ^ 21 ->
  truthy error = true ->
  let response :=
    Parsed text
      (Obj ObjectProto [("jsonrpc", Str "2.0"); ("id", Num (of_Z id));
                        ("error", error)]) in
  let env := {| inbox := fun _ => receive errorHandler [response];
                lateness := late |} in
  let payload := Obj ObjectProto [("id", Num (of_Z id)); ("error", error)] in
  getRPCResponse env id = Some (Thrown (RpcErrorResponse id payload)) /\
  error_text (RpcErrorResponse id payload)
  = Some ("RPC error response for id "
          ++ NilZero.string_of_int (Z.to_int id)
          ++ ": [object Object]")%string.
Proof.
  intros Hid T. cbv zeta. split.
  - assert (B : receive errorHandler
                  [Parsed text
                     (Obj ObjectProto [("jsonrpc", Str "2.0");
                                       ("id", Num (of_Z id));
                                       ("error", error)])]
                = [Envelope "error"
                     (Obj ObjectProto [("id", Num (of_Z id));
                                       ("error", error)])]).
    { unfold receive. cbn [fold_left]. unfold on_message.
      cbn [deserialize]. unfold deserializeObject, call_hasOwnProperty.
      cbn -[of_Z]. rewrite T. reflexivity. }
    assert (M : matches id
                  (Envelope "error"
                     (Obj ObjectProto [("id", Num (of_Z id));
                                       ("error", error)])) = true).
    { unfold matches. cbn -[of_Z strict_eq]. unfold strict_eq, of_Z.
      apply Qeq_bool_iff. reflexivity. }
    unfold getRPCResponse.
    transitivity
      (Some (answer_with id
               (Envelope "error"
                  (Obj ObjectProto [("id", Num (of_Z id));
                                    ("error", error)]))));
      [|reflexivity].
    apply (poll_match _ id 401 0 0).
    + lia.
    + cbn [elapsed_at]. lia.
    + cbn [elapsed_at]. lia.
    + intros i Hi. lia.
    + cbn [inbox]. rewrite B. cbn [find]. now rewrite M.
  - unfold error_text, number_text.
    destruct (Z.ltb_spec (Z.abs id) (10 ^ 21)) as [_|H]; [reflexivity|].
    rewrite Z.abs_eq in H by lia. lia.
Qed.

(** The device refuses request 7 because the flash is busy. *)
Definition busy_refusal : value :=
  Obj ObjectProto [("code", Num (of_Z (-32000)));
                   ("message", Str "flash busy")].

Lemma rpc_error_text_drops_payload_witness :
  getRPCResponse
    {| inbox := fun _ =>
         receive false
           [Parsed "{...}"
              (Obj ObjectProto [("jsonrpc", Str "2.0");
                                ("id", Num (of_Z 7));
                                ("error", busy_refusal)])];
       lateness := fun _ => 0%N |} 7
  = Some (Thrown (RpcErrorResponse 7
                    (Obj ObjectProto [("id", Num (of_Z 7));
                                      ("error", busy_refusal)]))) /\
  error_text (RpcErrorResponse 7
                (Obj ObjectProto [("id", Num (of_Z 7));
                                  ("error", busy_refusal)]))
  = Some "RPC error response for id 7: [object Object]".
Proof.
  apply (rpc_error_text_drops_payload false 7 busy_refusal
           (fun _ => 0%N) "{...}").
  - lia.
  - reflexivity.
Defined.

End WsManagerFacts.

(** ** serializer.js *)

Module SerializerFacts.
Import JS Serializer.
Local Open Scope string_scope.
Local Open Scope list_scope.
Local Open Scope Z_scope.

(** A number whose value is the integer z. *)
Definition integer_number (v : value) : Prop :=
  exists q z, v = Num (Fin q) /\ (q == inject_Z z)%Q.

(** "the id is null, a string, or an integer" *)
Definition acceptable_id (id : value) : Prop :=
  id = Null \/ (exists s, id = Str s) \/ integer_number id.

(** "an error object carrying an integer code and a string message" *)
Definition carries_code_and_message (errdata : value) : Prop :=
  (exists proto props, errdata = Obj proto props) /\
  integer_number (get errdata "code") /\
  (exists m, get errdata "message" = Str m).

Lemma truncq_integer (q : Q) (z : Z) :
  (q == inject_Z z)%Q -> truncq (q / inject_Z 1) = z.
Proof.
  intros H.
  assert (E : (q / inject_Z 1 == inject_Z z)%Q) by (rewrite H; field).
  rewrite (truncq_comp _ _ E). apply truncq_inject_Z.
Qed.

Lemma integer_has_no_fraction (v : value) :
  integer_number v -> mod1_nonzero v = false.
Proof.
  intros (q & z & -> & H). unfold mod1_nonzero, rem, of_Z.
  change (Qis_zero (inject_Z 1)) with false. cbv iota.
  rewrite (truncq_integer q z H).
  unfold strict_eq. apply negb_false_iff, Qeq_bool_iff.
  rewrite Qred_correct, H. ring.
Qed.

Lemma checkErrorId_accepts (id : value) (errors : list string) :
  acceptable_id id -> checkErrorId id errors = errors.
Proof.
  intros [-> | [(s & ->) | H]]; try reflexivity.
  unfold checkErrorId. rewrite (integer_has_no_fraction id H).
  destruct H as (q & z & -> & _). reflexivity.
Qed.

Lemma validate_error (id errdata : value) :
  _validateMessageStructure "error"
    (Obj ObjectProto [("id", id); ("error", errdata)])
  = let errors := checkError errdata (checkErrorId id []) in
    match errors with
    | [] => None
    | _ => Some errors
    end.
Proof. reflexivity. Qed.

(** C9, as amended.  jsonrpc.error(id, errdata) returns the serialized
    envelope, and calls no hook, whenever id is null, a string or an
    integer and errdata is an instance of JsonRpcError (or of a class
    derived from it) carrying an integer code and a string message. *)
Theorem error_instance_accepted (errorHandler : bool) (id errdata : value) :
  acceptable_id id ->
  carries_code_and_message errdata ->
  instanceof_JsonRpcError errdata = true ->
  error errorHandler id errdata = (Serialized (errorObject id errdata), []).
Proof.
  intros Hid (Hobj & Hcode & (m & Hmsg)) Hinst.
  unfold error. rewrite validate_error. cbv zeta.
  rewrite checkErrorId_accepts by assumption.
  unfold checkError. rewrite Hinst, Hmsg.
  destruct Hobj as (proto & props & ->).
  destruct Hcode as (q & z & -> & _).
  reflexivity.
Qed.

(** [new JsonRpcError("Flash busy")] and the object literal
    [{ code: -32000, message: "Flash busy" }]. *)
Definition flash_busy : value :=
  Obj JsonRpcErrorProto
    [("name", Str "JsonRpcError"); ("code", Num (of_Z (-32603)));
     ("message", Str "Flash busy"); ("data", Arr [])].

Definition flash_busy_literal : value :=
  Obj ObjectProto
    [("code", Num (of_Z (-32000))); ("message", Str "Flash busy")].

Lemma integer_number_of_Z (z : Z) : integer_number (Num (of_Z z)).
Proof. exists (inject_Z z), z. split; reflexivity. Qed.

Lemma error_instance_accepted_witness :
  error true (Num (of_Z 7)) flash_busy
  = (Serialized (errorObject (Num (of_Z 7)) flash_busy), []).
Proof.
  apply error_instance_accepted.
  - right. right. exact (integer_number_of_Z 7).
  - split; [now exists JsonRpcErrorProto,
              [("name", Str "JsonRpcError"); ("code", Num (of_Z (-32603)));
               ("message", Str "Flash busy"); ("data", Arr [])]|].
    split; [exact (integer_number_of_Z (-32603))|].
    now exists "Flash busy".
  - reflexivity.
Defined.

(** [Object.assign(new Error("Flash busy"), { code: -32000 })] *)
Definition flash_busy_Error : value :=
  Obj ErrorProto
    [("message", Str "Flash busy"); ("code", Num (of_Z (-32000)))].

(** C9 as stated fails: under an integer id, an Error instance with an
    integer code and a string message, and likewise an object literal
    of that shape, is turned down with a validation message because it
    is not an instance of JsonRpcError. *)
Lemma error_object_literal_rejected :
  acceptable_id (Num (of_Z 7)) /\
  carries_code_and_message flash_busy_Error /\
  error false (Num (of_Z 7)) flash_busy_Error
  = (Errors ["Error must be an instance of JsonRpcError, or any derivatives of it"],
     []) /\
  carries_code_and_message flash_busy_literal /\
  error false (Num (of_Z 7)) flash_busy_literal
  = (Errors ["Error must be an instance of JsonRpcError, or any derivatives of it"],
     []).
Proof.
  split; [right; right; exact (integer_number_of_Z 7)|].
  split; [|split; [reflexivity|split; [|reflexivity]]].
  - split; [now exists ErrorProto,
              [("message", Str "Flash busy");
               ("code", Num (of_Z (-32000)))]|].
    split; [exact (integer_number_of_Z (-32000))|].
    now exists "Flash busy".
  - split; [now exists ObjectProto,
              [("code", Num (of_Z (-32000)));
               ("message", Str "Flash busy")]|].
    split; [exact (integer_number_of_Z (-32000))|].
    now exists "Flash busy".
Qed.

End SerializerFacts.

(** ** programmer.js: the read loop *)

Module ReadFacts.
Import JS Transfer.
Local Open Scope string_scope.
Local Open Scope list_scope.
Local Open Scope Z_scope.

(** Does an attempt end with a block the loop accepts? *)
Definition accepted (append_crc : bool) (c : completion Uint8Array) : bool :=
  match c with
  | Returned data => if append_crc then crc_matches data else true
  | Thrown _ => false
  end.

(** The loop variables after an attempt that completed with [c]. *)
Definition next (append_crc : bool) (st : read_state)
  (c : completion Uint8Array) : read_state :=
  match c with
  | Thrown _ =>
      {| valid := valid st; blockData := blockData st;
         attempts := attempts st + 1 |}
  | Returned data =>
      {| valid := if append_crc then crc_matches data else true;
         blockData := Some data;
         attempts := attempts st + 1 |}
  end.

Definition fresh : read_state :=
  {| valid := false; blockData := None; attempts := 0 |}.

Lemma read_while_enter budget net i append_crc st w :
  negb (valid st) && (attempts st <? 3) = true ->
  read_while (S budget) net i append_crc st w =
  read_while budget net i append_crc
    (next append_crc st (fst (fetch_block net i append_crc w)))
    (snd (fetch_block net i append_crc w)).
Proof.
  intros G. cbn [read_while]. rewrite G.
  now destruct (fetch_block net i append_crc w) as [[data|e] w'].
Qed.

Lemma read_while_exit budget net i append_crc st w :
  negb (valid st) && (attempts st <? 3) = false ->
  read_while budget net i append_crc st w = (st, w).
Proof.
  intros G. destruct budget; [reflexivity|]. cbn [read_while]. now rewrite G.
Qed.

Lemma RPCCall_calls net method params w :
  calls (snd (RPCCall net method params w)) = S (calls w).
Proof. unfold RPCCall. now destruct (link_up net (calls w)). Qed.

Lemma getRPCResponse_result_world (A : Type) (answer : request -> reply A)
  id w : snd (getRPCResponse_result answer id w) = w.
Proof.
  unfold getRPCResponse_result.
  destruct (find _ (sent w)) as [r|]; [|reflexivity].
  now destruct (answer r).
Qed.

Lemma fetch_block_world net i append_crc w :
  snd (fetch_block net i append_crc w)
  = snd (RPCCall net "programmer_read_block"
           [("block_id", PNum i); ("append_crc", PBool append_crc)] w).
Proof.
  unfold fetch_block, bind.
  destruct (RPCCall net _ _ w) as [[id|e] w1]; [|reflexivity].
  pose proof (getRPCResponse_result_world _ (read_reply net) id w1) as E.
  destruct (getRPCResponse_result (read_reply net) id w1) as [[s|e] w2];
    cbn [snd] in *; subst; [|reflexivity].
  now destruct (Utils.base64ToUint8Array s).
Qed.

Lemma fetch_block_calls net i append_crc w :
  calls (snd (fetch_block net i append_crc w)) = S (calls w).
Proof. rewrite fetch_block_world. apply RPCCall_calls. Qed.

(** Each pass through the loop body is one attempt and one [RPCCall];
    the counter never passes 3. *)
Lemma read_while_attempts budget net i append_crc :
  forall st w,
    0 <= attempts st <= 3 ->
    let r := read_while budget net i append_crc st w in
    attempts st <= attempts (fst r) <= 3 /\
    Z.of_nat (calls (snd r)) - Z.of_nat (calls w)
    = attempts (fst r) - attempts st.
Proof.
  induction budget as [|budget IH]; intros st w H; cbv zeta.
  - cbn. lia.
  - destruct (negb (valid st) && (attempts st <? 3)) eqn:G.
    + rewrite read_while_enter by assumption.
      apply andb_prop in G. destruct G as [_ G]. apply Z.ltb_lt in G.
      set (c := fst (fetch_block net i append_crc w)).
      assert (Hn : attempts (next append_crc st c) = attempts st + 1)
        by (destruct c; reflexivity).
      specialize (IH (next append_crc st c)
                    (snd (fetch_block net i append_crc w))).
      cbv zeta in IH. rewrite Hn, fetch_block_calls in IH. lia.
    + rewrite read_while_exit by assumption. cbn. lia.
Qed.

(** A budget of 3 never cuts the loop short. *)
Lemma read_while_budget budget net i append_crc :
  forall st w,
    0 <= attempts st ->
    (Z.to_nat (3 - attempts st) <= budget)%nat ->
    read_while (S budget) net i append_crc st w
    = read_while budget net i append_crc st w.
Proof.
  induction budget as [|budget IH]; intros st w H0 H.
  - destruct (negb (valid st) && (attempts st <? 3)) eqn:G.
    + apply andb_prop in G. destruct G as [_ G]. apply Z.ltb_lt in G. lia.
    + now rewrite !read_while_exit.
  - destruct (negb (valid st) && (attempts st <? 3)) eqn:G.
    + rewrite (read_while_enter (S budget) net i append_crc st w),
        (read_while_enter budget net i append_crc st w) by assumption.
      set (c := fst (fetch_block net i append_crc w)).
      assert (Hn : attempts (next append_crc st c) = attempts st + 1)
        by (destruct c; reflexivity).
      apply IH; rewrite Hn; lia.
    + now rewrite !read_while_exit.
Qed.

Lemma read_while_more budget net i append_crc w :
  (3 <= budget)%nat ->
  read_while budget net i append_crc fresh w
  = read_while 3 net i append_crc fresh w.
Proof.
  induction 1 as [|budget Hle IH]; [reflexivity|].
  rewrite read_while_budget; [exact IH | cbn; lia | cbn; lia].
Qed.

(** One iteration of the [for], given what the [while] left behind. *)
Lemma read_for_enter fuel net append_crc num_blocks i out w :
  lt (of_Z i) num_blocks = true ->
  read_for (S fuel) net append_crc num_blocks i out w =
  let r := read_while 3 net i append_crc fresh w in
  if negb (valid (fst r)) then
    {| yielded := out; ended := Failed (FailedToReadBlock i);
       final := snd r |}
  else
    match blockData (fst r) with
    | Some data =>
        read_for fuel net append_crc num_blocks (i + 1)
          (out ++ [read_yield append_crc data]) (snd r)
    | None => {| yielded := out; ended := Failed TypeError; final := snd r |}
    end.
Proof.
  intros L. cbn [read_for]. rewrite L. fold fresh.
  now destruct (read_while 3 net i append_crc fresh w) as [st w'].
Qed.

(** The world after the k-th attempt at block i, counted from w. *)
Fixpoint after (net : network) (i : Z) (append_crc : bool) (k : nat)
  (w : world) : world :=
  match k with
  | O => w
  | S k' => snd (fetch_block net i append_crc (after net i append_crc k' w))
  end.

(** The k-th attempt (k = 1, 2, 3) at block i, counted from w. *)
Definition attempt (net : network) (i : Z) (append_crc : bool) (k : nat)
  (w : world) : completion Uint8Array :=
  fst (fetch_block net i append_crc (after net i append_crc (Nat.pred k) w)).

(** C1.  Reading block i takes at least one and at most three attempts,
    each one RPC call, whatever makes an attempt fail.  If the first two
    attempts throw and the third returns a block the checksum test
    accepts, the block is yielded and the loop goes on with block i + 1.
    If none of the three attempts ends with an accepted block, the
    generator throws the error naming block i and yields nothing more. *)
Theorem read_block_attempts (net : network) (append_crc : bool)
  (num_blocks : number) (i : Z) (out : list Uint8Array) (w : world)
  (fuel : nat) :
  lt (of_Z i) num_blocks = true ->
  (let r := read_while 3 net i append_crc fresh w in
   1 <= attempts (fst r) <= 3 /\
   Z.of_nat (calls (snd r)) - Z.of_nat (calls w) = attempts (fst r) /\
   forall budget, (3 <= budget)%nat ->
     read_while budget net i append_crc fresh w = r) /\
  (forall e1 e2 data,
     attempt net i append_crc 1 w = Thrown e1 ->
     attempt net i append_crc 2 w = Thrown e2 ->
     attempt net i append_crc 3 w = Returned data ->
     accepted append_crc (Returned data) = true ->
     read_for (S fuel) net append_crc num_blocks i out w
     = read_for fuel net append_crc num_blocks (i + 1)
         (out ++ [read_yield append_crc data])
         (after net i append_crc 3 w)) /\
  (accepted append_crc (attempt net i append_crc 1 w) = false ->
   accepted append_crc (attempt net i append_crc 2 w) = false ->
   accepted append_crc (attempt net i append_crc 3 w) = false ->
   read_for (S fuel) net append_crc num_blocks i out w
   = {| yielded := out; ended := Failed (FailedToReadBlock i);
        final := after net i append_crc 3 w |}).
Proof.
  intros L. split; [|split].
  - cbv zeta.
    pose proof (read_while_attempts 3 net i append_crc fresh w) as B.
    cbv zeta in B. change (attempts fresh) with 0 in B.
    specialize (B ltac:(lia)). destruct B as [B1 B2].
    split; [|split].
    + split; [|lia].
      rewrite read_while_enter by reflexivity.
      set (c := fst (fetch_block net i append_crc w)).
      pose proof (read_while_attempts 2 net i append_crc
                    (next append_crc fresh c)
                    (snd (fetch_block net i append_crc w))) as B'.
      cbv zeta in B'.
      assert (Hn : attempts (next append_crc fresh c) = 1)
        by (destruct c; reflexivity).
      rewrite Hn in B'. specialize (B' ltac:(lia)). lia.
    + lia.
    + intros budget Hb. now apply read_while_more.
  - intros e1 e2 data A1 A2 A3 Acc.
    rewrite read_for_enter by assumption. cbv zeta.
    unfold attempt in A1, A2, A3. cbn [Nat.pred after] in A1, A2, A3.
    rewrite read_while_enter by reflexivity. rewrite A1.
    rewrite read_while_enter by reflexivity.
    cbn [next fresh valid blockData attempts]. rewrite A2.
    rewrite read_while_enter by reflexivity.
    cbn [next fresh valid blockData attempts]. rewrite A3.
    cbn [accepted] in Acc. cbn [next valid blockData attempts].
    rewrite Acc. cbn [read_while fst snd valid blockData negb andb].
    reflexivity.
  - intros A1 A2 A3.
    rewrite read_for_enter by assumption. cbv zeta.
    unfold attempt in A1, A2, A3. cbn [Nat.pred after] in A1, A2, A3.
    assert (V : forall st c, valid st = false ->
                accepted append_crc c = false ->
                valid (next append_crc st c) = false).
    { intros st [data|e] Hv Hc; cbn in *; assumption. }
    assert (N : forall st c, attempts (next append_crc st c)
                             = attempts st + 1)
      by (intros st [data|e]; reflexivity).
    set (c1 := fst (fetch_block net i append_crc w)) in *.
    set (w1 := snd (fetch_block net i append_crc w)) in *.
    set (c2 := fst (fetch_block net i append_crc w1)) in *.
    set (w2 := snd (fetch_block net i append_crc w1)) in *.
    set (c3 := fst (fetch_block net i append_crc w2)) in *.
    set (s1 := next append_crc fresh c1).
    set (s2 := next append_crc s1 c2).
    set (s3 := next append_crc s2 c3).
    assert (V1 : valid s1 = false) by (apply V; [reflexivity|assumption]).
    assert (V2 : valid s2 = false) by (apply V; assumption).
    assert (V3 : valid s3 = false) by (apply V; assumption).
    assert (N1 : attempts s1 = 1) by (unfold s1; now rewrite N).
    assert (N2 : attempts s2 = 2) by (unfold s2; rewrite N; lia).
    rewrite read_while_enter by reflexivity. fold c1 w1 s1.
    rewrite read_while_enter by (rewrite V1, N1; reflexivity).
    fold c2 w2 s2.
    rewrite read_while_enter by (rewrite V2, N2; reflexivity).
    fold c3 s3.
    cbn [read_while fst snd]. rewrite V3. reflexivity.
Qed.

End ReadFacts.

(** ** Block sizes and block counts as numbers *)

Module NumberFacts.
Import JS.
Local Open Scope Z_scope.

Lemma Qis_zero_integer (q : Q) (b : Z) :
  (q == inject_Z b)%Q -> b <> 0 -> Qis_zero q = false.
Proof.
  unfold Qeq, Qis_zero, inject_Z. cbn. intros H Hb.
  apply Z.eqb_neq. intros E. rewrite E in H. lia.
Qed.

Lemma truncq_quotient (a b : Z) :
  0 <= a -> 0 < b -> truncq (inject_Z a / inject_Z b) = a / b.
Proof.
  intros Ha Hb. destruct b as [|p|p]; try lia.
  rewrite (truncq_comp _ (a # p)) by (symmetry; apply Qmake_Qdiv).
  unfold truncq.
  assert (L : Qle_bool 0 (a # p) = true).
  { apply Qle_bool_iff. unfold Qle. cbn. lia. }
  rewrite L. reflexivity.
Qed.

(** [a % size === 0] for a size whose value is the positive integer b. *)
Lemma rem_is_zero (a b : Z) (q : Q) :
  (q == inject_Z b)%Q -> 0 <= a -> 0 < b ->
  strict_eq (rem (of_Z a) (Fin q)) (of_Z 0) = (a mod b =? 0).
Proof.
  intros H Ha Hb. unfold rem, of_Z, strict_eq.
  rewrite (Qis_zero_integer q b H) by lia.
  assert (T : truncq (inject_Z a / q) = a / b).
  { rewrite (truncq_comp _ (inject_Z a / inject_Z b)) by now rewrite H.
    now apply truncq_quotient. }
  rewrite T.
  assert (E : (inject_Z a - q * inject_Z (a / b) == inject_Z (a mod b))%Q).
  { rewrite H. unfold Qminus.
    rewrite <- inject_Z_mult, <- inject_Z_opp, <- inject_Z_plus.
    apply inject_Z_injective. rewrite Z.mod_eq by lia. lia. }
  apply eq_true_iff_eq. rewrite Qeq_bool_iff, Qred_correct, Z.eqb_eq, E.
  change 0%Q with (inject_Z 0). apply inject_Z_injective.
Qed.

(** [capacity / blockSize] when blockSize divides capacity. *)
Lemma div_exact (b n : Z) :
  b <> 0 ->
  exists q, div (of_Z (b * n)) (of_Z b) = Fin q /\ (q == inject_Z n)%Q.
Proof.
  intros Hb. unfold div, of_Z.
  rewrite (Qis_zero_integer (inject_Z b) b) by (reflexivity || assumption).
  eexists. split; [reflexivity|].
  rewrite Qred_correct, inject_Z_mult.
  field. intros E. apply (inject_Z_injective b 0) in E. contradiction.
Qed.

Lemma Qis_zero_spec (q : Q) : Qis_zero q = Qeq_bool q 0.
Proof. unfold Qis_zero, Qeq_bool. cbn. now rewrite Z.mul_1_r. Qed.

(** [capacity / (capacity / blockSize)]: NaN for a capacity of 0, else a
    number whose value is blockSize. *)
Lemma div_div (capacity blockSize : Z) :
  blockSize <> 0 ->
  (capacity = 0 /\
   div (of_Z capacity) (div (of_Z capacity) (of_Z blockSize)) = NaN) \/
  (exists q,
      div (of_Z capacity) (div (of_Z capacity) (of_Z blockSize)) = Fin q /\
      (q == inject_Z blockSize)%Q).
Proof.
  intros Hb.
  assert (NZ : ~ (inject_Z blockSize == 0)%Q).
  { intros E. apply (inject_Z_injective blockSize 0) in E. contradiction. }
  assert (Inner : div (of_Z capacity) (of_Z blockSize)
                  = Fin (Qred (inject_Z capacity / inject_Z blockSize))).
  { unfold div, of_Z.
    now rewrite (Qis_zero_integer (inject_Z blockSize) blockSize)
      by (reflexivity || assumption). }
  rewrite Inner. unfold div, of_Z.
  destruct (Z.eq_dec capacity 0) as [->|Hc].
  - left. split; [reflexivity|].
    assert (Z0 : Qis_zero (Qred (inject_Z 0 / inject_Z blockSize)) = true).
    { rewrite Qis_zero_spec. apply Qeq_bool_iff.
      rewrite Qred_correct. field. exact NZ. }
    rewrite Z0. reflexivity.
  - right.
    assert (NC : ~ (inject_Z capacity == 0)%Q).
    { intros E. apply (inject_Z_injective capacity 0) in E. contradiction. }
    assert (Z0 : Qis_zero (Qred (inject_Z capacity / inject_Z blockSize))
                 = false).
    { rewrite Qis_zero_spec. apply not_true_iff_false.
      rewrite Qeq_bool_iff, Qred_correct. intros E. apply NC.
      rewrite <- (Qmult_div_r (inject_Z capacity) (inject_Z blockSize))
        by exact NZ.
      rewrite E. ring. }
    rewrite Z0. eexists. split; [reflexivity|].
    rewrite !Qred_correct. field. split; assumption.
Qed.

(** [i < num_blocks] for a count whose value is the integer n. *)
Lemma lt_integer (i n : Z) (q : Q) :
  (q == inject_Z n)%Q -> lt (of_Z i) (Fin q) = (i <? n).
Proof.
  intros H. unfold lt, of_Z.
  apply eq_true_iff_eq. rewrite negb_true_iff, Z.ltb_lt.
  rewrite <- not_true_iff_false, Qle_bool_iff, H, <- Zle_Qle. lia.
Qed.

Lemma strict_eq_integer (n : Z) (q : Q) :
  (q == inject_Z n)%Q -> strict_eq (Fin q) (of_Z n) = true.
Proof. intros H. unfold strict_eq, of_Z. now apply Qeq_bool_iff. Qed.

End NumberFacts.

(** ** programmer.js: requests on the wire *)

Module WireFacts.
Import JS Transfer.
Local Open Scope string_scope.
Local Open Scope list_scope.
Local Open Scope Z_scope.

(** Request ids handed out so far do not exceed [rpcId]. *)
Definition fresh_ids (w : world) : Prop :=
  Forall (fun r => req_id r <= rpcId w) (sent w).

(** The parameterless request that goes out next. *)
Definition query (w : world) (method : string) : request :=
  {| req_id := rpcId w + 1; req_method := method; req_params := [] |}.

(** The world once that request has gone out. *)
Definition after_query (w : world) (method : string) : world :=
  {| rpcId := rpcId w + 1; calls := S (calls w);
     sent := sent w ++ [query w method] |}.

Lemma fresh_ids_initial : fresh_ids initial.
Proof. constructor. Qed.

Lemma find_new (l : list request) (new : request) (bound : Z) :
  Forall (fun r => req_id r <= bound) l ->
  req_id new = bound + 1 ->
  find (fun r => req_id r =? bound + 1) (l ++ [new]) = Some new.
Proof.
  intros H E. induction H as [|r l Hr _ IH]; cbn [app find].
  - rewrite E, Z.eqb_refl. reflexivity.
  - destruct (Z.eqb_spec (req_id r) (bound + 1)); [lia|exact IH].
Qed.

Lemma RPCCall_up net method params w :
  link_up net (calls w) = true ->
  RPCCall net method params w =
  (Returned (rpcId w + 1),
   {| rpcId := rpcId w + 1; calls := S (calls w);
      sent := sent w ++ [{| req_id := rpcId w + 1; req_method := method;
                            req_params := params |}] |}).
Proof. intros H. unfold RPCCall. now rewrite H. Qed.

(** A call with no params that is answered. *)
Lemma answered_query (A : Type) net method (answer : request -> reply A)
  (a : A) w :
  fresh_ids w ->
  link_up net (calls w) = true ->
  answer (query w method) = Result a ->
  (id <- RPCCall net method [] ;; getRPCResponse_result answer id) w =
  (Returned a,
   {| rpcId := rpcId w + 1; calls := S (calls w);
      sent := sent w ++ [query w method] |}).
Proof.
  intros F L R. unfold bind. rewrite RPCCall_up by assumption.
  unfold getRPCResponse_result. cbn [sent].
  fold (query w method).
  rewrite (find_new (sent w) (query w method) (rpcId w)) by (auto; reflexivity).
  now rewrite R.
Qed.

(** A call that returned has put exactly its request on the wire. *)
Lemma returned_query (A : Type) net method params
  (answer : request -> reply A) (a : A) w w' :
  (id <- RPCCall net method params ;; getRPCResponse_result answer id) w
  = (Returned a, w') ->
  sent w' = sent w ++ [{| req_id := rpcId w + 1; req_method := method;
                          req_params := params |}].
Proof.
  unfold bind, RPCCall.
  destruct (link_up net (calls w)); [|discriminate].
  unfold getRPCResponse_result. cbn [sent].
  destruct (find _ _) as [r|]; [|discriminate].
  destruct (answer r); try discriminate.
  intros E. injection E as _ <-. reflexivity.
Qed.

End WireFacts.

(** ** programmer.js: how many blocks are read *)

Module CountFacts.
Import JS Transfer ReadFacts WireFacts NumberFacts.
Local Open Scope string_scope.
Local Open Scope list_scope.
Local Open Scope Z_scope.

(** The three block-count functions differ in the method they call. *)
Definition count_via (net : network) (parts : list chip)
  (chipName method : string) : M number :=
  match find_chip parts chipName with
  | None => throw (ChipNotFound chipName)
  | Some chip =>
      id <- RPCCall net method [] ;;
      blockSize <- getRPCResponse_result (size_reply net) id ;;
      ret (div (of_Z (capacity chip)) (of_Z blockSize))
  end.

Lemma getNumberOfBlocksForChip_read net parts chipName :
  Programmer.getNumberOfBlocksForChip net parts chipName true
  = count_via net parts chipName "get_read_block_size".
Proof. reflexivity. Qed.

Lemma getNumberOfTransmitPackets_via net parts chipName :
  ProgrammerPackets.getNumberOfTransmitPackets net parts chipName
  = count_via net parts chipName "get_transmit_packet_size".
Proof. reflexivity. Qed.

Lemma getNumberOfReceivePackets_via net parts chipName :
  ProgrammerPackets.getNumberOfReceivePackets net parts chipName
  = count_via net parts chipName "get_receive_packet_size".
Proof. reflexivity. Qed.

Lemma count_via_answered net parts chipName method chip blockSize w :
  fresh_ids w ->
  find_chip parts chipName = Some chip ->
  link_up net (calls w) = true ->
  size_reply net (query w method) = Result blockSize ->
  count_via net parts chipName method w =
  (Returned (div (of_Z (capacity chip)) (of_Z blockSize)),
   {| rpcId := rpcId w + 1; calls := S (calls w);
      sent := sent w ++ [query w method] |}).
Proof.
  intros F C L R. unfold count_via. rewrite C.
  pose proof (answered_query Z net method (size_reply net) blockSize w F L R)
    as E.
  unfold bind in *. 
  destruct (RPCCall net method [] w) as [[id|e] w1]; [|discriminate].
  rewrite E. reflexivity.
Qed.

(** A first attempt that is accepted ends the [while]. *)
Lemma read_while_first_accepted net i append_crc w :
  accepted append_crc (fst (fetch_block net i append_crc w)) = true ->
  exists data,
    fst (fetch_block net i append_crc w) = Returned data /\
    read_while 3 net i append_crc fresh w
    = ({| valid := true; blockData := Some data; attempts := 1 |},
       snd (fetch_block net i append_crc w)).
Proof.
  intros A. rewrite read_while_enter by reflexivity.
  destruct (fst (fetch_block net i append_crc w)) as [data|e];
    [|discriminate].
  exists data. split; [reflexivity|].
  cbn [accepted] in A. cbn [next fresh attempts]. rewrite A.
  reflexivity.
Qed.

(** With every first attempt accepted, the loop yields one block per
    index below the count and then ends. *)
Lemma read_for_all_accepted net append_crc num n :
  (forall i, lt (of_Z i) num = (i <? n)) ->
  (forall i w,
      accepted append_crc (fst (fetch_block net i append_crc w)) = true) ->
  forall (k : nat) fuel i out w,
    i + Z.of_nat k = n ->
    (k < fuel)%nat ->
    let r := read_for fuel net append_crc num i out w in
    ended r = Done /\ length (yielded r) = (length out + k)%nat.
Proof.
  intros Hlt Hacc. induction k as [|k IH]; intros fuel i out w Hi Hf;
    (destruct fuel as [|fuel]; [lia|]); cbv zeta.
  - cbn [read_for]. rewrite Hlt.
    destruct (Z.ltb_spec i n); [lia|]. cbn. split; [reflexivity|lia].
  - rewrite read_for_enter by (rewrite Hlt; apply Z.ltb_lt; lia).
    cbv zeta.
    destruct (read_while_first_accepted net i append_crc w (Hacc i w))
      as (data & _ & ->).
    cbn [fst snd valid blockData negb].
    specialize (IH fuel (i + 1) (out ++ [read_yield append_crc data])
                  (snd (fetch_block net i append_crc w))).
    cbv zeta in IH. rewrite length_app in IH. cbn [length] in IH.
    destruct IH as [E1 E2]; [lia|lia|].
    split; [exact E1 | lia].
Qed.

Lemma read_blocks_count net append_crc parts chipName method chip
  blockSize n fuel w :
  fresh_ids w ->
  find_chip parts chipName = Some chip ->
  link_up net (calls w) = true ->
  size_reply net (query w method) = Result blockSize ->
  blockSize <> 0 ->
  capacity chip = blockSize * n ->
  exists num w',
    count_via net parts chipName method w = (Returned num, w') /\
    sent w' = sent w ++ [query w method] /\
    strict_eq num (of_Z (capacity chip / blockSize)) = true /\
    (forall i, lt (of_Z i) num = (i <? capacity chip / blockSize)) /\
    read_blocks fuel net append_crc (count_via net parts chipName method) w
    = read_for fuel net append_crc num 0 [] w' /\
    ((forall i w,
         accepted append_crc (fst (fetch_block net i append_crc w)) = true) ->
     0 <= n -> (Z.to_nat n < fuel)%nat ->
     let r := read_blocks fuel net append_crc
                (count_via net parts chipName method) w in
     ended r = Done /\
     Z.of_nat (length (yielded r)) = capacity chip / blockSize).
Proof.
  intros F C L R Hb Hcap.
  pose proof (count_via_answered net parts chipName method chip blockSize w
                F C L R) as E.
  destruct (div_exact blockSize n Hb) as (q & Hq & Hqn).
  rewrite <- Hcap in Hq. rewrite Hq in E.
  assert (Hn : capacity chip / blockSize = n).
  { rewrite Hcap, Z.mul_comm. now apply Z.div_mul. }
  rewrite Hn.
  eexists. eexists. split; [exact E|].
  split; [reflexivity|].
  split; [now apply strict_eq_integer|].
  split; [intros i; now apply lt_integer|].
  unfold read_blocks. rewrite E. split; [reflexivity|].
  intros Hacc Hn0 Hfuel. cbv zeta.
  pose proof (read_for_all_accepted net append_crc (Fin q) n
                (fun i => lt_integer i n q Hqn) Hacc (Z.to_nat n) fuel 0 []
                {| rpcId := rpcId w + 1; calls := S (calls w);
                   sent := sent w ++ [query w method] |}) as H.
  cbv zeta in H. destruct H as [H1 H2]; [lia|assumption|].
  split; [exact H1|]. rewrite H2. cbn [length]. lia.
Qed.

(** C6.  [readChipBlocks] asks the device for the read block size
    (get_read_block_size in one copy of programmer.js,
    get_transmit_packet_size in the other) and, when that size divides
    the chip's catalog capacity, reads capacity / size blocks: the loop
    bound is that quotient, and a run in which every block is accepted at
    once yields exactly that many blocks. *)
Theorem read_block_count (net : network) (append_crc : bool)
  (parts : list chip) (chipName : string) (chip : chip)
  (blockSize n : Z) (fuel : nat) (w : world) (method : string) :
  fresh_ids w ->
  find_chip parts chipName = Some chip ->
  link_up net (calls w) = true ->
  size_reply net (query w method) = Result blockSize ->
  blockSize <> 0 ->
  capacity chip = blockSize * n ->
  forall readChipBlocks,
  (method = "get_read_block_size" /\
   readChipBlocks = Programmer.readChipBlocks) \/
  (method = "get_transmit_packet_size" /\
   readChipBlocks = ProgrammerPackets.readChipBlocks) ->
  exists num w',
    sent w' = sent w ++ [query w method] /\
    strict_eq num (of_Z (capacity chip / blockSize)) = true /\
    (forall i, lt (of_Z i) num = (i <? capacity chip / blockSize)) /\
    readChipBlocks fuel net parts chipName append_crc w
    = read_for fuel net append_crc num 0 [] w' /\
    ((forall i w,
         accepted append_crc (fst (fetch_block net i append_crc w)) = true) ->
     0 <= n -> (Z.to_nat n < fuel)%nat ->
     let r := readChipBlocks fuel net parts chipName append_crc w in
     ended r = Done /\
     Z.of_nat (length (yielded r)) = capacity chip / blockSize).
Proof.
  intros F C L R Hb Hcap readChipBlocks Hcopy.
  destruct (read_blocks_count net append_crc parts chipName method chip
              blockSize n fuel w F C L R Hb Hcap)
    as (num & w' & _ & H1 & H2 & H3 & H4 & H5).
  exists num, w'.
  destruct Hcopy as [[-> ->] | [-> ->]];
    (split; [exact H1|]; split; [exact H2|]; split; [exact H3|];
     split; [exact H4 | exact H5]).
Qed.

End CountFacts.

(** ** programmer.js: the write path *)

Module WriteFacts.
Import JS Transfer WireFacts NumberFacts CountFacts.
Local Open Scope string_scope.
Local Open Scope list_scope.
Local Open Scope Z_scope.

(** [w'] comes from [w] by sending requests that all satisfy P. *)
Definition extends (P : request -> Prop) (w w' : world) : Prop :=
  exists new, sent w' = sent w ++ new /\ Forall P new.

Lemma extends_same P w w' : sent w' = sent w -> extends P w w'.
Proof.
  intros E. exists []. split; [now rewrite app_nil_r | constructor].
Qed.

Lemma extends_refl P w : extends P w w.
Proof. now apply extends_same. Qed.

Lemma extends_trans P w1 w2 w3 :
  extends P w1 w2 -> extends P w2 w3 -> extends P w1 w3.
Proof.
  intros (n1 & E1 & F1) (n2 & E2 & F2). exists (n1 ++ n2). split.
  - now rewrite E2, E1, app_assoc.
  - apply Forall_app. now split.
Qed.

Lemma RPCCall_extends (P : request -> Prop) net method params w :
  (forall id, P {| req_id := id; req_method := method;
                   req_params := params |}) ->
  extends P w (snd (RPCCall net method params w)).
Proof.
  intros H. unfold RPCCall. destruct (link_up net (calls w)); cbn [snd].
  - eexists. split; [reflexivity|]. repeat constructor. apply H.
  - now apply extends_same.
Qed.

Lemma call_extends (A : Type) (P : request -> Prop) net method params
  (answer : request -> reply A) w :
  (forall id, P {| req_id := id; req_method := method;
                   req_params := params |}) ->
  extends P w
    (snd ((id <- RPCCall net method params ;;
           getRPCResponse_result answer id) w)).
Proof.
  intros H. pose proof (RPCCall_extends P net method params w H) as E.
  unfold bind. destruct (RPCCall net method params w) as [[id|e] w1];
    cbn [snd] in *; [|exact E].
  pose proof (ReadFacts.getRPCResponse_result_world A answer id w1) as G.
  destruct (getRPCResponse_result answer id w1) as [c w2].
  cbn [snd] in G. subst w2. destruct c; exact E.
Qed.

Lemma write_while_extends (P : request -> Prop) net params blockData :
  (forall id, P {| req_id := id; req_method := "programmer_write_block";
                   req_params := params (write_crc blockData) |}) ->
  forall budget written attempts w,
    extends P w
      (snd (write_while budget net params blockData written attempts w)).
Proof.
  intros H. induction budget as [|budget IH]; intros written attempts w.
  - apply extends_refl.
  - cbn [write_while].
    destruct (negb written && (attempts <? 3)); [|apply extends_refl].
    pose proof (call_extends Z P net "programmer_write_block"
                  (params (write_crc blockData)) (write_reply net) w H) as E.
    destruct ((rpcId <- RPCCall net "programmer_write_block"
                          (params (write_crc blockData)) ;;
               getRPCResponse_result (write_reply net) rpcId) w)
      as [[a|e] w1]; cbn [snd] in E;
      (eapply extends_trans; [exact E | apply IH]).
Qed.

(** A budget of 3 never cuts the write loop short. *)
Lemma write_while_budget net params blockData :
  forall budget written attempts w,
    0 <= attempts ->
    (Z.to_nat (3 - attempts) <= budget)%nat ->
    write_while (S budget) net params blockData written attempts w
    = write_while budget net params blockData written attempts w.
Proof.
  induction budget as [|budget IH]; intros written attempts w H0 H.
  - cbn [write_while].
    destruct (Z.ltb_spec attempts 3); [lia|].
    now rewrite andb_false_r.
  - change (write_while (S (S budget)) net params blockData written
              attempts w)
      with (if negb written && (attempts <? 3) then
              match (rpcId <- RPCCall net "programmer_write_block"
                                (params (write_crc blockData)) ;;
                     getRPCResponse_result (write_reply net) rpcId) w with
              | (Returned _, w') =>
                  write_while (S budget) net params blockData true
                    (attempts + 1) w'
              | (Thrown _, w') =>
                  write_while (S budget) net params blockData written
                    (attempts + 1) w'
              end
            else (written, w)).
    cbn [write_while] in IH |- *.
    destruct (negb written && (attempts <? 3)) eqn:G; [|reflexivity].
    apply andb_prop in G. destruct G as [_ G]. apply Z.ltb_lt in G.
    destruct ((rpcId <- RPCCall net "programmer_write_block"
                          (params (write_crc blockData)) ;;
               getRPCResponse_result (write_reply net) rpcId) w)
      as [[a|e] w1]; apply IH; lia.
Qed.

Lemma write_while_more net params blockData w budget :
  (3 <= budget)%nat ->
  write_while budget net params blockData false 0 w
  = write_while 3 net params blockData false 0 w.
Proof.
  induction 1 as [|budget Hle IH]; [reflexivity|].
  rewrite write_while_budget; [exact IH | lia | cbn; lia].
Qed.

(** The block the write loop cuts out for an index. *)
Definition block_at (fileData : Uint8Array) (BLOCK_SIZE : number)
  (blockId : Z) : Uint8Array :=
  slice fileData (mul (of_Z blockId) BLOCK_SIZE)
    (add (mul (of_Z blockId) BLOCK_SIZE) BLOCK_SIZE).

(** A programmer_write_block request built by [params] for some block
    of the file. *)
Definition writes_block
  (params : Z -> DOMString -> Z -> list (string * param))
  (fileData : Uint8Array) (BLOCK_SIZE : number) (r : request) : Prop :=
  req_method r = "programmer_write_block" /\
  exists blockId blockDataB64,
    Utils.uint8ArrayToBase64 (block_at fileData BLOCK_SIZE blockId)
    = Some blockDataB64 /\
    req_params r
    = params blockId blockDataB64
        (write_crc (block_at fileData BLOCK_SIZE blockId)).

Lemma write_for_extends net params fileData BLOCK_SIZE numBlocks :
  forall fuel blockId out w,
    extends (writes_block params fileData BLOCK_SIZE) w
      (final (write_for fuel net params fileData BLOCK_SIZE numBlocks
                blockId out w)).
Proof.
  induction fuel as [|fuel IH]; intros blockId out w.
  - apply extends_refl.
  - cbn [write_for].
    destruct (lt (of_Z blockId) numBlocks); [|apply extends_refl].
    fold (block_at fileData BLOCK_SIZE blockId).
    destruct (Utils.uint8ArrayToBase64 (block_at fileData BLOCK_SIZE blockId))
      as [b64|] eqn:E64; [|apply extends_refl].
    pose proof (write_while_extends
                  (writes_block params fileData BLOCK_SIZE) net
                  (params blockId b64) (block_at fileData BLOCK_SIZE blockId))
      as W.
    specialize (W ltac:(intros id; split; [reflexivity|];
                        exists blockId, b64; now split) 3%nat false 0 w).
    destruct (write_while 3 net (params blockId b64)
                (block_at fileData BLOCK_SIZE blockId) false 0 w)
      as [written w1].
    cbn [snd] in W. destruct written; cbn [negb final].
    + eapply extends_trans; [exact W | apply IH].
    + exact W.
Qed.

Lemma length_not_multiple (len blockSize n r : Z) :
  0 <= len -> len = blockSize * n + r -> 0 < r < blockSize ->
  negb (strict_eq (rem (of_Z len) (of_Z blockSize)) (of_Z 0)) = true.
Proof.
  intros Hlen E Hr. unfold of_Z at 2.
  rewrite (rem_is_zero len blockSize (inject_Z blockSize))
    by (reflexivity || lia).
  apply negb_true_iff, Z.eqb_neq.
  rewrite E, Z.add_comm, Z.mul_comm, Z.mod_add by lia.
  rewrite Z.mod_small; lia.
Qed.

Lemma programmer_write_rejects fuel net parts chipName fileData w
  blockSize n r :
  fresh_ids w ->
  link_up net (calls w) = true ->
  size_reply net (query w "get_write_block_size") = Result blockSize ->
  Z.of_nat (length fileData) = blockSize * n + r ->
  0 < r < blockSize ->
  Programmer.writeChipBlocks fuel net parts chipName fileData w
  = {| yielded := [];
       ended := Failed (DataLengthNotMultiple (Z.of_nat (length fileData))
                          (of_Z blockSize));
       final := after_query w "get_write_block_size" |}.
Proof.
  intros F L R E Hr.
  unfold Programmer.writeChipBlocks, Programmer.getBlockSize.
  rewrite (answered_query Z net "get_write_block_size" (size_reply net)
             blockSize w F L R).
  now rewrite (length_not_multiple _ blockSize n r) by (lia || assumption).
Qed.

Lemma packets_write_rejects fuel net parts chipName CHIP fileData w
  blockSize n r :
  fresh_ids w ->
  link_up net (calls w) = true ->
  size_reply net (query w "get_receive_packet_size") = Result blockSize ->
  Z.of_nat (length fileData) = blockSize * n + r ->
  0 < r < blockSize ->
  find_chip parts chipName = Some CHIP ->
  exists BLOCK_SIZE,
    ProgrammerPackets.writeChipBlocks fuel net parts chipName fileData w
    = {| yielded := [];
         ended := Failed (DataLengthNotMultiple (Z.of_nat (length fileData))
                            BLOCK_SIZE);
         final := after_query w "get_receive_packet_size" |}.
Proof.
  intros F L R E Hr C.
  unfold ProgrammerPackets.writeChipBlocks. rewrite C.
  rewrite getNumberOfReceivePackets_via.
  rewrite (count_via_answered net parts chipName "get_receive_packet_size"
             CHIP blockSize w F C L R).
  cbv zeta.
  destruct (div_div (capacity CHIP) blockSize ltac:(lia))
    as [[_ ->] | (q & -> & Hq)].
  - eexists. reflexivity.
  - rewrite (rem_is_zero (Z.of_nat (length fileData)) blockSize q)
      by (assumption || lia).
    assert (M : (Z.of_nat (length fileData) mod blockSize =? 0) = false).
    { apply Z.eqb_neq.
      rewrite E, Z.add_comm, Z.mul_comm, Z.mod_add by lia.
      rewrite Z.mod_small; lia. }
    rewrite M. eexists. reflexivity.
Qed.

(** C3, as amended.  When the buffer length is blockSize * n + r with
    0 < r < blockSize, blockSize being what the device answers to the
    write block-size query, [writeChipBlocks] makes that one RPC call and
    then fails with the length error: it yields nothing and no
    programmer_write_block call goes out.  This holds for both copies
    of programmer.js (the second needs the chip to be in the catalog,
    since it reads the capacity first). *)
Theorem write_rejects_partial_block (fuel : nat) (net : network)
  (parts : list chip) (chipName : string) (fileData : Uint8Array)
  (w : world) (blockSize n r : Z) (method : string) :
  fresh_ids w ->
  link_up net (calls w) = true ->
  size_reply net (query w method) = Result blockSize ->
  Z.of_nat (length fileData) = blockSize * n + r ->
  0 < r < blockSize ->
  forall writeChipBlocks,
  (method = "get_write_block_size" /\
   writeChipBlocks = Programmer.writeChipBlocks) \/
  (method = "get_receive_packet_size" /\
   writeChipBlocks = ProgrammerPackets.writeChipBlocks /\
   exists CHIP, find_chip parts chipName = Some CHIP) ->
  exists BLOCK_SIZE,
    let run := writeChipBlocks fuel net parts chipName fileData w in
    yielded run = [] /\
    ended run = Failed (DataLengthNotMultiple (Z.of_nat (length fileData))
                          BLOCK_SIZE) /\
    sent (final run) = sent w ++ [query w method].
Proof.
  intros F L R E Hr writeChipBlocks [[-> ->] | (-> & -> & CHIP & C)].
  - exists (of_Z blockSize). cbv zeta.
    rewrite (programmer_write_rejects fuel net parts chipName fileData w
               blockSize n r) by assumption.
    repeat split.
  - destruct (packets_write_rejects fuel net parts chipName CHIP fileData w
                blockSize n r F L R E Hr C) as [BLOCK_SIZE H].
    exists BLOCK_SIZE. cbv zeta. rewrite H. repeat split.
Qed.

Lemma extends_weaken (P Q : request -> Prop) w w' :
  (forall r, P r -> Q r) -> extends P w w' -> extends Q w w'.
Proof.
  intros H (new & E & F). exists new. split; [exact E|].
  eapply Forall_impl; [exact H | exact F].
Qed.

Lemma getBlockSize_extends net w :
  extends (fun r => req_method r = "get_write_block_size") w
    (snd (Programmer.getBlockSize net false w)).
Proof.
  unfold Programmer.getBlockSize.
  pose proof (call_extends Z (fun r => req_method r = "get_write_block_size")
                net "get_write_block_size" [] (size_reply net) w
                (fun _ => eq_refl)) as E.
  destruct ((rpcIdBlockSize <- RPCCall net "get_write_block_size" [] ;;
             getRPCResponse_result (size_reply net) rpcIdBlockSize) w)
    as [[a|e] w1]; exact E.
Qed.

(** What a programmer_write_block request of [Programmer.writeChipBlocks]
    carries: the block id, the page size of the chip's catalog entry,
    the base64 text of the block and the block's additive checksum. *)
Definition carries_page_size (parts : list chip) (chipName : string)
  (fileData : Uint8Array) (r : request) : Prop :=
  exists chip blockSize blockId blockDataB64,
    find_chip parts chipName = Some chip /\
    Utils.uint8ArrayToBase64 (block_at fileData (of_Z blockSize) blockId)
    = Some blockDataB64 /\
    req_params r
    = [("block_id", PNum blockId);
       ("chip_page_size", PNum (page_size chip));
       ("data", PStr blockDataB64);
       ("crc", PNum (write_crc (block_at fileData (of_Z blockSize) blockId)))].

(** C7, as amended.  In the copy of programmer.js whose [writeChipBlocks]
    looks up the chip's page_size, every programmer_write_block request
    the generator sends carries that page size as chip_page_size, next
    to the block id, the base64 payload and the additive checksum. *)
Theorem write_calls_carry_page_size (fuel : nat) (net : network)
  (parts : list chip) (chipName : string) (fileData : Uint8Array)
  (w : world) :
  exists new,
    sent (final (Programmer.writeChipBlocks fuel net parts chipName
                   fileData w)) = sent w ++ new /\
    Forall (fun r => req_method r = "programmer_write_block" ->
                     carries_page_size parts chipName fileData r) new.
Proof.
  change (extends (fun r => req_method r = "programmer_write_block" ->
                            carries_page_size parts chipName fileData r) w
            (final (Programmer.writeChipBlocks fuel net parts chipName
                      fileData w))).
  pose proof (getBlockSize_extends net w) as E0.
  assert (E : extends
                (fun r => req_method r = "programmer_write_block" ->
                          carries_page_size parts chipName fileData r) w
                (snd (Programmer.getBlockSize net false w))).
  { eapply extends_weaken; [|exact E0].
    intros r -> Hm. discriminate. }
  unfold Programmer.writeChipBlocks.
  destruct (Programmer.getBlockSize net false w) as [[blockSize|e] w1];
    cbn [snd] in E; [|exact E].
  destruct (negb (strict_eq _ _)); [exact E|].
  destruct (find_chip parts chipName) as [chip|] eqn:C; [|exact E].
  eapply extends_trans; [exact E|].
  eapply extends_weaken; [|apply write_for_extends].
  intros r (_ & blockId & b64 & H64 & Hp) _.
  exists chip, blockSize, blockId, b64. now split.
Qed.

End WriteFacts.

(** ** Runs against concrete devices *)

Module Scenarios.
Import JS Transfer ReadFacts WireFacts CountFacts WriteFacts.
Local Open Scope string_scope.
Local Open Scope list_scope.
Local Open Scope Z_scope.

Definition tiny : chip :=
  {| model := "TINY4"; jdec_id := "0x000004"; capacity := 4;
     page_size := 2; manufacturer_name := "Bench" |}.

Definition catalog : list chip :=
  [ {| model := "W25Q32"; jdec_id := "0xef4016"; capacity := 4194304;
       page_size := 256; manufacturer_name := "Winbond" |};
    tiny ].

(** "AQE=": the bytes 1, 1 (payload 1, checksum 1).
    "AQI=": the bytes 1, 2 (payload 1, checksum off by one). *)
Definition AQE : DOMString := [65; 81; 69; 61].
Definition AQI : DOMString := [65; 81; 73; 61].

(** A device that answers everything: blocks of 2 bytes, every block
    read as "AQE=", erase never done. *)
Definition steady : network :=
  {| link_up := fun _ => true;
     size_reply := fun _ => Result 2;
     read_reply := fun _ => Result AQE;
     write_reply := fun _ => Result 0;
     erase_start_reply := fun _ => Result (Bool true);
     erase_done_reply := fun _ => Result false |}.

(** The first call cannot connect and the request with id 1 is never
    answered; after that the device answers like [steady]. *)
Definition flaky : network :=
  {| link_up := fun k => negb (k =? 0)%nat;
     size_reply := fun _ => Result 2;
     read_reply := fun r => if req_id r =? 1 then NoResponse else Result AQE;
     write_reply := fun _ => Result 0;
     erase_start_reply := fun _ => Result (Bool true);
     erase_done_reply := fun _ => Result false |}.

(** Every block arrives with its last byte corrupted. *)
Definition corrupting : network :=
  {| link_up := fun _ => true;
     size_reply := fun _ => Result 2;
     read_reply := fun _ => Result AQI;
     write_reply := fun _ => Result 0;
     erase_start_reply := fun _ => Result (Bool true);
     erase_done_reply := fun _ => Result false |}.

Lemma read_block_attempts_witness :
  lt (of_Z 0) (of_Z 1) = true /\
  yielded (read_for 2 flaky true (of_Z 1) 0 [] initial) = [[1]] /\
  ended (read_for 2 flaky true (of_Z 1) 0 [] initial) = Done /\
  read_for 2 corrupting true (of_Z 1) 0 [] initial
  = {| yielded := [];
       ended := Failed (FailedToReadBlock 0);
       final := after corrupting 0 true 3 initial |}.
Proof.
  assert (L : lt (of_Z 0) (of_Z 1) = true) by reflexivity.
  split; [exact L|].
  destruct (read_block_attempts flaky true (of_Z 1) 0 [] initial 1 L)
    as [_ [Third _]].
  destruct (read_block_attempts corrupting true (of_Z 1) 0 [] initial 1 L)
    as [_ [_ Exhausted]].
  rewrite (Third ConnectError (TimeoutWaiting 1) [1; 1]
             eq_refl eq_refl eq_refl eq_refl).
  split; [reflexivity|]. split; [reflexivity|].
  exact (Exhausted eq_refl eq_refl eq_refl).
Defined.

Lemma find_some_new (l : list request) (new : request) (id : Z) :
  req_id new = id ->
  exists r, find (fun r => req_id r =? id) (l ++ [new]) = Some r.
Proof.
  intros E. induction l as [|r l IH]; cbn [app find].
  - rewrite E, Z.eqb_refl. now exists new.
  - destruct (req_id r =? id); [now exists r | exact IH].
Qed.

Lemma steady_accepts i w :
  accepted true (fst (fetch_block steady i true w)) = true.
Proof.
  unfold fetch_block, bind, RPCCall. cbn [link_up steady].
  unfold getRPCResponse_result. cbn [sent].
  destruct (find_some_new (sent w)
              {| req_id := rpcId w + 1;
                 req_method := "programmer_read_block";
                 req_params := [("block_id", PNum i);
                                ("append_crc", PBool true)] |}
              (rpcId w + 1) eq_refl) as [r ->].
  reflexivity.
Qed.

Lemma read_block_count_witness :
  ended (Programmer.readChipBlocks 5 steady catalog "TINY4" true initial)
  = Done /\
  Z.of_nat (length (yielded (Programmer.readChipBlocks 5 steady catalog
                               "TINY4" true initial))) = 4 / 2.
Proof.
  destruct (read_block_count steady true catalog "TINY4" tiny 2 2 5 initial
              "get_read_block_size" fresh_ids_initial eq_refl eq_refl
              eq_refl ltac:(discriminate) eq_refl
              Programmer.readChipBlocks (or_introl (conj eq_refl eq_refl)))
    as (num & w' & _ & _ & _ & _ & Run).
  apply Run; [exact steady_accepts | lia | cbn; lia].
Defined.

Lemma write_rejects_partial_block_witness :
  exists BLOCK_SIZE,
    let run := Programmer.writeChipBlocks 5 steady catalog "TINY4"
                 [1; 2; 3] initial in
    yielded run = [] /\
    ended run = Failed (DataLengthNotMultiple 3 BLOCK_SIZE) /\
    sent (final run)
    = sent initial ++ [query initial "get_write_block_size"].
Proof.
  exact (write_rejects_partial_block 5 steady catalog "TINY4" [1; 2; 3]
           initial 2 1 1 "get_write_block_size" fresh_ids_initial
           eq_refl eq_refl eq_refl ltac:(lia)
           Programmer.writeChipBlocks (or_introl (conj eq_refl eq_refl))).
Defined.

(** C3 as stated fails: a 3-byte buffer against a block size of 2
    (3 = 2 * 1 + 1) is turned down with the length error, but by then
    the request for the write block size has gone out. *)
Lemma write_length_check_follows_size_query :
  Z.of_nat (length [1; 2; 3]) = 2 * 1 + 1 /\
  0 < 1 < 2 /\
  ended (Programmer.writeChipBlocks 5 steady catalog "TINY4" [1; 2; 3]
           initial)
  = Failed (DataLengthNotMultiple 3 (of_Z 2)) /\
  sent (final (Programmer.writeChipBlocks 5 steady catalog "TINY4"
                 [1; 2; 3] initial))
  = [{| req_id := 1; req_method := "get_write_block_size";
        req_params := [] |}] /\
  sent (final (Programmer.writeChipBlocks 5 steady catalog "TINY4"
                 [1; 2; 3] initial)) <> sent initial.
Proof.
  split; [reflexivity|]. split; [lia|]. split; [reflexivity|].
  split; [reflexivity|]. discriminate.
Qed.

(** The value a params object holds under a key. *)
Fixpoint param_of (params : list (string * param)) (key : string)
  : option param :=
  match params with
  | [] => None
  | (k, v) :: rest => if String.eqb k key then Some v else param_of rest key
  end.

(** C7 as stated fails: the copy of [writeChipBlocks] built on
    getNumberOfReceivePackets sends programmer_write_block with block_id,
    data and crc only; the second request of this run is such a call. *)
Lemma packets_write_omits_page_size :
  nth_error
    (sent (final (ProgrammerPackets.writeChipBlocks 5 steady catalog "TINY4"
                    [1; 2; 3; 4] initial))) 1
  = Some {| req_id := 2; req_method := "programmer_write_block";
            req_params := [("block_id", PNum 0);
                           ("data", PStr [65; 81; 73; 61]);
                           ("crc", PNum 3)] |} /\
  param_of [("block_id", PNum 0); ("data", PStr [65; 81; 73; 61]);
            ("crc", PNum 3)] "chip_page_size" = None.
Proof. split; reflexivity. Qed.

End Scenarios.

(** ** dom_manager.js: the erase button *)

Module DomManagerFacts.
Import JS Transfer DomManager.
Local Open Scope string_scope.
Local Open Scope list_scope.
Local Open Scope Z_scope.

Lemma erase_wait_once fuel net pg :
  erase_wait (S fuel) net pg =
  Some {| effects := effects pg;
          done_queries :=
            done_queries pg
            ++ [fst (call_async (getEraseDone net) (net_state pg))];
          net_state := snd (call_async (getEraseDone net) (net_state pg)) |}.
Proof.
  cbn [erase_wait].
  now destruct (call_async (getEraseDone net) (net_state pg)) as [p w'].
Qed.

(** C5.  The click handler of the erase button does not wait for a true
    answer: [getEraseDone] is called without [await], so the loop
    condition negates a promise, which is truthy, and the body never
    runs.  Whatever the device answers, the handler issues one
    programmer_erase_done query, never sleeps, and sets the bar to 100%.
    Against a device whose done-query answers false, the only query it
    made settles with false. *)
Theorem erase_click_does_not_wait (fuel : nat) (net : network) (w : world) :
  (exists pg,
      erase_click (S fuel) net w = Some pg /\
      effects pg
      = [LogSet "Erasing..."; ProgressWidth 1; ProgressWidth 100] /\
      length (done_queries pg) = 1%nat) /\
  (exists pg,
      erase_click (S fuel) Scenarios.steady initial = Some pg /\
      done_queries pg = [{| settles_with := Returned false |}] /\
      ~ In (SetTimeout 1000) (effects pg)).
Proof.
  split.
  - unfold erase_click.
    destruct (call_async (startEraseChip net) w) as [p0 w1].
    rewrite erase_wait_once. eexists. split; [reflexivity|].
    split; reflexivity.
  - eexists. split; [reflexivity|]. split; [reflexivity|].
    cbn. intros [H | [H | [H | []]]]; discriminate.
Qed.

End DomManagerFacts.

(* ================================================================== *)
(** * Further properties of the code *)

From Stdlib Require Import Permutation.

(** ** What the additive checksum catches and what it lets through *)

Module ChecksumFacts.
Import JS Transfer UtilsFacts.
Local Open Scope list_scope.
Local Open Scope Z_scope.

Lemma crc_matches_snoc (p : Uint8Array) (c : Z) :
  crc_matches (p ++ [c]) = (c =? write_crc p).
Proof.
  unfold crc_matches, write_crc.
  now rewrite last_element_snoc, without_last_removelast, removelast_last.
Qed.

Lemma sum_bytes_app (a b : list Z) :
  sum_bytes (a ++ b) = sum_bytes a + sum_bytes b.
Proof.
  unfold sum_bytes. induction a as [|x a IH]; cbn [app fold_right]; lia.
Qed.

Lemma sum_bytes_perm (p p' : list Z) :
  Permutation p p' -> sum_bytes p = sum_bytes p'.
Proof.
  unfold sum_bytes.
  induction 1 as [|x l l' _ IH|x y l|l l' l'' _ IH1 _ IH2];
    cbn [fold_right]; lia.
Qed.

Lemma is_Uint8Array_app (a b : list Z) :
  is_Uint8Array (a ++ b) <-> is_Uint8Array a /\ is_Uint8Array b.
Proof. apply Forall_app. Qed.

(** Changing one byte of a block that passes the check, payload or
    checksum byte alike, makes it fail. *)
Theorem single_byte_corruption_detected (before after : Uint8Array)
  (x x' : Z) :
  is_Uint8Array (before ++ x :: after) ->
  is_uint8 x' ->
  x' <> x ->
  crc_matches (before ++ x :: after) = true ->
  crc_matches (before ++ x' :: after) = false.
Proof.
  intros Hb Hx' Hne Hok.
  destruct after as [|c rest _] using rev_ind.
  - rewrite crc_matches_snoc in *. apply Z.eqb_eq in Hok.
    apply Z.eqb_neq. lia.
  - change (before ++ x :: rest ++ [c]) with (before ++ (x :: rest) ++ [c])
      in *.
    change (before ++ x' :: rest ++ [c]) with (before ++ (x' :: rest) ++ [c]).
    rewrite app_assoc in *. rewrite crc_matches_snoc in *.
    apply is_Uint8Array_app in Hb. destruct Hb as [Hp _].
    assert (Hp' : is_Uint8Array (before ++ x' :: rest)).
    { apply is_Uint8Array_app in Hp. destruct Hp as [H1 H2].
      apply is_Uint8Array_app. split; [exact H1|].
      inversion_clear H2. now constructor. }
    assert (Hx : is_uint8 x).
    { apply is_Uint8Array_app in Hp. destruct Hp as [_ H2].
      now inversion_clear H2. }
    rewrite write_crc_sum in * by assumption.
    apply Z.eqb_eq in Hok. apply Z.eqb_neq.
    rewrite sum_bytes_app in *. cbn [sum_bytes fold_right] in *.
    fold (sum_bytes rest) in *.
    unfold is_uint8 in Hx, Hx'.
    intros E. rewrite E in Hok. clear E.
    Z.div_mod_to_equations. lia.
Qed.

Lemma single_byte_corruption_detected_witness :
  crc_matches ([200; 100] ++ 7 :: [51]) = true /\
  crc_matches ([200; 100] ++ 8 :: [51]) = false.
Proof.
  split; [reflexivity|].
  apply (single_byte_corruption_detected [200; 100] [51] 7 8).
  - repeat constructor; unfold is_uint8; lia.
  - unfold is_uint8; lia.
  - lia.
  - reflexivity.
Defined.

(** Reordering the payload bytes of a block that passes the check is
    not noticed. *)
Theorem reordered_payload_accepted (p p' : Uint8Array) (c : Z) :
  Permutation p p' ->
  crc_matches (p ++ [c]) = true ->
  crc_matches (p' ++ [c]) = true.
Proof.
  intros P. rewrite !crc_matches_snoc. unfold write_crc.
  now rewrite !reduce_add_sum, (sum_bytes_perm p p' P).
Qed.

Lemma reordered_payload_accepted_witness :
  crc_matches ([1; 2; 3] ++ [6]) = true /\
  crc_matches ([3; 1; 2] ++ [6]) = true.
Proof.
  split; [reflexivity|].
  apply (reordered_payload_accepted [1; 2; 3] [3; 1; 2] 6); [|reflexivity].
  apply Permutation_sym, (Permutation_cons_app [1; 2] [] 3).
  rewrite app_nil_r. apply Permutation_refl.
Defined.

End ChecksumFacts.

(** ** ws_manager.js: what the receive buffer holds *)

Module BufferFacts.
Import JS Serializer WsManager WsManagerFacts.
Local Open Scope string_scope.
Local Open Scope list_scope.
Local Open Scope Z_scope.

(** What [deserialize] made of the messages, in arrival order; a message
    on which it throws contributes nothing. *)
Definition decoded (errorHandler : bool) (msgs : list message)
  : list received :=
  flat_map (fun m => match fst (deserialize errorHandler m) with
                     | Returned response => [response]
                     | Thrown _ => []
                     end) msgs.

(** The last n elements of a list. *)
Definition last_n {A : Type} (n : nat) (l : list A) : list A :=
  skipn (length l - n) l.

Lemma last_n_short (A : Type) (n : nat) (l : list A) :
  (length l <= n)%nat -> last_n n l = l.
Proof.
  intros H. unfold last_n.
  replace (length l - n)%nat with 0%nat by lia. reflexivity.
Qed.

Lemma last_n_length (A : Type) (n : nat) (l : list A) :
  (length (last_n n l) <= n)%nat.
Proof. unfold last_n. rewrite length_skipn. lia. Qed.

Lemma last_n_absorb (A : Type) (n : nat) (a b : list A) :
  last_n n (last_n n a ++ b) = last_n n (a ++ b).
Proof.
  destruct (Nat.le_gt_cases (length a) n) as [H|H].
  - now rewrite (last_n_short A n a H).
  - unfold last_n. rewrite !length_app, length_skipn.
    replace (length a - (length a - n) + length b - n)%nat
      with (length b) by lia.
    replace (length a + length b - n)%nat
      with (length b + (length a - n))%nat by lia.
    rewrite <- skipn_skipn. f_equal.
    rewrite skipn_app.
    replace (length a - n - length a)%nat with 0%nat by lia.
    reflexivity.
Qed.

Lemma on_message_last_n errorHandler buffer data :
  (length buffer <= 64)%nat ->
  on_message errorHandler buffer data
  = last_n 64 (buffer ++ decoded errorHandler [data]).
Proof.
  intros H. unfold on_message, decoded, push. cbn [flat_map].
  destruct (fst (deserialize errorHandler data)) as [response|e];
    cbn [app].
  - destruct (Nat.ltb_spec 64 (length (buffer ++ [response]))) as [L|L].
    + rewrite length_app in L. cbn [length] in L.
      unfold last_n. rewrite length_app. cbn [length].
      replace (length buffer + 1 - 64)%nat with 1%nat by lia.
      now destruct buffer.
    + now rewrite last_n_short.
  - rewrite app_nil_r. now rewrite last_n_short.
Qed.

Lemma decoded_app errorHandler a b :
  decoded errorHandler (a ++ b)
  = decoded errorHandler a ++ decoded errorHandler b.
Proof. unfold decoded. apply flat_map_app. Qed.

Lemma receive_from_last_n errorHandler msgs :
  forall buffer,
    (length buffer <= 64)%nat ->
    fold_left (on_message errorHandler) msgs buffer
    = last_n 64 (buffer ++ decoded errorHandler msgs).
Proof.
  induction msgs as [|m msgs IH]; intros buffer H; cbn [fold_left].
  - cbn. rewrite app_nil_r. now rewrite last_n_short.
  - rewrite IH by now apply on_message_bound.
    rewrite on_message_last_n by assumption.
    rewrite last_n_absorb, <- app_assoc.
    change (m :: msgs) with ([m] ++ msgs). now rewrite decoded_app.
Qed.

(** The buffer is a sliding window: whatever arrived, it holds exactly
    the last 64 entries [deserialize] produced, in arrival order. *)
Theorem buffer_holds_last_64 (errorHandler : bool) (msgs : list message) :
  receive errorHandler msgs = last_n 64 (decoded errorHandler msgs).
Proof.
  unfold receive. rewrite receive_from_last_n by (cbn; lia). reflexivity.
Qed.

(** A message whose text JSON.parse turns into null (undefined cannot
    come out of JSON.parse; the code treats it alike). *)
Definition parses_to_null (data : message) : Prop :=
  match data with
  | Parsed _ Null | Parsed _ Undefined => True
  | _ => False
  end.

(** A message that reaches [obj.hasOwnProperty('result')] (version
    "2.0", an id, no method name) and holds a key hasOwnProperty of its
    own. *)
Definition shadows_hasOwnProperty (data : message) : Prop :=
  match data with
  | Parsed _ (Obj p props) =>
      is_string_lit (get (Obj p props) "jsonrpc") "2.0" = true /\
      get (Obj p props) "id" <> Undefined /\
      isString (get (Obj p props) "method") = false /\
      own_property props "hasOwnProperty" <> None
  | _ => False
  end.

Definition listener_throws (data : message) : Prop :=
  parses_to_null data \/ shadows_hasOwnProperty data.

(** [deserialize] throws on exactly these messages. *)
Lemma deserialize_throws errorHandler data e :
  fst (deserialize errorHandler data) = Thrown e <->
  e = TypeError /\ listener_throws data.
Proof.
  unfold listener_throws. split.
  - destruct data as [msg|msg obj]; [discriminate|].
    cbn [deserialize parses_to_null shadows_hasOwnProperty].
    destruct obj as [| |b|n|s| |l|p props];
      try (intros E; injection E as <-; split; [reflexivity|left; exact I];
           fail);
      try (cbn; discriminate).
    unfold deserializeObject.
    destruct (is_string_lit (get (Obj p props) "jsonrpc") "2.0") eqn:J;
      cbn [negb]; [|discriminate].
    destruct (get (Obj p props) "id") eqn:Id; try discriminate;
      (destruct (isString (get (Obj p props) "method")) eqn:M;
       [discriminate|]);
      unfold call_hasOwnProperty;
      (destruct (own_property props "hasOwnProperty") eqn:H;
       [ intros E; injection E as <-; split; [reflexivity|];
         right; repeat split; congruence
       | destruct (hasOwnProperty (Obj p props) "result");
         [discriminate|];
         destruct (truthy (get (Obj p props) "error")); discriminate ]).
  - intros [-> [H|H]].
    + destruct data as [msg|msg []]; try contradiction; reflexivity.
    + destruct data as [msg|msg [| |b|n|s| |l|p props]];
        try contradiction.
      destruct H as (J & Id & M & Hs).
      cbn [deserialize]. unfold deserializeObject. rewrite J. cbn [negb].
      destruct (get (Obj p props) "id") eqn:I'; try congruence;
        rewrite M; unfold call_hasOwnProperty;
        (destruct (own_property props "hasOwnProperty");
         [reflexivity | congruence]).
Qed.

(** What the listener does with one inbound message, in a buffer that is
    not yet full.  It throws, leaving the buffer as it was, on the JSON
    text null and on an object that gets as far as
    [obj.hasOwnProperty('result')] with a key hasOwnProperty of its own.
    Every other message leaves one entry: unparsable text and
    non-conforming objects are stored too (as error instances) and take
    up room like any response. *)
Theorem listener_buffers_or_throws (errorHandler : bool)
  (buffer : receiveBuffer) (data : message) :
  (length buffer < 64)%nat ->
  (listener_throws data ->
   on_message errorHandler buffer data = buffer) /\
  (~ listener_throws data ->
   exists response,
     fst (deserialize errorHandler data) = Returned response /\
     on_message errorHandler buffer data = buffer ++ [response]) /\
  (forall msg, data = Malformed msg ->
     on_message errorHandler buffer data
     = buffer ++ [Failure (new_ParseError (Str msg))]).
Proof.
  intros L. split; [|split].
  - intros H. unfold on_message.
    now rewrite (proj2 (deserialize_throws errorHandler data TypeError)
                   (conj eq_refl H)).
  - intros H. unfold on_message, push.
    destruct (fst (deserialize errorHandler data)) as [response|e] eqn:E.
    + exists response. split; [reflexivity|].
      rewrite length_app. cbn [length].
      destruct (Nat.ltb_spec 64 (length buffer + 1)); [lia|reflexivity].
    + apply deserialize_throws in E. destruct E as [_ E]. contradiction.
  - intros msg ->. unfold on_message, push. cbn [deserialize fst].
    rewrite length_app. cbn [length].
    destruct (Nat.ltb_spec 64 (length buffer + 1)); [lia|reflexivity].
Qed.

(** The text null, text that is no JSON at all, and a response that
    holds a key hasOwnProperty. *)
Definition null_text : message := Parsed "null" Null.
Definition garbage : message := Malformed "<html>".
Definition shadowing : message :=
  Parsed "{...}"
    (Obj ObjectProto [("jsonrpc", Str "2.0"); ("id", Num (of_Z 9));
                      ("result", Num (of_Z 1));
                      ("hasOwnProperty", Num (of_Z 1))]).

Lemma listener_buffers_or_throws_witness :
  on_message false [envelope_7] null_text = [envelope_7] /\
  on_message false [envelope_7] shadowing = [envelope_7] /\
  on_message false [envelope_7] garbage
  = [envelope_7; Failure (new_ParseError (Str "<html>"))].
Proof.
  assert (L : (length [envelope_7] < 64)%nat) by (cbn; lia).
  split; [|split].
  - exact (proj1 (listener_buffers_or_throws false [envelope_7]
                    null_text L) (or_introl I)).
  - apply (proj1 (listener_buffers_or_throws false [envelope_7]
                    shadowing L)).
    right. cbn. repeat split; discriminate.
  - exact (proj2 (proj2 (listener_buffers_or_throws false
                           [envelope_7] garbage L)) "<html>" eq_refl).
Defined.

End BufferFacts.
(** ** ws_manager.js: what getRPCResponse can hand back *)

Module ResponseFacts.
Import JS Serializer WsManager WsManagerFacts BufferFacts.
Local Open Scope string_scope.
Local Open Scope list_scope.
Local Open Scope Z_scope.

Lemma poll_inv env id fuel :
  forall k c,
    poll fuel env id k (elapsed_at env k) = Some c ->
    exists j,
      (k <= j)%nat /\
      (forall i, (k <= i < j)%nat ->
                 find (matches id) (inbox env i) = None) /\
      ((40000 <= elapsed_at env j /\ c = Thrown (TimeoutWaiting id)) \/
       (elapsed_at env j < 40000 /\
        exists r, find (matches id) (inbox env j) = Some r /\
                  c = answer_with id r)).
Proof.
  induction fuel as [|fuel IH]; intros k c H; [discriminate|].
  cbn [poll] in H.
  destruct (Z.ltb_spec (elapsed_at env k) 40000) as [Hlt|Hge].
  - destruct (find (matches id) (inbox env k)) as [r|] eqn:F.
    + exists k. split; [lia|]. split; [intros i Hi; lia|].
      right. split; [assumption|]. exists r. split; [assumption|].
      unfold answer_with.
      destruct (is_string_lit (type_of r) "error"); now injection H as <-.
    + change (elapsed_at env k + 100 + Z.of_N (lateness env k))
        with (elapsed_at env (S k)) in H.
      destruct (IH (S k) c H) as (j & Hj & Hnone & Hend).
      exists j. split; [lia|]. split; [|exact Hend].
      intros i Hi. destruct (Nat.eq_dec i k) as [->|Hne]; [exact F|].
      apply Hnone. lia.
  - injection H as <-. exists k. split; [lia|].
    split; [intros i Hi; lia|]. left. now split.
Qed.

Lemma poll_total env id fuel :
  forall k,
    (1 <= fuel)%nat ->
    40000 <= (Z.of_nat fuel - 1) * 100 + elapsed_at env k ->
    poll fuel env id k (elapsed_at env k) <> None.
Proof.
  induction fuel as [|fuel IH]; intros k Hpos Hfuel; [lia|].
  cbn [poll].
  destruct (Z.ltb_spec (elapsed_at env k) 40000) as [Hlt|Hge];
    [|discriminate].
  destruct (find (matches id) (inbox env k)) as [r|].
  - destruct (is_string_lit (type_of r) "error"); discriminate.
  - change (elapsed_at env k + 100 + Z.of_N (lateness env k))
      with (elapsed_at env (S k)).
    pose proof (elapsed_at_step env k). apply IH; lia.
Qed.

(** [getRPCResponse(id)] always ends, and never with anything foreign:
    what it returns is an entry of the buffer whose payload id is id and
    whose type is not error, seen at a poll inside the 40 s; what it
    throws is the timeout for id, or the RPC error built from the payload
    of a buffered error envelope whose payload id is id. *)
Theorem getRPCResponse_sound (env : surroundings) (id : Z) :
  getRPCResponse env id <> None /\
  (forall r,
      getRPCResponse env id = Some (Returned r) ->
      matches id r = true /\
      is_string_lit (type_of r) "error" = false /\
      exists j, elapsed_at env j < 40000 /\ In r (inbox env j)) /\
  (forall e,
      getRPCResponse env id = Some (Thrown e) ->
      e = TimeoutWaiting id \/
      exists r j,
        e = RpcErrorResponse id (payload_of r) /\
        matches id r = true /\
        is_string_lit (type_of r) "error" = true /\
        elapsed_at env j < 40000 /\ In r (inbox env j)).
Proof.
  unfold getRPCResponse. split; [|split].
  - apply (poll_total env id 401 0); cbn [elapsed_at]; lia.
  - intros r H.
    destruct (poll_inv env id 401 0 _ H)
      as (j & _ & _ & [[_ E] | (Hj & r' & F & E)]); [discriminate|].
    apply find_some in F. destruct F as [Hin Hm].
    unfold answer_with in E.
    destruct (is_string_lit (type_of r') "error") eqn:T; [discriminate|].
    injection E as ->. clear H. split; [assumption|].
    split; [assumption|]. exists j. split; assumption.
  - intros e H.
    destruct (poll_inv env id 401 0 _ H)
      as (j & _ & _ & [[_ E] | (Hj & r' & F & E)]).
    + left. injection E as ->. reflexivity.
    + apply find_some in F. destruct F as [Hin Hm].
      unfold answer_with in E.
      destruct (is_string_lit (type_of r') "error") eqn:T; [|discriminate].
      injection E as ->. clear H. right. exists r', j.
      repeat split; assumption.
Qed.

Lemma getRPCResponse_sound_witness :
  matches 7 envelope_7 = true /\
  is_string_lit (type_of envelope_7) "error" = false /\
  exists j, elapsed_at arrives_at_third_poll j < 40000 /\
            In envelope_7 (inbox arrives_at_third_poll j).
Proof.
  exact (proj1 (proj2 (getRPCResponse_sound arrives_at_third_poll 7))
           envelope_7 eq_refl).
Defined.

Lemma find_none_forall (A : Type) (f : A -> bool) (l : list A) :
  Forall (fun x => f x = false) l -> find f l = None.
Proof.
  induction 1 as [|x l Hx _ IH]; [reflexivity|].
  cbn [find]. now rewrite Hx.
Qed.

Lemma last_n_of_newer (A : Type) (n : nat) (older newer : list A) :
  (n <= length newer)%nat ->
  last_n n (older ++ newer) = last_n n newer.
Proof.
  intros H. unfold last_n. rewrite length_app, skipn_app.
  replace (length older + length newer - n)%nat
    with (length older + (length newer - n))%nat by lia.
  rewrite skipn_all2 by lia. cbn [app]. f_equal. lia.
Qed.

Lemma Forall_skipn_of (A : Type) (P : A -> Prop) (n : nat) (l : list A) :
  Forall P l -> Forall P (skipn n l).
Proof.
  intros H. revert n. induction H as [|x l Hx Hl IH]; intros [|n];
    cbn [skipn]; auto.
Qed.

(** A response that 64 or more later entries have pushed out of the
    buffer is lost: if, at every poll, the entries decoded since the
    last one that could match id number at least 64 and none of them
    has payload id id, the call ends with the timeout. *)
Theorem evicted_response_times_out (errorHandler : bool)
  (history : nat -> list message) (late : nat -> N) (id : Z) :
  (forall k, exists older newer,
      decoded errorHandler (history k) = older ++ newer /\
      (64 <= length newer)%nat /\
      Forall (fun r => matches id r = false) newer) ->
  getRPCResponse
    {| inbox := fun k => receive errorHandler (history k);
       lateness := late |} id
  = Some (Thrown (TimeoutWaiting id)).
Proof.
  intros H. unfold getRPCResponse.
  apply (poll_timeout _ id 401 0); [lia | cbn [elapsed_at]; lia |].
  intros i _ _. cbn [inbox].
  destruct (H i) as (older & newer & E & L & F).
  unfold receive. rewrite receive_from_last_n by (cbn; lia).
  cbn [app]. rewrite E, last_n_of_newer by assumption.
  apply find_none_forall. unfold last_n. now apply Forall_skipn_of.
Qed.

(** The response to request 7 arrives, then 64 notifications. *)
Definition flooded : list message := reply_7 :: sixty_four_notes.

Lemma evicted_response_times_out_witness :
  getRPCResponse
    {| inbox := fun _ => receive false flooded; lateness := fun _ => 0%N |} 7
  = Some (Thrown (TimeoutWaiting 7)).
Proof.
  apply (evicted_response_times_out false (fun _ => flooded)).
  intros _. exists [envelope_7], (decoded false sixty_four_notes).
  split; [reflexivity|]. split; [vm_compute; lia|].
  apply Forall_forall. intros r Hr.
  unfold decoded, sixty_four_notes in Hr.
  apply in_flat_map in Hr. destruct Hr as (m & Hm & Hr).
  apply in_map_iff in Hm. destruct Hm as (n & <- & _).
  cbn in Hr. destruct Hr as [<-|[]]. reflexivity.
Defined.

End ResponseFacts.

(* ================================================================== *)
(** ** exceptions.js: the five constructors *)

Module Exceptions.
Import JS.
Local Open Scope string_scope.

(** [new JsonRpcError(msg, ...rest)]: [message] is the first argument
    (undefined when there is none), [data] the remaining ones. *)
Definition JsonRpcError (args : list value) : value :=
  Obj JsonRpcErrorProto
    [("name", Str "JsonRpcError");
     ("code", Num (of_Z (-32603)));
     ("message", nth 0 args Undefined);
     ("data", Arr (tl args))].

(** The derived constructors call [JsonRpcError] with a fixed message,
    then overwrite [name], [code] and [data] (all the arguments). *)
Definition ParseError (args : list value) : value :=
  Obj ParseErrorProto
    [("name", Str "ParseError");
     ("code", Num (of_Z (-32700)));
     ("message", Str "Unable to parse payload as a JSON.");
     ("data", Arr args)].

Definition InvalidRequestError (args : list value) : value :=
  Obj InvalidRequestErrorProto
    [("name", Str "InvalidRequestError");
     ("code", Num (of_Z (-32600)));
     ("message", Str "The request object is not a valid JSON-RPC 2.0 object.");
     ("data", Arr args)].

Definition MethodNotFoundError (args : list value) : value :=
  Obj MethodNotFoundErrorProto
    [("name", Str "MethodNotFoundError");
     ("code", Num (of_Z (-32601)));
     ("message",
      Str "The JSON-RPC method does not exist, or is an invalid one.");
     ("data", Arr args)].

Definition InvalidParamsError (args : list value) : value :=
  Obj InvalidParamsErrorProto
    [("name", Str "InvalidParamsError");
     ("code", Num (of_Z (-32602)));
     ("message", Str "The JSON-RPC method's parameters are invalid.");
     ("data", Arr args)].

End Exceptions.

(** ** serializer.js: which envelopes are accepted *)

Module ValidationFacts.
Import JS Serializer SerializerFacts.
Local Open Scope string_scope.
Local Open Scope list_scope.
Local Open Scope Z_scope.

(** "a string or an integer (no fractions allowed)" *)
Definition valid_id (id : value) : Prop :=
  (exists s, id = Str s) \/ integer_number id.

Definition is_serialized (b : built) : Prop :=
  match b with
  | Serialized _ => True
  | Errors _ => False
  end.

Lemma fraction_free_is_integer (n : number) :
  mod1_nonzero (Num n) = false -> integer_number (Num n).
Proof.
  unfold mod1_nonzero, rem, of_Z. destruct n as [q| | |]; try discriminate.
  change (Qis_zero (inject_Z 1)) with false. cbv iota.
  unfold strict_eq. intros H. apply negb_false_iff, Qeq_bool_iff in H.
  rewrite Qred_correct in H.
  exists q, (truncq (q / inject_Z 1)). split; [reflexivity|].
  rewrite <- (Qplus_0_r (inject_Z _)), <- H. ring.
Qed.

(** The test shared by [checkId] and [checkErrorId]. *)
Lemma id_test (id : value) :
  negb (isString id)
  && (negb (isNumber id) || (isNumber id && mod1_nonzero id)) = false
  <-> valid_id id.
Proof.
  split.
  - destruct id as [| |b|n|s| |l|p props]; try discriminate.
    + cbn. intros H. right. now apply fraction_free_is_integer.
    + intros _. left. now exists s.
  - intros [(s & ->) | H]; [reflexivity|].
    rewrite (integer_has_no_fraction id H).
    destruct H as (q & z & -> & _). reflexivity.
Qed.

Lemma checkId_valid id errors : valid_id id -> checkId id errors = errors.
Proof. intros H. unfold checkId. now rewrite (proj2 (id_test id) H). Qed.

Lemma checkId_invalid id errors :
  ~ valid_id id -> checkId id errors = push errors id_message.
Proof.
  intros H. unfold checkId.
  destruct (negb (isString id) && _) eqn:E; [reflexivity|].
  now apply id_test in E.
Qed.

Lemma validate_request (id method params : value) :
  _validateMessageStructure "request"
    (Obj ObjectProto [("id", id); ("method", method); ("params", params)])
  = let errors :=
      checkMethod
        (Obj ObjectProto [("id", id); ("method", method); ("params", params)])
        (checkId id []) in
    match errors with
    | [] => None
    | _ => Some errors
    end.
Proof. reflexivity. Qed.

Lemma push_not_nil (A : Type) (l : list A) (x : A) : push l x <> [].
Proof. unfold push. now destruct l. Qed.

Lemma finish_serialized errorHandler errors obj :
  is_serialized (fst (finish errorHandler errors obj)) <-> errors = None.
Proof. destruct errors; cbn; split; intros; try easy. Qed.

Lemma none_iff_nil (errors : list string) :
  match errors with [] => None | _ => Some errors end = None
  <-> errors = [].
Proof. destruct errors; split; intros; easy. Qed.

(** What an accepted request, notification, success or error envelope
    was built from. *)
Lemma request_accepted_only errorHandler id method params :
  is_serialized (fst (request errorHandler id method params)) ->
  valid_id id /\ isString method = true.
Proof.
  unfold request. rewrite finish_serialized, validate_request.
  cbv zeta. rewrite none_iff_nil. unfold checkMethod.
  change (get (Obj ObjectProto _) "method") with method.
  intros H. destruct (isString method) eqn:M; cbn [negb] in H.
  - split; [|reflexivity].
    apply id_test. unfold checkId in H.
    destruct (negb (isString id) && _); [|reflexivity].
    now apply push_not_nil in H.
  - now apply push_not_nil in H.
Qed.

Lemma validate_notification method params :
  _validateMessageStructure "notification"
    (Obj ObjectProto [("method", method); ("params", params)])
  = let errors :=
      checkMethod
        (Obj ObjectProto [("method", method); ("params", params)]) [] in
    match errors with [] => None | _ => Some errors end.
Proof. reflexivity. Qed.

Lemma notification_accepted_only errorHandler method params :
  is_serialized (fst (notification errorHandler method params)) ->
  isString method = true.
Proof.
  unfold notification. rewrite finish_serialized, validate_notification.
  cbv zeta. rewrite none_iff_nil. unfold checkMethod.
  change (get (Obj ObjectProto _) "method") with method.
  destruct (isString method); cbn [negb]; intros H; [reflexivity|].
  now apply push_not_nil in H.
Qed.

Lemma validate_success id result :
  _validateMessageStructure "success"
    (Obj ObjectProto [("id", id); ("result", result)])
  = let errors := checkResult result (checkId id []) in
    match errors with [] => None | _ => Some errors end.
Proof. reflexivity. Qed.

Lemma success_accepted_only errorHandler id result :
  is_serialized (fst (success errorHandler id result)) ->
  valid_id id /\ result <> Undefined.
Proof.
  unfold success. rewrite finish_serialized, validate_success.
  cbv zeta. rewrite none_iff_nil.
  intros H. destruct result; cbn [checkResult] in H;
    try (now apply push_not_nil in H);
    (split; [|discriminate]);
    apply id_test; unfold checkId in H;
    (destruct (negb (isString id) && _); [|reflexivity]);
    now apply push_not_nil in H.
Qed.

(** The test on the code in [checkError]: a value that is not a number
    and is a number. *)
Lemma code_test_never_fails (code : value) :
  negb (isNumber code) && (isNumber code && mod1_nonzero code) = false.
Proof. now destruct (isNumber code). Qed.

Lemma error_accepted_only errorHandler id errdata :
  is_serialized (fst (error errorHandler id errdata)) ->
  (id = Null \/ valid_id id) /\
  instanceof_JsonRpcError errdata = true /\
  isString (get errdata "message") = true.
Proof.
  unfold error. rewrite finish_serialized, validate_error.
  cbv zeta. rewrite none_iff_nil.
  intros H. unfold checkError in H. rewrite code_test_never_fails in H.
  destruct (isObject errdata); cbn [negb] in H;
    [|now apply push_not_nil in H].
  destruct (instanceof_JsonRpcError errdata); cbn [negb] in H;
    [|now apply push_not_nil in H].
  destruct (isString (get errdata "message")); cbn [negb] in H;
    [|now apply push_not_nil in H].
  split; [|split; reflexivity].
  unfold checkErrorId in H.
  destruct id as [| |b|n|s| |l|p props];
    try (now apply push_not_nil in H); auto.
  - right.
    destruct (negb (isNull (Num n)) && negb (isString (Num n))
              && _) eqn:E; [now apply push_not_nil in H|].
    apply id_test. exact E.
  - right. left. now exists s.
Qed.

(** [jsonrpc.request] returns the serialized envelope exactly when the
    id is a string or an integer and the method is a string;
    [jsonrpc.notification] exactly when the method is a string.
    Otherwise they return the list of messages. *)
Theorem request_accepted_iff (errorHandler : bool)
  (id method params : value) :
  (is_serialized (fst (request errorHandler id method params))
   <-> valid_id id /\ isString method = true) /\
  (is_serialized (fst (notification errorHandler method params))
   <-> isString method = true).
Proof.
  split; split.
  - apply request_accepted_only.
  - intros [Hid M].
    unfold request. rewrite finish_serialized, validate_request.
    cbv zeta. rewrite none_iff_nil. unfold checkMethod.
    change (get (Obj ObjectProto _) "method") with method.
    rewrite M. cbn [negb]. now apply checkId_valid.
  - apply notification_accepted_only.
  - intros M.
    unfold notification. rewrite finish_serialized, validate_notification.
    cbv zeta. rewrite none_iff_nil. unfold checkMethod.
    change (get (Obj ObjectProto _) "method") with method.
    now rewrite M.
Qed.

(** [jsonrpc.success] returns the serialized envelope exactly when the
    id is a string or an integer and the result is not undefined: null,
    0, false and the empty string are results like any other. *)
Theorem success_accepted_iff (errorHandler : bool) (id result : value) :
  is_serialized (fst (success errorHandler id result))
  <-> valid_id id /\ result <> Undefined.
Proof.
  split; [apply success_accepted_only|].
  intros [Hid Hr].
  unfold success. rewrite finish_serialized, validate_success.
  cbv zeta. rewrite none_iff_nil.
  rewrite checkId_valid by assumption.
  now destruct result.
Qed.

(** [jsonrpc.error] returns the serialized envelope exactly when the id
    is null, a string or an integer, the error value is an instance of
    JsonRpcError and its message is a string.  The code plays no part:
    the test meant to reject a non-integer code can never succeed. *)
Theorem error_accepted_iff (errorHandler : bool) (id errdata : value) :
  is_serialized (fst (error errorHandler id errdata))
  <-> (id = Null \/ valid_id id) /\
      instanceof_JsonRpcError errdata = true /\
      isString (get errdata "message") = true.
Proof.
  split; [apply error_accepted_only|].
  intros (Hid & Hi & Hm).
  unfold error. rewrite finish_serialized, validate_error.
  cbv zeta. rewrite none_iff_nil.
  unfold checkError. rewrite code_test_never_fails, Hi, Hm.
  assert (O : isObject errdata = true)
    by (destruct errdata; try discriminate; reflexivity).
  rewrite O. cbn [negb].
  destruct Hid as [-> | Hid]; [reflexivity|].
  unfold checkErrorId.
  rewrite <- andb_assoc, (proj2 (id_test id) Hid).
  now rewrite andb_false_r.
Qed.

End ValidationFacts.
(** ** serializer.js: building an envelope and reading it back *)

(** The constructors return [JSON.stringify(obj)], a text; what can be
    read back is [JSON.parse] of that text. *)
Module JsonText.
Import JS.
Local Open Scope string_scope.
Local Open Scope list_scope.

Section Kept.
Variable reparse : value -> option value.

(** In an array, what has no text is written as null. *)
Fixpoint kept_elems (elems : list value) : list value :=
  match elems with
  | [] => []
  | x :: rest =>
      match reparse x with
      | Some y => y
      | None => Null
      end :: kept_elems rest
  end.

(** In an object, a property whose value has no text is left out. *)
Fixpoint kept_props (props : list (string * value))
  : list (string * value) :=
  match props with
  | [] => []
  | (k, x) :: rest =>
      match reparse x with
      | Some y => (k, y) :: kept_props rest
      | None => kept_props rest
      end
  end.

End Kept.

(** [JSON.parse(JSON.stringify(v))]; None where [JSON.stringify] gives
    undefined.  Undefined and functions have no text, NaN and the
    infinities are written as null, and of an object the own properties
    are written, so that an error instance comes back as a plain
    object.  A property list holds each key once.  An object that holds
    a function under the key toJSON is written as whatever that function
    returns: see [calls_no_toJSON]. *)
Fixpoint reparse (v : value) : option value :=
  match v with
  | Undefined | Fn => None
  | Null => Some Null
  | Bool b => Some (Bool b)
  | Str s => Some (Str s)
  | Num (Fin q) => Some (Num (Fin q))
  | Num _ => Some Null
  | Arr elems => Some (Arr (kept_elems reparse elems))
  | Obj _ props => Some (Obj ObjectProto (kept_props reparse props))
  end.



End JsonText.

Module EnvelopeFacts.
Import JS Serializer SerializerFacts ValidationFacts JsonText.
Local Open Scope string_scope.
Local Open Scope list_scope.
Local Open Scope Z_scope.










(** An instance of one of the four derived error classes is always
    accepted by [jsonrpc.error] under an id that is null, a string or an
    integer, whatever it was constructed with; an instance of
    JsonRpcError itself is accepted exactly when its first constructor
    argument, the message, is a string. *)
Theorem error_classes_accepted (errorHandler : bool) (id : value)
  (args : list value) :
  acceptable_id id ->
  error errorHandler id (Exceptions.ParseError args)
  = (Serialized (errorObject id (Exceptions.ParseError args)), []) /\
  error errorHandler id (Exceptions.InvalidRequestError args)
  = (Serialized (errorObject id (Exceptions.InvalidRequestError args)), []) /\
  error errorHandler id (Exceptions.MethodNotFoundError args)
  = (Serialized (errorObject id (Exceptions.MethodNotFoundError args)), []) /\
  error errorHandler id (Exceptions.InvalidParamsError args)
  = (Serialized (errorObject id (Exceptions.InvalidParamsError args)), []) /\
  (is_serialized (fst (error errorHandler id (Exceptions.JsonRpcError args)))
   <-> exists s, nth 0 args Undefined = Str s).
Proof.
  intros Hid.
  assert (Fixed : forall errdata,
             instanceof_JsonRpcError errdata = true ->
             isString (get errdata "message") = true ->
             error errorHandler id errdata
             = (Serialized (errorObject id errdata), [])).
  { intros errdata Hi Hm. unfold error.
    rewrite validate_error. cbv zeta.
    rewrite checkErrorId_accepts by assumption.
    unfold checkError. rewrite Hi, Hm.
    assert (O : isObject errdata = true)
      by (destruct errdata; try discriminate; reflexivity).
    rewrite O. cbn [negb].
    now destruct (isNumber (get errdata "code")). }
  repeat (split; [now apply Fixed|]).
  split.
  - intros A. apply error_accepted_only in A. destruct A as (_ & _ & Hm).
    change (get (Exceptions.JsonRpcError args) "message")
      with (nth 0 args Undefined) in Hm.
    destruct (nth 0 args Undefined); try discriminate. now eexists.
  - intros (s & E).
    rewrite (Fixed (Exceptions.JsonRpcError args)); [exact I|reflexivity|].
    change (get (Exceptions.JsonRpcError args) "message")
      with (nth 0 args Undefined).
    now rewrite E.
Qed.

Lemma error_classes_accepted_witness :
  error false Null (Exceptions.ParseError [Str "{oops"])
  = (Serialized (errorObject Null (Exceptions.ParseError [Str "{oops"])),
     []) /\
  ~ is_serialized (fst (error false Null (Exceptions.JsonRpcError []))).
Proof.
  destruct (error_classes_accepted false Null [Str "{oops"] (or_introl eq_refl))
    as (P & _).
  split; [exact P|].
  destruct (error_classes_accepted false Null [] (or_introl eq_refl))
    as (_ & _ & _ & _ & B).
  intros S. apply B in S. destruct S as (s & S). discriminate.
Defined.

End EnvelopeFacts.

(** ** programmer.js and ws_manager.js: request ids *)

Module IdFacts.
Import JS Transfer ReadFacts WireFacts CountFacts.
Local Open Scope string_scope.
Local Open Scope list_scope.
Local Open Scope Z_scope.

(** The requests sent so far carry the ids 1, 2, 3, ... in the order
    they went out, and [rpcId] is the last one handed out. *)
Definition numbered (w : world) : Prop :=
  rpcId w = Z.of_nat (length (sent w)) /\
  map req_id (sent w) = map Z.of_nat (seq 1 (length (sent w))).

Lemma numbered_initial : numbered initial.
Proof. split; reflexivity. Qed.

Lemma numbered_fresh w : numbered w -> fresh_ids w.
Proof.
  intros [R E]. unfold fresh_ids. rewrite R.
  apply Forall_forall. intros r Hr.
  apply (in_map req_id) in Hr. rewrite E in Hr.
  apply in_map_iff in Hr. destruct Hr as (k & <- & Hk).
  apply in_seq in Hk. lia.
Qed.

Lemma numbered_NoDup w : numbered w -> NoDup (map req_id (sent w)).
Proof.
  intros [_ E]. rewrite E.
  apply Finite.Injective_map_NoDup; [|apply seq_NoDup].
  intros a b H. lia.
Qed.

Lemma RPCCall_numbered net method params w :
  numbered w -> numbered (snd (RPCCall net method params w)).
Proof.
  intros [R E]. unfold RPCCall.
  destruct (link_up net (calls w)); cbn [snd]; [|now split].
  split; cbn [rpcId sent].
  - rewrite length_app. cbn [length]. lia.
  - rewrite length_app, map_app, E. cbn [length map req_id].
    rewrite Nat.add_1_r, seq_S, map_app. cbn [map]. repeat f_equal. lia.
Qed.

Lemma call_numbered (A : Type) net method params
  (answer : request -> reply A) w :
  numbered w ->
  numbered (snd ((id <- RPCCall net method params ;;
                  getRPCResponse_result answer id) w)).
Proof.
  intros N. pose proof (RPCCall_numbered net method params w N) as N1.
  unfold bind. destruct (RPCCall net method params w) as [[id|e] w1];
    cbn [snd] in *; [|exact N1].
  now rewrite getRPCResponse_result_world.
Qed.

Lemma fetch_block_numbered net i append_crc w :
  numbered w -> numbered (snd (fetch_block net i append_crc w)).
Proof. intros N. rewrite fetch_block_world. now apply RPCCall_numbered. Qed.

Lemma read_while_numbered net i append_crc :
  forall budget st w,
    numbered w -> numbered (snd (read_while budget net i append_crc st w)).
Proof.
  induction budget as [|budget IH]; intros st w N; [exact N|].
  destruct (negb (valid st) && (attempts st <? 3)) eqn:G.
  - rewrite read_while_enter by assumption.
    apply IH. now apply fetch_block_numbered.
  - now rewrite read_while_exit.
Qed.

Lemma read_for_numbered net append_crc num_blocks :
  forall fuel i out w,
    numbered w ->
    numbered (final (read_for fuel net append_crc num_blocks i out w)).
Proof.
  induction fuel as [|fuel IH]; intros i out w N; [exact N|].
  cbn [read_for].
  destruct (lt (of_Z i) num_blocks); [|exact N].
  pose proof (read_while_numbered net i append_crc 3
                {| valid := false; blockData := None; attempts := 0 |} w N)
    as N1.
  destruct (read_while 3 net i append_crc _ w) as [st w1]. cbn [snd] in N1.
  destruct (negb (valid st)); [exact N1|].
  destruct (blockData st); [now apply IH | exact N1].
Qed.

Lemma count_via_numbered net parts chipName method w :
  numbered w -> numbered (snd (count_via net parts chipName method w)).
Proof.
  intros N. unfold count_via.
  destruct (find_chip parts chipName); [|exact N].
  pose proof (call_numbered Z net method [] (size_reply net) w N) as N1.
  unfold bind in *.
  destruct (RPCCall net method [] w) as [[id|e] w1]; [|exact N1].
  destruct (getRPCResponse_result (size_reply net) id w1) as [[a|e] w2];
    exact N1.
Qed.

Lemma read_blocks_numbered fuel net append_crc parts chipName method w :
  numbered w ->
  numbered (final (read_blocks fuel net append_crc
                     (count_via net parts chipName method) w)).
Proof.
  intros N. unfold read_blocks.
  pose proof (count_via_numbered net parts chipName method w N) as N1.
  destruct (count_via net parts chipName method w) as [[num|e] w1];
    cbn [snd] in N1; [|exact N1].
  now apply read_for_numbered.
Qed.

Lemma write_while_numbered net params blockData :
  forall budget written attempts w,
    numbered w ->
    numbered (snd (write_while budget net params blockData written
                     attempts w)).
Proof.
  induction budget as [|budget IH]; intros written attempts w N; [exact N|].
  cbn [write_while].
  destruct (negb written && (attempts <? 3)); [|exact N].
  pose proof (call_numbered Z net "programmer_write_block"
                (params (write_crc blockData)) (write_reply net) w N) as N1.
  destruct ((rpcId <- RPCCall net "programmer_write_block"
                        (params (write_crc blockData)) ;;
             getRPCResponse_result (write_reply net) rpcId) w)
    as [[a|e] w1]; cbn [snd] in N1; now apply IH.
Qed.

Lemma write_for_numbered net params fileData BLOCK_SIZE numBlocks :
  forall fuel blockId out w,
    numbered w ->
    numbered (final (write_for fuel net params fileData BLOCK_SIZE numBlocks
                       blockId out w)).
Proof.
  induction fuel as [|fuel IH]; intros blockId out w N; [exact N|].
  cbn [write_for].
  destruct (lt (of_Z blockId) numBlocks); [|exact N].
  destruct (Utils.uint8ArrayToBase64 _) as [b64|]; [|exact N].
  pose proof (write_while_numbered net (params blockId b64)
                (slice fileData (mul (of_Z blockId) BLOCK_SIZE)
                   (add (mul (of_Z blockId) BLOCK_SIZE) BLOCK_SIZE))
                3 false 0 w N) as N1.
  destruct (write_while 3 net (params blockId b64) _ false 0 w)
    as [written w1].
  cbn [snd] in N1. destruct written; cbn [negb]; [now apply IH | exact N1].
Qed.

Lemma getBlockSize_numbered net for_read w :
  numbered w -> numbered (snd (Programmer.getBlockSize net for_read w)).
Proof.
  intros N. unfold Programmer.getBlockSize.
  destruct for_read.
  - pose proof (call_numbered Z net "get_read_block_size" []
                  (size_reply net) w N) as N1.
    destruct ((rpcIdBlockSize <- RPCCall net "get_read_block_size" [] ;;
               getRPCResponse_result (size_reply net) rpcIdBlockSize) w)
      as [[a|e] w1]; exact N1.
  - pose proof (call_numbered Z net "get_write_block_size" []
                  (size_reply net) w N) as N1.
    destruct ((rpcIdBlockSize <- RPCCall net "get_write_block_size" [] ;;
               getRPCResponse_result (size_reply net) rpcIdBlockSize) w)
      as [[a|e] w1]; exact N1.
Qed.

(** Request ids are never reused: whatever the device does, the requests
    a read or write generator has sent when it stops, on top of those
    sent before, carry the ids 1, 2, 3, ... in the order they went out. *)
Theorem request_ids_consecutive (fuel : nat) (net : network)
  (parts : list chip) (chipName : string) (append_crc : bool)
  (fileData : Uint8Array) (w : world) :
  numbered w ->
  numbered (final (Programmer.readChipBlocks fuel net parts chipName
                     append_crc w)) /\
  numbered (final (ProgrammerPackets.readChipBlocks fuel net parts chipName
                     append_crc w)) /\
  numbered (final (Programmer.writeChipBlocks fuel net parts chipName
                     fileData w)) /\
  numbered (final (ProgrammerPackets.writeChipBlocks fuel net parts chipName
                     fileData w)).
Proof.
  intros N. split; [|split; [|split]].
  - unfold Programmer.readChipBlocks.
    rewrite getNumberOfBlocksForChip_read. now apply read_blocks_numbered.
  - unfold ProgrammerPackets.readChipBlocks.
    rewrite getNumberOfTransmitPackets_via. now apply read_blocks_numbered.
  - unfold Programmer.writeChipBlocks.
    pose proof (getBlockSize_numbered net false w N) as N1.
    destruct (Programmer.getBlockSize net false w) as [[bs|e] w1];
      cbn [snd] in N1; [|exact N1].
    destruct (negb (strict_eq _ _)); [exact N1|].
    destruct (find_chip parts chipName); [|exact N1].
    now apply write_for_numbered.
  - unfold ProgrammerPackets.writeChipBlocks.
    destruct (find_chip parts chipName); [|exact N].
    rewrite getNumberOfReceivePackets_via.
    pose proof (count_via_numbered net parts chipName
                  "get_receive_packet_size" w N) as N1.
    destruct (count_via net parts chipName "get_receive_packet_size" w)
      as [[count|e] w1]; cbn [snd] in N1; [|exact N1].
    destruct (negb (strict_eq _ _)); [exact N1|].
    now apply write_for_numbered.
Qed.

(** A read whose every block arrives corrupted (the size query and three
    attempts at block 0), and a write of two blocks that goes through
    (the size query and two writes). *)
Lemma request_ids_consecutive_witness :
  map req_id
    (sent (final (Programmer.readChipBlocks 5 Scenarios.corrupting
                    Scenarios.catalog "TINY4" true initial)))
  = [1; 2; 3; 4] /\
  map req_id
    (sent (final (Programmer.writeChipBlocks 5 Scenarios.steady
                    Scenarios.catalog "TINY4" [1; 2; 3; 4] initial)))
  = [1; 2; 3].
Proof.
  destruct (request_ids_consecutive 5 Scenarios.corrupting Scenarios.catalog
              "TINY4" true [1; 2; 3; 4] initial numbered_initial)
    as ((_ & R) & _).
  destruct (request_ids_consecutive 5 Scenarios.steady Scenarios.catalog
              "TINY4" true [1; 2; 3; 4] initial numbered_initial)
    as (_ & _ & (_ & W) & _).
  split; [rewrite R | rewrite W]; reflexivity.
Defined.

End IdFacts.

(** ** programmer.js: reading from a device that answers every call *)

Module HonestRead.
Import JS Transfer ReadFacts WireFacts NumberFacts CountFacts UtilsFacts
  ChecksumFacts IdFacts.
Local Open Scope string_scope.
Local Open Scope list_scope.
Local Open Scope Z_scope.

(** What the device puts on the wire for a block: the bytes, followed by
    their sum modulo 256 when a checksum was asked for. *)
Definition framed (append_crc : bool) (block : Uint8Array) : Uint8Array :=
  if append_crc then block ++ [sum_bytes block mod 256] else block.

(** A device that is always reachable and answers
    programmer_read_block for block i with the base64 text of block
    [image i], framed as asked. *)
Definition serves (net : network) (append_crc : bool)
  (image : Z -> Uint8Array) : Prop :=
  (forall k, link_up net k = true) /\
  (forall i, is_Uint8Array (image i)) /\
  (forall id i,
      read_reply net
        {| req_id := id; req_method := "programmer_read_block";
           req_params := [("block_id", PNum i);
                          ("append_crc", PBool append_crc)] |}
      = Result (Base64.encode (framed append_crc (image i)))).

Lemma decode_encode (d : Uint8Array) :
  is_Uint8Array d -> Utils.base64ToUint8Array (Base64.encode d) = Some d.
Proof.
  intros H. unfold Utils.base64ToUint8Array.
  rewrite Base64Facts.atob_encode by assumption.
  f_equal. apply map_small; [|assumption].
  intros b Hb. unfold toUint8. now apply Z.mod_small.
Qed.

Lemma framed_bytes append_crc block :
  is_Uint8Array block -> is_Uint8Array (framed append_crc block).
Proof.
  intros H. unfold framed. destruct append_crc; [|assumption].
  apply is_Uint8Array_app. split; [assumption|].
  constructor; [|constructor]. unfold is_uint8. apply Z.mod_pos_bound. lia.
Qed.

Lemma framed_accepted append_crc block :
  is_Uint8Array block ->
  accepted append_crc (Returned (framed append_crc block)) = true /\
  read_yield append_crc (framed append_crc block) = block.
Proof.
  intros H. unfold accepted, read_yield, framed.
  destruct append_crc; [|now split]. split.
  - rewrite crc_matches_snoc, write_crc_sum by assumption.
    apply Z.eqb_refl.
  - now rewrite without_last_removelast, removelast_last.
Qed.

Lemma fetch_block_served net append_crc image i w :
  serves net append_crc image ->
  numbered w ->
  fst (fetch_block net i append_crc w)
  = Returned (framed append_crc (image i)).
Proof.
  intros (Up & Bytes & Reply) N. unfold fetch_block, bind.
  rewrite RPCCall_up by apply Up.
  unfold getRPCResponse_result. cbn [sent].
  rewrite (find_new (sent w) _ (rpcId w)) by
    first [reflexivity | now apply numbered_fresh].
  rewrite Reply, decode_encode by now apply framed_bytes.
  reflexivity.
Qed.

Lemma read_for_served net append_crc image num n :
  serves net append_crc image ->
  (forall i, lt (of_Z i) num = (i <? n)) ->
  forall (k : nat) fuel i out w,
    numbered w ->
    i + Z.of_nat k = n ->
    (k < fuel)%nat ->
    let r := read_for fuel net append_crc num i out w in
    ended r = Done /\
    yielded r = out ++ map (fun j => image (i + Z.of_nat j)) (seq 0 k).
Proof.
  intros Srv Hlt. induction k as [|k IH]; intros fuel i out w N Hi Hf;
    (destruct fuel as [|fuel]; [lia|]); cbv zeta.
  - cbn [read_for]. rewrite Hlt.
    destruct (Z.ltb_spec i n); [lia|]. cbn. now rewrite app_nil_r.
  - rewrite read_for_enter by (rewrite Hlt; apply Z.ltb_lt; lia).
    cbv zeta.
    pose proof (fetch_block_served net append_crc image i w Srv N) as F.
    destruct Srv as (Up & Bytes & Reply).
    destruct (framed_accepted append_crc (image i) (Bytes i)) as [A Y].
    rewrite <- F in A.
    destruct (read_while_first_accepted net i append_crc w A)
      as (data & D & ->).
    rewrite F in D. injection D as <-.
    cbn [fst snd valid blockData negb]. rewrite Y.
    specialize (IH fuel (i + 1) (out ++ [image i])
                  (snd (fetch_block net i append_crc w))).
    cbv zeta in IH.
    destruct IH as [E1 E2];
      [now apply fetch_block_numbered | lia | lia |].
    split; [exact E1|]. rewrite E2, <- app_assoc. f_equal.
    cbn [seq map app]. rewrite Z.add_0_r. f_equal.
    rewrite <- seq_shift, map_map. apply map_ext. intros j. f_equal. lia.
Qed.

(** Against a device that answers every call, [readChipBlocks] returns
    the device's blocks 0 .. capacity / size - 1, in order and
    byte for byte: with checksums the trailing byte is checked and
    stripped, without them the blocks are passed on as they come.  This
    holds for both copies of programmer.js. *)
Theorem read_returns_device_blocks (net : network) (append_crc : bool)
  (image : Z -> Uint8Array) (parts : list chip) (chipName : string)
  (chip : chip) (blockSize n : Z) (fuel : nat) (w : world)
  (method : string) :
  serves net append_crc image ->
  numbered w ->
  find_chip parts chipName = Some chip ->
  size_reply net (query w method) = Result blockSize ->
  blockSize <> 0 ->
  capacity chip = blockSize * n ->
  0 <= n ->
  (Z.to_nat n < fuel)%nat ->
  forall readChipBlocks,
  (method = "get_read_block_size" /\
   readChipBlocks = Programmer.readChipBlocks) \/
  (method = "get_transmit_packet_size" /\
   readChipBlocks = ProgrammerPackets.readChipBlocks) ->
  let r := readChipBlocks fuel net parts chipName append_crc w in
  ended r = Done /\
  yielded r = map (fun j => image (Z.of_nat j)) (seq 0 (Z.to_nat n)).
Proof.
  intros Srv N C R Hb Hcap Hn Hf readChipBlocks Hcopy.
  assert (G : let r := read_blocks fuel net append_crc
                         (count_via net parts chipName method) w in
              ended r = Done /\
              yielded r = map (fun j => image (Z.of_nat j))
                            (seq 0 (Z.to_nat n))).
  { cbv zeta. unfold read_blocks.
    rewrite (count_via_answered net parts chipName method chip blockSize w)
      by first [assumption | now apply numbered_fresh | apply Srv].
    destruct (div_exact blockSize n Hb) as (q & Hq & Hqn).
    rewrite Hcap, Hq.
    pose proof (read_for_served net append_crc image (Fin q) n Srv
                  (fun i => lt_integer i n q Hqn) (Z.to_nat n) fuel 0 []
                  {| rpcId := rpcId w + 1; calls := S (calls w);
                     sent := sent w ++ [query w method] |}) as H.
    cbv zeta in H. apply H; [|lia|assumption].
    pose proof (RPCCall_numbered net method [] w N) as N1.
    rewrite RPCCall_up in N1 by apply Srv. exact N1. }
  destruct Hcopy as [[-> ->] | [-> ->]]; exact G.
Qed.

(** A device holding the two blocks [10; 20] and [30; 40]. *)
Definition two_blocks (j : Z) : Uint8Array :=
  if j =? 0 then [10; 20] else [30; 40].

Definition honest : network :=
  {| link_up := fun _ => true;
     size_reply := fun _ => Result 2;
     read_reply := fun r =>
       match req_params r with
       | [(_, PNum i); _] =>
           Result (Base64.encode (framed true (two_blocks i)))
       | _ => NoResponse
       end;
     write_reply := fun _ => Result 0;
     erase_start_reply := fun _ => Result (Bool true);
     erase_done_reply := fun _ => Result true |}.

Lemma read_returns_device_blocks_witness :
  ended (Programmer.readChipBlocks 5 honest Scenarios.catalog "TINY4" true
           initial) = Done /\
  yielded (Programmer.readChipBlocks 5 honest Scenarios.catalog "TINY4" true
             initial) = [[10; 20]; [30; 40]].
Proof.
  apply (read_returns_device_blocks honest true two_blocks Scenarios.catalog
           "TINY4" Scenarios.tiny 2 2 5 initial "get_read_block_size").
  - split; [reflexivity|]. split; [|reflexivity].
    intros i. unfold two_blocks.
    destruct (i =? 0); repeat constructor; unfold is_uint8; lia.
  - exact numbered_initial.
  - reflexivity.
  - reflexivity.
  - discriminate.
  - reflexivity.
  - lia.
  - cbn. lia.
  - left. split; reflexivity.
Defined.

End HonestRead.

(** ** programmer.js: writing to a device that acknowledges every block *)

Module HonestWrite.
Import JS Transfer ReadFacts WireFacts NumberFacts CountFacts UtilsFacts
  ChecksumFacts IdFacts WriteFacts.
Local Open Scope string_scope.
Local Open Scope list_scope.
Local Open Scope Z_scope.

(** The j-th run of blockSize bytes of the file. *)
Definition chunk (fileData : Uint8Array) (blockSize j : Z) : Uint8Array :=
  firstn (Z.to_nat blockSize) (skipn (Z.to_nat (j * blockSize)) fileData).

(** What a request looks like apart from its id. *)
Definition wire (r : request) : string * list (string * param) :=
  (req_method r, req_params r).

Lemma relative_index_integer (len z : Z) (q : Q) :
  (q == inject_Z z)%Q ->
  relative_index len (Fin q)
  = if z <? 0 then Z.max (len + z) 0 else Z.min z len.
Proof.
  intros H. unfold relative_index.
  now rewrite (truncq_comp _ _ H), truncq_inject_Z.
Qed.

Lemma block_at_chunk (fileData : Uint8Array) (q : Q) (blockSize j : Z) :
  (q == inject_Z blockSize)%Q ->
  0 < blockSize -> 0 <= j ->
  (j + 1) * blockSize <= Z.of_nat (length fileData) ->
  block_at fileData (Fin q) j = chunk fileData blockSize j.
Proof.
  intros Hq Hb Hj Hlen. unfold block_at, slice, chunk, of_Z, mul, add.
  assert (E1 : (Qred (inject_Z j * q) == inject_Z (j * blockSize))%Q)
    by (rewrite Qred_correct, Hq, inject_Z_mult; reflexivity).
  assert (E2 : (Qred (Qred (inject_Z j * q) + q)
                == inject_Z (j * blockSize + blockSize))%Q)
    by (rewrite Qred_correct, E1, Hq, inject_Z_plus; reflexivity).
  rewrite (relative_index_integer _ _ _ E1),
    (relative_index_integer _ _ _ E2).
  destruct (Z.ltb_spec (j * blockSize) 0); [nia|].
  destruct (Z.ltb_spec (j * blockSize + blockSize) 0); [nia|].
  rewrite !Z.min_l by nia. f_equal. nia.
Qed.

Lemma Forall_firstn_of (A : Type) (P : A -> Prop) (n : nat) (l : list A) :
  Forall P l -> Forall P (firstn n l).
Proof.
  intros H. revert n. induction H as [|x l Hx Hl IH]; intros [|n];
    cbn [firstn]; auto.
Qed.

Lemma chunk_bytes fileData blockSize j :
  is_Uint8Array fileData -> is_Uint8Array (chunk fileData blockSize j).
Proof.
  intros H. unfold chunk, is_Uint8Array.
  now apply Forall_firstn_of, ResponseFacts.Forall_skipn_of.
Qed.

Lemma encode_bytes (a : Uint8Array) :
  is_Uint8Array a -> Utils.uint8ArrayToBase64 a = Some (Base64.encode a).
Proof.
  intros H. unfold Utils.uint8ArrayToBase64, Base64.btoa.
  rewrite fold_left_snoc. cbn [app].
  assert (Hc : map fromCharCode a = a).
  { apply map_small; [|assumption].
    intros b Hb. unfold fromCharCode. apply Z.mod_small. lia. }
  now rewrite Hc, octets_pass_btoa.
Qed.

(** A device that is always reachable and acknowledges every
    programmer_write_block. *)
Definition acknowledges (net : network) : Prop :=
  (forall k, link_up net k = true) /\
  (forall r, exists crc, write_reply net r = Result crc).

Lemma write_while_acked net params blockData w :
  acknowledges net ->
  write_while 3 net params blockData false 0 w
  = (true,
     {| rpcId := rpcId w + 1; calls := S (calls w);
        sent := sent w ++ [{| req_id := rpcId w + 1;
                              req_method := "programmer_write_block";
                              req_params := params (write_crc blockData) |}]
     |}).
Proof.
  intros [Up Ack]. cbn [write_while negb andb Z.ltb Z.compare].
  unfold bind. rewrite RPCCall_up by apply Up.
  unfold getRPCResponse_result. cbn [sent].
  destruct (Scenarios.find_some_new (sent w)
              {| req_id := rpcId w + 1;
                 req_method := "programmer_write_block";
                 req_params := params (write_crc blockData) |}
              (rpcId w + 1) eq_refl) as [r ->].
  destruct (Ack r) as [crc ->]. reflexivity.
Qed.

Lemma write_for_acked net params fileData q blockSize num n :
  acknowledges net ->
  is_Uint8Array fileData ->
  (q == inject_Z blockSize)%Q ->
  0 < blockSize ->
  Z.of_nat (length fileData) = blockSize * n ->
  (forall i, lt (of_Z i) num = (i <? n)) ->
  forall (k : nat) fuel blockId out w,
    0 <= blockId ->
    blockId + Z.of_nat k = n ->
    (k < fuel)%nat ->
    let r := write_for fuel net params fileData (Fin q) num blockId out w in
    ended r = Done /\
    yielded r = out ++ map (fun j => blockId + Z.of_nat j) (seq 0 k) /\
    map wire (sent (final r))
    = map wire (sent w)
      ++ map (fun j =>
                let block := chunk fileData blockSize (blockId + Z.of_nat j) in
                ("programmer_write_block",
                 params (blockId + Z.of_nat j) (Base64.encode block)
                   (write_crc block)))
           (seq 0 k).
Proof.
  intros Ack Bytes Hq Hb Hlen Hlt.
  induction k as [|k IH]; intros fuel blockId out w H0 Hk Hf;
    (destruct fuel as [|fuel]; [lia|]); cbv zeta.
  - cbn [write_for]. rewrite Hlt.
    destruct (Z.ltb_spec blockId n); [lia|]. cbn. now rewrite !app_nil_r.
  - cbn [write_for]. rewrite Hlt.
    destruct (Z.ltb_spec blockId n); [|lia].
    fold (block_at fileData (Fin q) blockId).
    rewrite (block_at_chunk fileData q blockSize blockId) by (auto; nia).
    rewrite encode_bytes by now apply chunk_bytes.
    rewrite write_while_acked by assumption. cbn [negb].
    specialize (IH fuel (blockId + 1) (out ++ [blockId])
                  {| rpcId := rpcId w + 1; calls := S (calls w);
                     sent := sent w
                       ++ [{| req_id := rpcId w + 1;
                              req_method := "programmer_write_block";
                              req_params :=
                                params blockId
                                  (Base64.encode
                                     (chunk fileData blockSize blockId))
                                  (write_crc
                                     (chunk fileData blockSize blockId)) |}]
                  |}).
    cbv zeta in IH. destruct IH as (E1 & E2 & E3); [lia|lia|lia|].
    split; [exact E1|]. split.
    + rewrite E2, <- app_assoc. f_equal. cbn [seq map app].
      rewrite Z.add_0_r. f_equal.
      rewrite <- seq_shift, map_map. apply map_ext. intros j. lia.
    + rewrite E3. cbn [sent]. rewrite map_app, <- app_assoc. f_equal.
      cbn [seq map app wire req_method req_params].
      rewrite Z.add_0_r. f_equal.
      rewrite <- seq_shift, map_map. apply map_ext. intros j.
      cbv zeta. now replace (blockId + 1 + Z.of_nat j)
                  with (blockId + Z.of_nat (S j)) by lia.
Qed.

Lemma length_is_multiple (len blockSize n : Z) :
  0 < blockSize -> len = blockSize * n -> 0 <= len ->
  negb (strict_eq (rem (of_Z len) (of_Z blockSize)) (of_Z 0)) = false.
Proof.
  intros Hb E Hlen. unfold of_Z at 2.
  rewrite (rem_is_zero len blockSize (inject_Z blockSize))
    by (reflexivity || lia).
  apply negb_false_iff, Z.eqb_eq.
  rewrite E, Z.mul_comm. apply Z.mod_mul. lia.
Qed.

Lemma chunks_concat (b : nat) :
  forall (n : nat) (l : list Z),
    length l = (b * n)%nat ->
    concat (map (fun j => firstn b (skipn (j * b) l)) (seq 0 n)) = l.
Proof.
  induction n as [|n IH]; intros l H.
  - rewrite Nat.mul_0_r in H. now destruct l.
  - cbn [seq map concat]. cbn [Nat.mul skipn].
    rewrite <- seq_shift, map_map.
    transitivity (firstn b l ++ skipn b l); [|apply firstn_skipn].
    f_equal.
    rewrite <- (IH (skipn b l)) by (rewrite length_skipn; lia).
    f_equal. apply map_ext. intros j.
    rewrite skipn_skipn. do 2 f_equal. lia.
Qed.

(** When the buffer is n whole blocks and the device acknowledges every
    write, [writeChipBlocks] yields 0, 1, ..., n - 1, and sends, after
    the block-size query, one programmer_write_block per block, in
    order, each carrying its index, the chip's page size, the base64
    text of that block's bytes and their sum modulo 256.  The blocks
    sent are consecutive runs of the file and together make up the file. *)
Theorem write_sends_every_block_once (fuel : nat) (net : network)
  (parts : list chip) (chipName : string) (chip : chip)
  (fileData : Uint8Array) (w : world) (blockSize n : Z) :
  acknowledges net ->
  numbered w ->
  size_reply net (query w "get_write_block_size") = Result blockSize ->
  0 < blockSize ->
  Z.of_nat (length fileData) = blockSize * n ->
  find_chip parts chipName = Some chip ->
  is_Uint8Array fileData ->
  (Z.to_nat n < fuel)%nat ->
  let r := Programmer.writeChipBlocks fuel net parts chipName fileData w in
  let blocks := map (fun j => chunk fileData blockSize (Z.of_nat j))
                  (seq 0 (Z.to_nat n)) in
  ended r = Done /\
  yielded r = map Z.of_nat (seq 0 (Z.to_nat n)) /\
  map wire (sent (final r))
  = map wire (sent w)
    ++ ("get_write_block_size", [])
       :: map (fun j =>
                 let block := chunk fileData blockSize (Z.of_nat j) in
                 ("programmer_write_block",
                  [("block_id", PNum (Z.of_nat j));
                   ("chip_page_size", PNum (page_size chip));
                   ("data", PStr (Base64.encode block));
                   ("crc", PNum (sum_bytes block mod 256))]))
            (seq 0 (Z.to_nat n)) /\
  concat blocks = fileData.
Proof.
  intros Ack N R Hb Hlen C Bytes Hf.
  assert (Hn : 0 <= n) by nia.
  destruct (div_exact blockSize n ltac:(lia)) as (q & Hq & Hqn).
  assert (Run : Programmer.writeChipBlocks fuel net parts chipName fileData w
                = write_for fuel net
                    (Programmer.write_params (page_size chip)) fileData
                    (of_Z blockSize) (Fin q) 0 []
                    {| rpcId := rpcId w + 1; calls := S (calls w);
                       sent := sent w ++ [query w "get_write_block_size"] |}).
  { unfold Programmer.writeChipBlocks, Programmer.getBlockSize.
    rewrite (answered_query Z net "get_write_block_size" (size_reply net)
               blockSize w) by first [assumption | now apply numbered_fresh
                                      | apply Ack].
    rewrite (length_is_multiple _ blockSize n) by (assumption || lia).
    now rewrite C, Hlen, Hq. }
  cbv zeta. rewrite Run. clear Run.
  pose proof (write_for_acked net (Programmer.write_params (page_size chip))
                fileData (inject_Z blockSize) blockSize (Fin q) n Ack Bytes
                ltac:(reflexivity) Hb Hlen (fun i => lt_integer i n q Hqn)
                (Z.to_nat n) fuel 0 []
                {| rpcId := rpcId w + 1; calls := S (calls w);
                   sent := sent w ++ [query w "get_write_block_size"] |})
    as H.
  cbv zeta in H. destruct H as (E1 & E2 & E3); [lia|lia|assumption|].
  fold (of_Z blockSize) in E1, E2, E3.
  split; [exact E1|]. split; [exact E2|]. split.
  - rewrite E3. cbn [sent]. rewrite map_app, <- app_assoc. f_equal.
    cbn [map app wire req_method req_params query]. f_equal.
    apply map_ext. intros j. cbv zeta. unfold Programmer.write_params.
    rewrite Z.add_0_l.
    now rewrite write_crc_sum by now apply chunk_bytes.
  - transitivity
      (concat (map (fun j => firstn (Z.to_nat blockSize)
                                (skipn (j * Z.to_nat blockSize) fileData))
                 (seq 0 (Z.to_nat n))));
      [|apply chunks_concat; nia].
    f_equal. apply map_ext. intros j. unfold chunk. do 2 f_equal. nia.
Qed.

Lemma write_sends_every_block_once_witness :
  yielded (Programmer.writeChipBlocks 5 Scenarios.steady Scenarios.catalog
             "TINY4" [1; 2; 3; 4] initial) = [0; 1] /\
  concat [chunk [1; 2; 3; 4] 2 0; chunk [1; 2; 3; 4] 2 1] = [1; 2; 3; 4].
Proof.
  destruct (write_sends_every_block_once 5 Scenarios.steady Scenarios.catalog
              "TINY4" Scenarios.tiny [1; 2; 3; 4] initial 2 2)
    as (_ & Y & _ & Cat).
  - split; [reflexivity|]. intros r. now exists 0.
  - exact numbered_initial.
  - reflexivity.
  - lia.
  - reflexivity.
  - reflexivity.
  - repeat constructor; unfold is_uint8; lia.
  - cbn. lia.
  - split; [exact Y | exact Cat].
Defined.

End HonestWrite.

(** ** programmer.js: retrying a block write *)

Module WriteRetry.
Import JS Transfer ReadFacts WireFacts WriteFacts.
Local Open Scope string_scope.
Local Open Scope list_scope.
Local Open Scope Z_scope.

(** The body of the [try] in writeChipBlocks. *)
Definition write_call (net : network) (params : Z -> list (string * param))
  (blockData : Uint8Array) : M Z :=
  rpcId <- RPCCall net "programmer_write_block"
             (params (write_crc blockData)) ;;
  getRPCResponse_result (write_reply net) rpcId.

(** The world after the k-th attempt to write a block, counted from w,
    and what the k-th attempt (k = 1, 2, 3) completes with. *)
Fixpoint write_after (net : network) (params : Z -> list (string * param))
  (blockData : Uint8Array) (k : nat) (w : world) : world :=
  match k with
  | O => w
  | S k' =>
      snd (write_call net params blockData
             (write_after net params blockData k' w))
  end.

Definition write_attempt (net : network)
  (params : Z -> list (string * param)) (blockData : Uint8Array)
  (k : nat) (w : world) : completion Z :=
  fst (write_call net params blockData
         (write_after net params blockData (Nat.pred k) w)).

Definition returned {A : Type} (c : completion A) : bool :=
  match c with Returned _ => true | Thrown _ => false end.

Lemma write_while_enter budget net params blockData written attempts w :
  negb written && (attempts <? 3) = true ->
  write_while (S budget) net params blockData written attempts w
  = write_while budget net params blockData
      (returned (fst (write_call net params blockData w)) || written)
      (attempts + 1)
      (snd (write_call net params blockData w)).
Proof.
  intros G. cbn [write_while]. rewrite G. fold (write_call net params blockData).
  now destruct (write_call net params blockData w) as [[a|e] w'].
Qed.

Lemma write_while_exit budget net params blockData attempts w :
  write_while budget net params blockData true attempts w = (true, w).
Proof. now destruct budget. Qed.

Lemma write_for_enter fuel net params fileData BLOCK_SIZE numBlocks blockId
  out w blockDataB64 :
  lt (of_Z blockId) numBlocks = true ->
  Utils.uint8ArrayToBase64 (block_at fileData BLOCK_SIZE blockId)
  = Some blockDataB64 ->
  write_for (S fuel) net params fileData BLOCK_SIZE numBlocks blockId out w
  = let r := write_while 3 net (params blockId blockDataB64)
               (block_at fileData BLOCK_SIZE blockId) false 0 w in
    if negb (fst r) then
      {| yielded := out; ended := Failed (FailedToWriteBlock blockId);
         final := snd r |}
    else
      write_for fuel net params fileData BLOCK_SIZE numBlocks (blockId + 1)
        (out ++ [blockId]) (snd r).
Proof.
  intros L E. cbn [write_for]. rewrite L.
  fold (block_at fileData BLOCK_SIZE blockId). rewrite E. cbv zeta.
  now destruct (write_while 3 net _ _ false 0 w) as [written w'].
Qed.

(** A block is written with at most three calls.  The first call that
    returns ends the attempts: the block index is yielded and the loop
    goes on with the next block.  When all three calls throw, the
    generator throws the error naming the block and yields nothing
    more. *)
Theorem write_block_attempts (fuel : nat) (net : network)
  (params : Z -> DOMString -> Z -> list (string * param))
  (fileData : Uint8Array) (BLOCK_SIZE numBlocks : number) (blockId : Z)
  (out : list Z) (w : world) (blockDataB64 : DOMString) :
  lt (of_Z blockId) numBlocks = true ->
  Utils.uint8ArrayToBase64 (block_at fileData BLOCK_SIZE blockId)
  = Some blockDataB64 ->
  let attempt :=
    write_attempt net (params blockId blockDataB64)
      (block_at fileData BLOCK_SIZE blockId) in
  let after :=
    write_after net (params blockId blockDataB64)
      (block_at fileData BLOCK_SIZE blockId) in
  (forall k,
      (1 <= k <= 3)%nat ->
      (forall j, (1 <= j < k)%nat -> returned (attempt j w) = false) ->
      returned (attempt k w) = true ->
      write_for (S fuel) net params fileData BLOCK_SIZE numBlocks blockId
        out w
      = write_for fuel net params fileData BLOCK_SIZE numBlocks (blockId + 1)
          (out ++ [blockId]) (after k w)) /\
  ((forall j, (1 <= j <= 3)%nat -> returned (attempt j w) = false) ->
   write_for (S fuel) net params fileData BLOCK_SIZE numBlocks blockId out w
   = {| yielded := out; ended := Failed (FailedToWriteBlock blockId);
        final := after 3%nat w |}).
Proof.
  intros L E attempt after.
  rewrite (write_for_enter fuel net params fileData BLOCK_SIZE numBlocks
             blockId out w blockDataB64 L E).
  cbv zeta. split.
  - intros k Hk Hfail Hok.
    assert (A1 := Hfail 1%nat). assert (A2 := Hfail 2%nat).
    unfold attempt, write_attempt in *. cbn [Nat.pred write_after] in *.
    rewrite write_while_enter by reflexivity.
    destruct k as [|[|[|[|k]]]]; try lia.
    + cbn [Nat.pred write_after] in Hok. rewrite Hok. cbn [orb].
      now rewrite write_while_exit.
    + rewrite A1 by lia. cbn [orb].
      rewrite write_while_enter by reflexivity.
      cbn [Nat.pred write_after] in Hok. rewrite Hok. cbn [orb].
      now rewrite write_while_exit.
    + rewrite A1 by lia. cbn [orb].
      rewrite write_while_enter by reflexivity.
      rewrite A2 by lia. cbn [orb].
      rewrite write_while_enter by reflexivity.
      cbn [Nat.pred write_after] in Hok. rewrite Hok. cbn [orb].
      now rewrite write_while_exit.
  - intros Hfail.
    assert (A1 := Hfail 1%nat ltac:(lia)).
    assert (A2 := Hfail 2%nat ltac:(lia)).
    assert (A3 := Hfail 3%nat ltac:(lia)).
    unfold attempt, write_attempt in *. cbn [Nat.pred write_after] in *.
    rewrite write_while_enter by reflexivity. rewrite A1. cbn [orb].
    rewrite write_while_enter by reflexivity. rewrite A2. cbn [orb].
    rewrite write_while_enter by reflexivity. rewrite A3. cbn [orb].
    reflexivity.
Qed.

(** The device drops the first two write requests (ids 1 and 2). *)
Definition deaf_twice : network :=
  {| link_up := fun _ => true;
     size_reply := fun _ => Result 2;
     read_reply := fun _ => Result Scenarios.AQE;
     write_reply := fun r => if req_id r <=? 2 then NoResponse else Result 0;
     erase_start_reply := fun _ => Result (Bool true);
     erase_done_reply := fun _ => Result true |}.

Lemma write_block_attempts_witness :
  yielded (write_for 2 deaf_twice (Programmer.write_params 2) [1; 2]
             (of_Z 2) (of_Z 1) 0 [] initial) = [0] /\
  length (sent (final (write_for 2 deaf_twice (Programmer.write_params 2)
                         [1; 2] (of_Z 2) (of_Z 1) 0 [] initial))) = 3%nat.
Proof.
  destruct (write_block_attempts 1 deaf_twice (Programmer.write_params 2)
              [1; 2] (of_Z 2) (of_Z 1) 0 [] initial [65; 81; 73; 61]
              eq_refl eq_refl) as [Ok _].
  rewrite (Ok 3%nat ltac:(lia)).
  - split; reflexivity.
  - intros j Hj. destruct j as [|[|[|j]]]; try lia; reflexivity.
  - reflexivity.
Defined.

End WriteRetry.

(** ** programmer.js: block sizes that do not divide, a block size of
       zero, and chips that are not in the catalog *)

Module EdgeFacts.
Import JS Transfer ReadFacts NumberFacts WireFacts CountFacts WriteFacts.
Local Open Scope string_scope.
Local Open Scope list_scope.
Local Open Scope Z_scope.

(** [i < capacity / blockSize] on numbers compares i * blockSize with
    the capacity: the quotient is not rounded. *)
Lemma lt_quotient (i capacity blockSize : Z) :
  0 < blockSize ->
  lt (of_Z i) (div (of_Z capacity) (of_Z blockSize))
  = (i * blockSize <? capacity).
Proof.
  intros B. unfold div, of_Z.
  rewrite (Qis_zero_integer (inject_Z blockSize) blockSize)
    by first [apply Qeq_refl | lia].
  unfold lt.
  assert (P : (0 < inject_Z blockSize)%Q).
  { change 0%Q with (inject_Z 0). now rewrite <- Zlt_Qlt. }
  destruct (Z.ltb_spec (i * blockSize) capacity) as [H|H].
  - destruct (Qle_bool (Qred (inject_Z capacity / inject_Z blockSize))
                (inject_Z i)) eqn:E; [|reflexivity].
    apply Qle_bool_iff in E. rewrite Qred_correct in E.
    apply (Qmult_le_compat_r _ _ (inject_Z blockSize)) in E;
      [|now apply Qlt_le_weak].
    rewrite (Qmult_comm (inject_Z capacity / inject_Z blockSize)) in E.
    rewrite Qmult_div_r in E
      by (intros Z0; rewrite Z0 in P; now apply (Qlt_irrefl 0)).
    rewrite <- inject_Z_mult, <- Zle_Qle in E. lia.
  - assert (E : Qle_bool (Qred (inject_Z capacity / inject_Z blockSize))
                  (inject_Z i) = true).
    { apply Qle_bool_iff. rewrite Qred_correct.
      apply Qle_shift_div_r; [exact P|].
      rewrite <- inject_Z_mult, <- Zle_Qle. exact H. }
    now rewrite E.
Qed.

Lemma below_rounded_up (i capacity blockSize : Z) :
  0 < blockSize ->
  (i * blockSize <? capacity) = (i <? (capacity + blockSize - 1) / blockSize).
Proof.
  intros B.
  pose proof (Z.div_mod (capacity + blockSize - 1) blockSize ltac:(lia)) as D.
  pose proof (Z.mod_pos_bound (capacity + blockSize - 1) blockSize B) as M.
  destruct (Z.ltb_spec (i * blockSize) capacity),
    (Z.ltb_spec i ((capacity + blockSize - 1) / blockSize));
    try reflexivity; nia.
Qed.

(** When the block size the device reports does not divide the chip's
    capacity, the block count is a fraction and the read loop runs while
    i * blockSize is below the capacity: with every block accepted it
    yields the quotient rounded up, so the last block read reaches past
    the end of the chip. *)
Theorem read_count_rounds_up (net : network) (append_crc : bool)
  (parts : list chip) (chipName : string) (chip : chip)
  (blockSize : Z) (fuel : nat) (w : world) (method : string) :
  fresh_ids w ->
  find_chip parts chipName = Some chip ->
  link_up net (calls w) = true ->
  size_reply net (query w method) = Result blockSize ->
  0 < blockSize ->
  0 <= capacity chip ->
  (forall i w,
      accepted append_crc (fst (fetch_block net i append_crc w)) = true) ->
  (Z.to_nat ((capacity chip + blockSize - 1) / blockSize) < fuel)%nat ->
  forall readChipBlocks,
  (method = "get_read_block_size" /\
   readChipBlocks = Programmer.readChipBlocks) \/
  (method = "get_transmit_packet_size" /\
   readChipBlocks = ProgrammerPackets.readChipBlocks) ->
  let r := readChipBlocks fuel net parts chipName append_crc w in
  ended r = Done /\
  Z.of_nat (length (yielded r)) = (capacity chip + blockSize - 1) / blockSize.
Proof.
  intros F C L R B Cap Hacc Hfuel readChipBlocks Which.
  assert (E : readChipBlocks fuel net parts chipName append_crc w
              = read_blocks fuel net append_crc
                  (count_via net parts chipName method) w).
  { destruct Which as [[-> ->]|[-> ->]].
    - unfold Programmer.readChipBlocks.
      now rewrite getNumberOfBlocksForChip_read.
    - unfold ProgrammerPackets.readChipBlocks.
      now rewrite getNumberOfTransmitPackets_via. }
  cbv zeta. rewrite E. unfold read_blocks.
  rewrite (count_via_answered net parts chipName method chip blockSize w
             F C L R).
  assert (N : 0 <= (capacity chip + blockSize - 1) / blockSize).
  { apply Z.div_pos; lia. }
  pose proof (read_for_all_accepted net append_crc
                (div (of_Z (capacity chip)) (of_Z blockSize))
                ((capacity chip + blockSize - 1) / blockSize)
                (fun i => eq_trans (lt_quotient i (capacity chip) blockSize B)
                            (below_rounded_up i (capacity chip) blockSize B))
                Hacc
                (Z.to_nat ((capacity chip + blockSize - 1) / blockSize))
                fuel 0 []
                {| rpcId := rpcId w + 1; calls := S (calls w);
                   sent := sent w ++ [query w method] |}) as H.
  cbv zeta in H. destruct H as [H1 H2]; [lia|assumption|].
  split; [exact H1|]. rewrite H2. cbn [length]. lia.
Qed.

(** A device with blocks of 3 bytes in front of the 4-byte chip. *)
Definition threes : network :=
  {| link_up := fun _ => true;
     size_reply := fun _ => Result 3;
     read_reply := fun _ => Result Scenarios.AQE;
     write_reply := fun _ => Result 0;
     erase_start_reply := fun _ => Result (Bool true);
     erase_done_reply := fun _ => Result false |}.

Lemma threes_accepts i w :
  accepted true (fst (fetch_block threes i true w)) = true.
Proof.
  unfold fetch_block, bind, RPCCall. cbn [link_up threes].
  unfold getRPCResponse_result. cbn [sent].
  destruct (Scenarios.find_some_new (sent w)
              {| req_id := rpcId w + 1;
                 req_method := "programmer_read_block";
                 req_params := [("block_id", PNum i);
                                ("append_crc", PBool true)] |}
              (rpcId w + 1) eq_refl) as [r ->].
  reflexivity.
Qed.

Lemma read_count_rounds_up_witness :
  ended (Programmer.readChipBlocks 5 threes Scenarios.catalog "TINY4" true
           initial) = Done /\
  Z.of_nat (length (yielded (Programmer.readChipBlocks 5 threes
                               Scenarios.catalog "TINY4" true initial)))
  = 2.
Proof.
  apply (read_count_rounds_up threes true Scenarios.catalog "TINY4"
           Scenarios.tiny 3 5 initial "get_read_block_size").
  - exact fresh_ids_initial.
  - reflexivity.
  - reflexivity.
  - reflexivity.
  - lia.
  - cbn. lia.
  - exact threes_accepts.
  - cbn. lia.
  - left. split; reflexivity.
Defined.

(** *** A block size of zero *)

Lemma read_for_unbounded net append_crc num :
  (forall i, lt (of_Z i) num = true) ->
  (forall i w,
      accepted append_crc (fst (fetch_block net i append_crc w)) = true) ->
  forall fuel i out w,
    let r := read_for fuel net append_crc num i out w in
    ended r = Unfinished /\ length (yielded r) = (length out + fuel)%nat.
Proof.
  intros Hlt Hacc. induction fuel as [|fuel IH]; intros i out w; cbv zeta.
  - cbn. split; [reflexivity|lia].
  - rewrite read_for_enter by apply Hlt. cbv zeta.
    destruct (read_while_first_accepted net i append_crc w (Hacc i w))
      as (data & _ & ->).
    cbn [fst snd valid blockData negb].
    specialize (IH (i + 1) (out ++ [read_yield append_crc data])
                  (snd (fetch_block net i append_crc w))).
    cbv zeta in IH. rewrite length_app in IH. cbn [length] in IH.
    destruct IH as [E1 E2]. split; [exact E1 | lia].
Qed.

(** When the device reports a block size of 0 for a chip of positive
    capacity, the block count is Infinity: the read loop's guard never
    fails, so with every block accepted the generator yields a block at
    every step and is still running after any number of steps. *)
Theorem zero_block_size_read_never_ends (net : network) (append_crc : bool)
  (parts : list chip) (chipName : string) (chip : chip)
  (w : world) (method : string) :
  fresh_ids w ->
  find_chip parts chipName = Some chip ->
  link_up net (calls w) = true ->
  size_reply net (query w method) = Result 0 ->
  0 < capacity chip ->
  (forall i w,
      accepted append_crc (fst (fetch_block net i append_crc w)) = true) ->
  forall readChipBlocks,
  (method = "get_read_block_size" /\
   readChipBlocks = Programmer.readChipBlocks) \/
  (method = "get_transmit_packet_size" /\
   readChipBlocks = ProgrammerPackets.readChipBlocks) ->
  forall fuel : nat,
    let r := readChipBlocks fuel net parts chipName append_crc w in
    ended r = Unfinished /\ length (yielded r) = fuel.
Proof.
  intros F C L R Cap Hacc readChipBlocks Which fuel.
  assert (E : readChipBlocks fuel net parts chipName append_crc w
              = read_blocks fuel net append_crc
                  (count_via net parts chipName method) w).
  { destruct Which as [[-> ->]|[-> ->]].
    - unfold Programmer.readChipBlocks.
      now rewrite getNumberOfBlocksForChip_read.
    - unfold ProgrammerPackets.readChipBlocks.
      now rewrite getNumberOfTransmitPackets_via. }
  cbv zeta. rewrite E. unfold read_blocks.
  rewrite (count_via_answered net parts chipName method chip 0 w F C L R).
  assert (D : div (of_Z (capacity chip)) (of_Z 0) = PInf).
  { unfold div, of_Z, Qis_zero, Qsign_pos. cbn [inject_Z Qnum].
    destruct (Z.eqb_spec (capacity chip) 0); [lia|].
    destruct (Z.ltb_spec 0 (capacity chip)); [reflexivity|lia]. }
  rewrite D.
  apply (read_for_unbounded net append_crc PInf (fun i => eq_refl) Hacc).
Qed.

(** A device that reports blocks of 0 bytes. *)
Definition zeroes : network :=
  {| link_up := fun _ => true;
     size_reply := fun _ => Result 0;
     read_reply := fun _ => Result Scenarios.AQE;
     write_reply := fun _ => Result 0;
     erase_start_reply := fun _ => Result (Bool true);
     erase_done_reply := fun _ => Result false |}.

Lemma zeroes_accepts i w :
  accepted true (fst (fetch_block zeroes i true w)) = true.
Proof.
  unfold fetch_block, bind, RPCCall. cbn [link_up zeroes].
  unfold getRPCResponse_result. cbn [sent].
  destruct (Scenarios.find_some_new (sent w)
              {| req_id := rpcId w + 1;
                 req_method := "programmer_read_block";
                 req_params := [("block_id", PNum i);
                                ("append_crc", PBool true)] |}
              (rpcId w + 1) eq_refl) as [r ->].
  reflexivity.
Qed.

Lemma zero_block_size_read_never_ends_witness :
  ended (ProgrammerPackets.readChipBlocks 9 zeroes Scenarios.catalog "TINY4"
           true initial) = Unfinished /\
  length (yielded (ProgrammerPackets.readChipBlocks 9 zeroes
                     Scenarios.catalog "TINY4" true initial)) = 9%nat.
Proof.
  apply (zero_block_size_read_never_ends zeroes true Scenarios.catalog
           "TINY4" Scenarios.tiny initial "get_transmit_packet_size").
  - exact fresh_ids_initial.
  - reflexivity.
  - reflexivity.
  - reflexivity.
  - cbn. lia.
  - exact zeroes_accepts.
  - right. split; reflexivity.
Defined.

(** With a reported block size of 0 the length check of writeChipBlocks
    compares NaN with 0 and fails for every file, the empty one
    included: the generator throws the length error and the size query
    is the only request it has sent. *)
Theorem zero_block_size_write_rejected (fuel : nat) (net : network)
  (parts : list chip) (chipName : string) (chip : chip)
  (fileData : Uint8Array) (w : world) (method : string) :
  fresh_ids w ->
  find_chip parts chipName = Some chip ->
  link_up net (calls w) = true ->
  size_reply net (query w method) = Result 0 ->
  0 < capacity chip ->
  forall writeChipBlocks,
  (method = "get_write_block_size" /\
   writeChipBlocks = Programmer.writeChipBlocks) \/
  (method = "get_receive_packet_size" /\
   writeChipBlocks = ProgrammerPackets.writeChipBlocks) ->
  writeChipBlocks fuel net parts chipName fileData w
  = {| yielded := [];
       ended := Failed (DataLengthNotMultiple (Z.of_nat (length fileData))
                          (of_Z 0));
       final := after_query w method |}.
Proof.
  intros F C L R Cap writeChipBlocks [[-> ->]|[-> ->]].
  - unfold Programmer.writeChipBlocks, Programmer.getBlockSize.
    rewrite (answered_query Z net "get_write_block_size" (size_reply net)
               0 w F L R).
    reflexivity.
  - unfold ProgrammerPackets.writeChipBlocks. rewrite C.
    rewrite getNumberOfReceivePackets_via.
    rewrite (count_via_answered net parts chipName "get_receive_packet_size"
               chip 0 w F C L R).
    assert (D : div (of_Z (capacity chip)) (of_Z 0) = PInf).
    { unfold div, of_Z, Qis_zero, Qsign_pos. cbn [inject_Z Qnum].
      destruct (Z.eqb_spec (capacity chip) 0); [lia|].
      destruct (Z.ltb_spec 0 (capacity chip)); [reflexivity|lia]. }
    rewrite D. reflexivity.
Qed.

Lemma zero_block_size_write_rejected_witness :
  Programmer.writeChipBlocks 5 zeroes Scenarios.catalog "TINY4" [] initial
  = {| yielded := [];
       ended := Failed (DataLengthNotMultiple 0 (of_Z 0));
       final := after_query initial "get_write_block_size" |}.
Proof.
  apply (zero_block_size_write_rejected 5 zeroes Scenarios.catalog "TINY4"
           Scenarios.tiny [] initial "get_write_block_size").
  - exact fresh_ids_initial.
  - reflexivity.
  - reflexivity.
  - reflexivity.
  - cbn. lia.
  - left. split; reflexivity.
Defined.

(** *** A chip that is not in the catalog *)

(** For a chip name the catalog does not hold, both readChipBlocks throw
    the chip-not-found error and the first writeChipBlocks a TypeError,
    all three before any request is sent.  The second writeChipBlocks
    looks the chip up only after the size query and the length check:
    it yields nothing, never ends normally, sends nothing but the size
    query, and throws the TypeError exactly when that query was answered
    and the length check passed. *)
Theorem unknown_chip (fuel : nat) (net : network) (parts : list chip)
  (chipName : string) (append_crc : bool) (fileData : Uint8Array)
  (w : world) :
  find_chip parts chipName = None ->
  Programmer.readChipBlocks fuel net parts chipName append_crc w
  = {| yielded := []; ended := Failed (ChipNotFound chipName); final := w |}
  /\
  ProgrammerPackets.readChipBlocks fuel net parts chipName append_crc w
  = {| yielded := []; ended := Failed (ChipNotFound chipName); final := w |}
  /\
  ProgrammerPackets.writeChipBlocks fuel net parts chipName fileData w
  = {| yielded := []; ended := Failed TypeError; final := w |}
  /\
  let r := Programmer.writeChipBlocks fuel net parts chipName fileData w in
  yielded r = [] /\
  final r = snd (Programmer.getBlockSize net false w) /\
  extends (fun q => req_method q = "get_write_block_size") w (final r) /\
  (exists e, ended r = Failed e) /\
  (ended r = Failed TypeError <->
   exists blockSize,
     fst (Programmer.getBlockSize net false w) = Returned blockSize /\
     strict_eq (rem (of_Z (Z.of_nat (length fileData))) (of_Z blockSize))
       (of_Z 0) = true).
Proof.
  intros C.
  split; [|split; [|split]].
  - unfold Programmer.readChipBlocks, read_blocks,
      Programmer.getNumberOfBlocksForChip. now rewrite C.
  - unfold ProgrammerPackets.readChipBlocks, read_blocks,
      ProgrammerPackets.getNumberOfTransmitPackets. now rewrite C.
  - unfold ProgrammerPackets.writeChipBlocks. now rewrite C.
  - cbv zeta. pose proof (getBlockSize_extends net w) as X.
    unfold Programmer.writeChipBlocks.
    assert (G : forall e,
               fst (Programmer.getBlockSize net false w)
               = Thrown e -> e <> TypeError).
    { intros e. unfold Programmer.getBlockSize.
      destruct ((rpcIdBlockSize <- RPCCall net "get_write_block_size" [] ;;
                 getRPCResponse_result (size_reply net) rpcIdBlockSize) w)
        as [[a|e'] w1]; cbn [fst]; [discriminate|].
      intros [= <-]. discriminate. }
    destruct (Programmer.getBlockSize net false w) as [[blockSize|e] w1];
      cbn [fst snd] in *.
    + destruct (strict_eq (rem (of_Z (Z.of_nat (length fileData)))
                             (of_Z blockSize)) (of_Z 0)) eqn:S0;
        cbn [negb]; rewrite ?C; cbn [yielded final ended].
      * repeat split; try assumption; try reflexivity.
        -- now eexists.
        -- intros _. exists blockSize. now split.
      * repeat split; try assumption; try reflexivity.
        -- now eexists.
        -- discriminate.
        -- intros (b & [= <-] & Hb). congruence.
    + cbn [yielded final ended].
      repeat split; try assumption; try reflexivity.
      * now eexists.
      * intros [= ->]. exfalso. now apply (G TypeError).
      * intros (b & Hb & _). discriminate.
Qed.

Lemma unknown_chip_witness :
  Programmer.readChipBlocks 5 Scenarios.steady Scenarios.catalog "NOPE" true
    initial
  = {| yielded := []; ended := Failed (ChipNotFound "NOPE");
       final := initial |} /\
  ended (Programmer.writeChipBlocks 5 Scenarios.steady Scenarios.catalog
           "NOPE" [1; 2] initial) = Failed TypeError.
Proof.
  destruct (unknown_chip 5 Scenarios.steady Scenarios.catalog "NOPE" true
              [1; 2] initial eq_refl) as (R1 & _ & _ & _ & _ & _ & _ & T).
  split; [exact R1|].
  apply T. exists 2. split; reflexivity.
Defined.

(** *** Nothing is written before the checks *)

(** A programmer_write_block request goes out only after the checks at
    the head of writeChipBlocks have passed: the block size was
    retrieved, the length of the data is a multiple of it, and the chip
    is in the catalog. *)
Theorem writes_only_after_checks (fuel : nat) (net : network)
  (parts : list chip) (chipName : string) (fileData : Uint8Array)
  (w : world) (new : list request) (q : request) :
  sent (final (Programmer.writeChipBlocks fuel net parts chipName fileData
                 w)) = sent w ++ new ->
  In q new ->
  req_method q = "programmer_write_block" ->
  exists blockSize chip,
    fst (Programmer.getBlockSize net false w) = Returned blockSize /\
    strict_eq (rem (of_Z (Z.of_nat (length fileData))) (of_Z blockSize))
      (of_Z 0) = true /\
    find_chip parts chipName = Some chip.
Proof.
  intros E I Mq.
  pose proof (getBlockSize_extends net w) as (new0 & E0 & P0).
  assert (Only : sent (final (Programmer.writeChipBlocks fuel net parts
                                chipName fileData w))
                 = sent (snd (Programmer.getBlockSize net false w)) ->
                 False).
  { intros Same. rewrite E, E0 in Same. apply app_inv_head in Same.
    subst new0. rewrite Forall_forall in P0. specialize (P0 q I).
    rewrite Mq in P0. discriminate. }
  unfold Programmer.writeChipBlocks in *.
  destruct (Programmer.getBlockSize net false w) as [[blockSize|e] w1];
    cbn [fst snd] in *; [|now destruct Only].
  destruct (strict_eq (rem (of_Z (Z.of_nat (length fileData)))
                         (of_Z blockSize)) (of_Z 0)) eqn:S0;
    cbn [negb] in *; [|now destruct Only].
  destruct (find_chip parts chipName) as [chip|]; [|now destruct Only].
  exists blockSize, chip. now repeat split.
Qed.

Lemma writes_only_after_checks_witness :
  exists blockSize chip,
    fst (Programmer.getBlockSize Scenarios.steady false initial)
    = Returned blockSize /\
    strict_eq (rem (of_Z (Z.of_nat (length [1; 2]))) (of_Z blockSize))
      (of_Z 0) = true /\
    find_chip Scenarios.catalog "TINY4" = Some chip.
Proof.
  apply (writes_only_after_checks 5 Scenarios.steady Scenarios.catalog
           "TINY4" [1; 2] initial
           [ {| req_id := 1; req_method := "get_write_block_size";
                req_params := [] |};
             {| req_id := 2; req_method := "programmer_write_block";
                req_params := Programmer.write_params 2 0 [65; 81; 73; 61] 3
             |} ]
           {| req_id := 2; req_method := "programmer_write_block";
              req_params := Programmer.write_params 2 0 [65; 81; 73; 61] 3
           |}).
  - reflexivity.
  - right. left. reflexivity.
  - reflexivity.
Defined.

End EdgeFacts.

(* ================================================================== *)
(** ** webserver/dom_manager.js: the dump and flash buttons *)

Module DomTransfer.
Import JS Transfer.
Local Open Scope string_scope.
Local Open Scope list_scope.
Local Open Scope Z_scope.

(** What a handler does to the page.  [ProgressOf count total] is the
    width [Math.floor((count / total) * 100)] percent, kept as the two
    operands; the two completion messages are kept as the byte count
    they print. *)
Inductive action :=
| LogSet (text : string)
| LogAppend (text : string)
| LogDumpComplete (bytes : Z)
| LogFlashComplete (bytes : Z)
| ProgressWidth (percent : Z)
| ProgressOf (count : Z) (total : number)
| Download (bytes : Uint8Array) (filename mime : string).

(** The body of [for await (const blockData of readChipBlocks(...))];
    the state is [fullChipData], [blockIndex] and the page actions so
    far. *)
Definition dump_step (totalBlocks : number)
  (st : Uint8Array * Z * list action) (blockData : Uint8Array)
  : Uint8Array * Z * list action :=
  let '(fullChipData, blockIndex, acts) := st in
  let blockIndex' := blockIndex + 1 in
  (Utils.joinUint8Arrays fullChipData blockData, blockIndex',
   acts ++ [ProgressOf blockIndex' totalBlocks]).

(** The click listener of the dump button; None while the generator has
    not come to an end. *)
Definition dump_click (fuel : nat) (net : network) (parts : list chip)
  (chipName : string) (w : world) : option (list action * world) :=
  let opening := [LogSet "Dumping..."; ProgressWidth 0] in
  let caught := [LogSet "Error dumping chip data."; ProgressWidth 100] in
  match ProgrammerPackets.getNumberOfTransmitPackets net parts chipName w with
  | (Thrown _, w1) => Some (opening ++ caught, w1)
  | (Returned totalBlocks, w1) =>
      let r := ProgrammerPackets.readChipBlocks fuel net parts chipName true
                 w1 in
      let '(fullChipData, _, acts) :=
        fold_left (dump_step totalBlocks) (yielded r) ([], 0, opening) in
      match ended r with
      | Unfinished => None
      | Failed _ => Some (acts ++ caught, final r)
      | Done =>
          Some (acts ++ [Download fullChipData "dump.bin"
                           "application/octet-stream";
                         LogDumpComplete (Z.of_nat (length fullChipData));
                         ProgressWidth 100],
                final r)
      end
  end.

(** The body of [for await (const blockId of writeChipBlocks(...))]; the
    state is [sentPackets] and the page actions so far. *)
Definition flash_step (totalPackets : number) (st : Z * list action)
  (blockId : Z) : Z * list action :=
  let '(sentPackets, acts) := st in
  let sentPackets' := sentPackets + 1 in
  (sentPackets',
   acts ++ [LogAppend "."; ProgressOf sentPackets' totalPackets]).

(** The click listener of the flash button; [upload] is what
    [triggerUint8Upload()] settles with, None when it rejects. *)
Definition flash_click (fuel : nat) (net : network) (parts : list chip)
  (chipName : string) (upload : option Uint8Array) (w : world)
  : option (list action * world) :=
  let opening := [LogSet "Flashing..."; ProgressWidth 0] in
  let caught := [LogSet "Error flashing chip data."; ProgressWidth 100] in
  match upload with
  | None => Some (opening ++ caught, w)
  | Some fileData =>
      match ProgrammerPackets.getNumberOfReceivePackets net parts chipName
              w with
      | (Thrown _, w1) => Some (opening ++ caught, w1)
      | (Returned totalPackets, w1) =>
          let r := ProgrammerPackets.writeChipBlocks fuel net parts chipName
                     fileData w1 in
          let '(_, acts) :=
            fold_left (flash_step totalPackets) (yielded r) (0, opening) in
          match ended r with
          | Unfinished => None
          | Failed _ => Some (acts ++ caught, final r)
          | Done =>
              Some (acts ++ [LogFlashComplete (Z.of_nat (length fileData));
                             ProgressWidth 100],
                    final r)
          end
      end
  end.

End DomTransfer.

Module DomTransferFacts.
Import JS Transfer DomTransfer ReadFacts WireFacts NumberFacts CountFacts
  UtilsFacts IdFacts WriteFacts HonestRead HonestWrite.
Local Open Scope string_scope.
Local Open Scope list_scope.
Local Open Scope Z_scope.

Lemma dump_steps totalBlocks (blocks : list Uint8Array) :
  forall data k acts,
    fold_left (dump_step totalBlocks) blocks (data, k, acts)
    = (data ++ concat blocks, k + Z.of_nat (length blocks),
       acts ++ map (fun j => ProgressOf (k + Z.of_nat j + 1) totalBlocks)
                 (seq 0 (length blocks))).
Proof.
  induction blocks as [|b blocks IH]; intros data k acts.
  - cbn. now rewrite !app_nil_r, Z.add_0_r.
  - cbn [fold_left dump_step length concat].
    unfold Utils.joinUint8Arrays. rewrite IH.
    f_equal; [f_equal; [now rewrite app_assoc | rewrite Nat2Z.inj_succ; lia]|].
    rewrite <- app_assoc. f_equal.
    cbn [seq map app]. f_equal; [f_equal; lia|].
    rewrite <- seq_shift, map_map. apply map_ext. intros j. f_equal. lia.
Qed.

Lemma flash_steps totalPackets (ids : list Z) :
  forall k acts,
    fold_left (flash_step totalPackets) ids (k, acts)
    = (k + Z.of_nat (length ids),
       acts ++ concat (map (fun j => [LogAppend ".";
                                      ProgressOf (k + Z.of_nat j + 1)
                                        totalPackets])
                         (seq 0 (length ids)))).
Proof.
  induction ids as [|b ids IH]; intros k acts.
  - cbn. now rewrite !app_nil_r, Z.add_0_r.
  - cbn [fold_left flash_step length]. rewrite IH.
    rewrite <- !app_assoc. f_equal; [lia|]. f_equal.
    cbn [seq map concat app]. do 2 f_equal; [f_equal; lia|].
    rewrite <- seq_shift, map_map. f_equal. apply map_ext. intros j.
    do 3 f_equal. lia.
Qed.

(** The world once two parameterless requests have gone out. *)
Definition after_two (w : world) (method : string) : world :=
  after_query (after_query w method) method.

Lemma after_query_numbered w method :
  numbered w -> numbered (after_query w method).
Proof.
  intros [R E]. split; cbn [after_query rpcId sent].
  - rewrite length_app. cbn [length]. lia.
  - rewrite length_app, map_app, E. cbn [length map query req_id].
    rewrite Nat.add_1_r, seq_S, map_app. cbn [map]. do 3 f_equal. lia.
Qed.

(** Pressing dump against a device that answers every call: the page
    shows one progress step per block and then the download of the
    device's blocks 0 .. capacity / size - 1 joined in order, under the
    name dump.bin, with the byte count of that image in the log. *)
Theorem dump_downloads_device_image (net : network)
  (image : Z -> Uint8Array) (parts : list chip) (chipName : string)
  (chip : chip) (blockSize n : Z) (fuel : nat) (w : world) :
  serves net true image ->
  numbered w ->
  find_chip parts chipName = Some chip ->
  (forall r, size_reply net r = Result blockSize) ->
  blockSize <> 0 ->
  capacity chip = blockSize * n ->
  0 <= n ->
  (Z.to_nat n < fuel)%nat ->
  let bytes := concat (map (fun j => image (Z.of_nat j))
                         (seq 0 (Z.to_nat n))) in
  let totalBlocks := div (of_Z (capacity chip)) (of_Z blockSize) in
  exists w',
    dump_click fuel net parts chipName w
    = Some ([LogSet "Dumping..."; ProgressWidth 0]
            ++ map (fun j => ProgressOf (Z.of_nat j + 1) totalBlocks)
                 (seq 0 (Z.to_nat n))
            ++ [Download bytes "dump.bin" "application/octet-stream";
                LogDumpComplete (Z.of_nat (length bytes));
                ProgressWidth 100],
            w') /\
    strict_eq totalBlocks (of_Z n) = true.
Proof.
  intros Srv N C R Hb Hcap Hn Hf. cbv zeta.
  assert (Up : forall k, link_up net k = true) by apply Srv.
  unfold dump_click.
  rewrite getNumberOfTransmitPackets_via.
  rewrite (count_via_answered net parts chipName "get_transmit_packet_size"
             chip blockSize w)
    by first [assumption | now apply numbered_fresh | apply Up | apply R].
  fold (after_query w "get_transmit_packet_size").
  pose proof (after_query_numbered w "get_transmit_packet_size" N) as N1.
  unfold ProgrammerPackets.readChipBlocks, read_blocks.
  rewrite getNumberOfTransmitPackets_via.
  rewrite (count_via_answered net parts chipName "get_transmit_packet_size"
             chip blockSize (after_query w "get_transmit_packet_size"))
    by first [assumption | now apply numbered_fresh | apply Up | apply R].
  fold (after_query (after_query w "get_transmit_packet_size")
          "get_transmit_packet_size").
  pose proof (after_query_numbered _ "get_transmit_packet_size" N1) as N2.
  destruct (div_exact blockSize n Hb) as (q & Hq & Hqn).
  rewrite Hcap, Hq.
  pose proof (read_for_served net true image (Fin q) n Srv
                (fun i => lt_integer i n q Hqn) (Z.to_nat n) fuel 0 []
                _ N2) as H.
  cbv zeta in H. destruct H as [E1 E2]; [lia|assumption|].
  rewrite E1, E2. cbn [app]. rewrite dump_steps.
  rewrite length_map, length_seq. cbn [app].
  eexists. split; [|now apply strict_eq_integer].
  reflexivity.
Qed.

Lemma dump_downloads_device_image_witness :
  exists w',
    dump_click 5 honest Scenarios.catalog "TINY4" initial
    = Some ([LogSet "Dumping..."; ProgressWidth 0;
             ProgressOf 1 (of_Z 2); ProgressOf 2 (of_Z 2);
             Download [10; 20; 30; 40] "dump.bin" "application/octet-stream";
             LogDumpComplete 4; ProgressWidth 100], w').
Proof.
  destruct (dump_downloads_device_image honest two_blocks Scenarios.catalog
              "TINY4" Scenarios.tiny 2 2 5 initial) as (w' & E & _).
  - split; [reflexivity|]. split; [|reflexivity].
    intros i. unfold two_blocks.
    destruct (i =? 0); repeat constructor; unfold is_uint8; lia.
  - exact numbered_initial.
  - reflexivity.
  - reflexivity.
  - discriminate.
  - reflexivity.
  - lia.
  - cbn. lia.
  - exists w'. exact E.
Defined.

(** Whatever the device does, the dump handler hands a file to the
    browser only when the generator came to its end, and the file is
    then every block it yielded, joined in order; in every other case
    the page shows the error text and nothing is downloaded. *)
Theorem dump_never_downloads_part (fuel : nat) (net : network)
  (parts : list chip) (chipName : string) (w : world)
  (acts : list action) (w' : world) :
  dump_click fuel net parts chipName w = Some (acts, w') ->
  (exists totalBlocks w1 before,
      ProgrammerPackets.getNumberOfTransmitPackets net parts chipName w
      = (Returned totalBlocks, w1) /\
      let r := ProgrammerPackets.readChipBlocks fuel net parts chipName true
                 w1 in
      ended r = Done /\
      acts = before
             ++ [Download (concat (yielded r)) "dump.bin"
                   "application/octet-stream";
                 LogDumpComplete (Z.of_nat (length (concat (yielded r))));
                 ProgressWidth 100] /\
      forall bytes filename mime, ~ In (Download bytes filename mime) before)
  \/
  (exists before,
      acts = before ++ [LogSet "Error dumping chip data."; ProgressWidth 100]
      /\ forall bytes filename mime, ~ In (Download bytes filename mime) acts).
Proof.
  unfold dump_click.
  assert (NoD : forall total n k bytes filename mime,
             ~ In (Download bytes filename mime)
                 ([LogSet "Dumping..."; ProgressWidth 0]
                  ++ map (fun j => ProgressOf (k + Z.of_nat j + 1) total)
                       (seq 0 n))).
  { intros total n k bytes filename mime I. apply in_app_or in I.
    destruct I as [[I|[I|[]]]|I]; try discriminate.
    apply in_map_iff in I. destruct I as (j & I & _). discriminate. }
  destruct (ProgrammerPackets.getNumberOfTransmitPackets net parts chipName w)
    as [[totalBlocks|e] w1].
  - cbv zeta. rewrite dump_steps.
    set (r := ProgrammerPackets.readChipBlocks fuel net parts chipName true
                w1).
    set (before := [LogSet "Dumping..."; ProgressWidth 0]
                   ++ map (fun j => ProgressOf (0 + Z.of_nat j + 1)
                                      totalBlocks)
                        (seq 0 (length (yielded r)))).
    assert (B : forall bytes filename mime,
               ~ In (Download bytes filename mime) before).
    { intros bytes filename mime. apply NoD. }
    destruct (ended r) eqn:End; [| |discriminate].
    + intros [= <- <-]. left.
      exists totalBlocks, w1, before. split; [reflexivity|].
      split; [exact End|]. split; [reflexivity|]. exact B.
    + intros [= <- <-]. right. exists before. split; [reflexivity|].
      intros bytes filename mime I.
      change (In (Download bytes filename mime)
                (before ++ [LogSet "Error dumping chip data.";
                            ProgressWidth 100])) in I.
      apply in_app_or in I. destruct I as [I|[I|[I|[]]]]; try discriminate.
      now apply B in I.
  - intros [= <- <-]. right. exists [LogSet "Dumping..."; ProgressWidth 0].
    split; [reflexivity|].
    intros bytes filename mime [I|[I|[I|[I|[]]]]]; discriminate.
Qed.

Lemma dump_never_downloads_part_witness :
  dump_click 5 Scenarios.corrupting Scenarios.catalog "TINY4" initial
  = Some ([LogSet "Dumping..."; ProgressWidth 0;
           LogSet "Error dumping chip data."; ProgressWidth 100],
          final (ProgrammerPackets.readChipBlocks 5 Scenarios.corrupting
                   Scenarios.catalog "TINY4" true
                   (after_query initial "get_transmit_packet_size"))) /\
  exists before,
    [LogSet "Dumping..."; ProgressWidth 0;
     LogSet "Error dumping chip data."; ProgressWidth 100]
    = before ++ [LogSet "Error dumping chip data."; ProgressWidth 100].
Proof.
  split; [reflexivity|].
  destruct (dump_never_downloads_part 5 Scenarios.corrupting
              Scenarios.catalog "TINY4" initial
              [LogSet "Dumping..."; ProgressWidth 0;
               LogSet "Error dumping chip data."; ProgressWidth 100]
              (final (ProgrammerPackets.readChipBlocks 5 Scenarios.corrupting
                        Scenarios.catalog "TINY4" true
                        (after_query initial "get_transmit_packet_size")))
              eq_refl) as [(t & w1 & b & G & D & _)|(b & E & No)].
  - vm_compute in G. injection G as <- <-. vm_compute in D. discriminate D.
  - exists b. exact E.
Defined.

(** [len / BLOCK_SIZE] when BLOCK_SIZE has the value blockSize and
    blockSize divides len. *)
Lemma div_by_integer (len blockSize n : Z) (q : Q) :
  (q == inject_Z blockSize)%Q -> blockSize <> 0 -> len = blockSize * n ->
  exists q', div (of_Z len) (Fin q) = Fin q' /\ (q' == inject_Z n)%Q.
Proof.
  intros Hq Hb ->. unfold div, of_Z.
  rewrite (Qis_zero_integer q blockSize) by assumption.
  eexists. split; [reflexivity|].
  rewrite Qred_correct, Hq, inject_Z_mult.
  field. intros E. apply (inject_Z_injective blockSize 0) in E. contradiction.
Qed.

(** Pressing flash with a file of n whole blocks against a device that
    acknowledges every write and reports a packet size that divides the
    chip's capacity (so that capacity / (capacity / size) is the size
    again, without rounding): after the two size queries (one by the
    handler, one by the generator) the file goes out block by block, in
    order, each request carrying the block's index, base64 text and byte
    sum modulo 256; the page gets a dot and a progress step per block
    and ends on the completion message with the file's length. *)
Theorem flash_writes_whole_file (fuel : nat) (net : network)
  (parts : list chip) (chipName : string) (chip : chip)
  (fileData : Uint8Array) (w : world) (blockSize n packets : Z) :
  acknowledges net ->
  numbered w ->
  find_chip parts chipName = Some chip ->
  (forall r, size_reply net r = Result blockSize) ->
  0 < blockSize ->
  capacity chip = blockSize * packets ->
  capacity chip <> 0 ->
  Z.of_nat (length fileData) = blockSize * n ->
  is_Uint8Array fileData ->
  (Z.to_nat n < fuel)%nat ->
  let totalPackets := div (of_Z (capacity chip)) (of_Z blockSize) in
  exists w',
    flash_click fuel net parts chipName (Some fileData) w
    = Some ([LogSet "Flashing..."; ProgressWidth 0]
            ++ concat (map (fun j => [LogAppend ".";
                                      ProgressOf (Z.of_nat j + 1)
                                        totalPackets])
                         (seq 0 (Z.to_nat n)))
            ++ [LogFlashComplete (Z.of_nat (length fileData));
                ProgressWidth 100],
            w') /\
    map wire (sent w')
    = map wire (sent w)
      ++ [("get_receive_packet_size", []); ("get_receive_packet_size", [])]
      ++ map (fun j =>
                let block := chunk fileData blockSize (Z.of_nat j) in
                ("programmer_write_block",
                 [("block_id", PNum (Z.of_nat j));
                  ("data", PStr (Base64.encode block));
                  ("crc", PNum (sum_bytes block mod 256))]))
           (seq 0 (Z.to_nat n)).
Proof.
  intros Ack N C R Hb Hdiv Hcap Hlen Bytes Hf. cbv zeta.
  assert (Up : forall k, link_up net k = true) by apply Ack.
  assert (Hn : 0 <= n) by nia.
  unfold flash_click.
  rewrite getNumberOfReceivePackets_via.
  rewrite (count_via_answered net parts chipName "get_receive_packet_size"
             chip blockSize w)
    by first [assumption | now apply numbered_fresh | apply Up | apply R].
  fold (after_query w "get_receive_packet_size").
  pose proof (after_query_numbered w "get_receive_packet_size" N) as N1.
  unfold ProgrammerPackets.writeChipBlocks. rewrite C.
  rewrite getNumberOfReceivePackets_via.
  rewrite (count_via_answered net parts chipName "get_receive_packet_size"
             chip blockSize (after_query w "get_receive_packet_size"))
    by first [assumption | now apply numbered_fresh | apply Up | apply R].
  fold (after_query (after_query w "get_receive_packet_size")
          "get_receive_packet_size").
  destruct (div_div (capacity chip) blockSize ltac:(lia))
    as [[Z0 _]|(q & Hq & Hqn)]; [contradiction|].
  rewrite Hq.
  rewrite (rem_is_zero (Z.of_nat (length fileData)) blockSize q Hqn)
    by lia.
  assert (M : (Z.of_nat (length fileData) mod blockSize =? 0) = true).
  { apply Z.eqb_eq. rewrite Hlen, Z.mul_comm. apply Z.mod_mul. lia. }
  rewrite M. cbn [negb].
  destruct (div_by_integer (Z.of_nat (length fileData)) blockSize n q Hqn
              ltac:(lia) Hlen) as (q' & Hq' & Hqn').
  rewrite Hq'.
  pose proof (write_for_acked net ProgrammerPackets.write_params fileData q
                blockSize (Fin q') n Ack Bytes Hqn Hb Hlen
                (fun i => lt_integer i n q' Hqn') (Z.to_nat n) fuel 0 []
                (after_query (after_query w "get_receive_packet_size")
                   "get_receive_packet_size")) as H.
  cbv zeta in H. destruct H as (E1 & E2 & E3); [lia|lia|assumption|].
  rewrite E1, E2. cbn [app]. rewrite flash_steps.
  rewrite length_map, length_seq.
  eexists. split; [reflexivity|].
  rewrite E3. cbn [after_query sent].
  rewrite !map_app, <- !app_assoc. f_equal.
  cbn [map app wire req_method req_params query]. do 2 f_equal.
  apply map_ext. intros j. cbv zeta. unfold ProgrammerPackets.write_params.
  rewrite Z.add_0_l.
  now rewrite write_crc_sum by now apply chunk_bytes.
Qed.

Lemma flash_writes_whole_file_witness :
  exists w',
    flash_click 5 Scenarios.steady Scenarios.catalog "TINY4"
      (Some [1; 2; 3; 4]) initial
    = Some ([LogSet "Flashing..."; ProgressWidth 0;
             LogAppend "."; ProgressOf 1 (of_Z 2);
             LogAppend "."; ProgressOf 2 (of_Z 2);
             LogFlashComplete 4; ProgressWidth 100], w').
Proof.
  destruct (flash_writes_whole_file 5 Scenarios.steady Scenarios.catalog
              "TINY4" Scenarios.tiny [1; 2; 3; 4] initial 2 2 2)
    as (w' & E & _).
  - split; [reflexivity|]. intros r. now exists 0.
  - exact numbered_initial.
  - reflexivity.
  - reflexivity.
  - lia.
  - reflexivity.
  - discriminate.
  - reflexivity.
  - repeat constructor; unfold is_uint8; lia.
  - cbn. lia.
  - exists w'. exact E.
Defined.

End DomTransferFacts.

(* ================================================================== *)
(** ** programmer.js: the chip catalog and its cache *)

Module Catalog.
Import JS.
Local Open Scope string_scope.
Local Open Scope list_scope.

(** The module variable [cachedChips], the number of times
    knows_chips.json has been asked for, the fetches that have not come
    back yet (by number, in the order they were started), and what the
    calls of [getChipsData] that have finished returned. *)
Record store := {
  cachedChips : value;
  fetches : nat;
  pending : list nat;
  results : list value
}.

Definition start : store :=
  {| cachedChips := Null; fetches := 0; pending := []; results := [] |}.

(** [{ parts: [] }] *)
Definition no_parts : value := Obj ObjectProto [("parts", Arr [])].

(** [data || { parts: [] }] *)
Definition or_no_parts (data : value) : value :=
  if truthy data then data else no_parts.

(** [getChipsData] runs in two turns of the event loop when it fetches:
    the test of the cache and the start of the fetch, and, once
    [fetchJsonFile] has resolved, the assignment and the return.  Other
    calls can start in between. *)
Inductive event :=
| Call
| Settle (k : nat).

(** One turn.  [Call]: a call of [getChipsData] starts; with a cache it
    returns at once.  [Settle k]: the fetch number k resolves to
    [fetched k] (the parsed file, or null when the request or the parse
    failed) and the call that started it stores and returns; nothing
    happens if no such fetch is out. *)
Definition step (fetched : nat -> value) (st : store) (ev : event) : store :=
  match ev with
  | Call =>
      if negb (truthy (cachedChips st)) then
        {| cachedChips := cachedChips st;
           fetches := S (fetches st);
           pending := pending st ++ [fetches st];
           results := results st |}
      else
        {| cachedChips := cachedChips st;
           fetches := fetches st;
           pending := pending st;
           results := results st ++ [cachedChips st] |}
  | Settle k =>
      if existsb (Nat.eqb k) (pending st) then
        {| cachedChips := or_no_parts (fetched k);
           fetches := fetches st;
           pending := filter (fun j => negb (Nat.eqb k j)) (pending st);
           results := results st ++ [or_no_parts (fetched k)] |}
      else st
  end.

Definition run (fetched : nat -> value) (evs : list event) (st : store)
  : store :=
  fold_left (step fetched) evs st.

(** [v.k]; None where the read throws a TypeError. *)
Definition read_property (v : value) (k : string) : option value :=
  match v with
  | Undefined | Null => None
  | _ => Some (get v k)
  end.

(** [parts.map(part => part.model)] on the elements of an array. *)
Fixpoint models (parts : list value) : option (list value) :=
  match parts with
  | [] => Some []
  | part :: rest =>
      match read_property part "model", models rest with
      | Some m, Some ms => Some (m :: ms)
      | _, _ => None
      end
  end.

(** What [getKnownChips] makes of the catalog [getChipsData] returned;
    anything but an array under [parts] has no [map] to call, and every
    TypeError ends in the [catch] that returns []. *)
Definition known (data : value) : list value :=
  match read_property data "parts" with
  | Some (Arr parts) =>
      match models parts with
      | Some ms => ms
      | None => []
      end
  | _ => []
  end.

End Catalog.

Module CatalogFacts.
Import JS Catalog.
Local Open Scope string_scope.
Local Open Scope list_scope.

Lemma or_no_parts_truthy (data : value) : truthy (or_no_parts data) = true.
Proof.
  unfold or_no_parts. destruct (truthy data) eqn:E; [exact E | reflexivity].
Qed.

Lemma run_app fetched evs evs' st :
  run fetched (evs ++ evs') st = run fetched evs' (run fetched evs st).
Proof. apply fold_left_app. Qed.

(** Calls that start while the cache is empty all fetch. *)
Lemma calls_while_empty fetched (n : nat) :
  forall st,
    truthy (cachedChips st) = false ->
    run fetched (repeat Call n) st
    = {| cachedChips := cachedChips st;
         fetches := fetches st + n;
         pending := pending st ++ seq (fetches st) n;
         results := results st |}.
Proof.
  unfold run. induction n as [|n IH]; intros st E.
  - cbn. rewrite Nat.add_0_r, app_nil_r. now destruct st.
  - cbn [repeat fold_left step]. rewrite E. cbn [negb].
    rewrite IH by exact E.
    cbn [cachedChips fetches pending results seq].
    rewrite <- app_assoc. cbn [app]. f_equal. lia.
Qed.

(** Once something is cached, the cache is never empty again and no
    fetch is started. *)
Lemma cached_stays fetched (evs : list event) :
  forall st,
    truthy (cachedChips st) = true ->
    truthy (cachedChips (run fetched evs st)) = true /\
    fetches (run fetched evs st) = fetches st.
Proof.
  unfold run. induction evs as [|ev evs IH]; intros st T; [now split|].
  cbn [fold_left].
  destruct ev as [|k]; cbn [step].
  - rewrite T. cbn [negb].
    exact (IH {| cachedChips := cachedChips st; fetches := fetches st;
                 pending := pending st;
                 results := results st ++ [cachedChips st] |} T).
  - destruct (existsb (Nat.eqb k) (pending st)); [|exact (IH st T)].
    exact (IH {| cachedChips := or_no_parts (fetched k);
                 fetches := fetches st;
                 pending := filter (fun j => negb (Nat.eqb k j))
                              (pending st);
                 results := results st ++ [or_no_parts (fetched k)] |}
              (or_no_parts_truthy (fetched k))).
Qed.

Lemma pending_fetch (k n : nat) :
  (k < n)%nat -> existsb (Nat.eqb k) (seq 0 n) = true.
Proof.
  intros H. apply existsb_exists. exists k. split.
  - apply in_seq. lia.
  - apply Nat.eqb_refl.
Qed.

(** The catalog is fetched once for every call of [getChipsData] that
    starts before the first fetch has come back, so calls that overlap
    each fetch; after that no call fetches, whatever happens: a call
    that starts later returns what is cached at that moment.  Every
    fetch that comes back overwrites the cache, a failed one with the
    catalog without parts. *)
Theorem catalog_fetches (fetched : nat -> value) (n k : nat)
  (rest : list event) :
  (k < n)%nat ->
  let st := run fetched (repeat Call n ++ Settle k :: rest) start in
  fetches st = n /\
  truthy (cachedChips st) = true /\
  run fetched (repeat Call n ++ Settle k :: rest ++ [Call]) start
  = {| cachedChips := cachedChips st;
       fetches := n;
       pending := pending st;
       results := results st ++ [cachedChips st] |} /\
  (forall j,
      existsb (Nat.eqb j) (pending st) = true ->
      cachedChips
        (run fetched (repeat Call n ++ Settle k :: rest ++ [Settle j]) start)
      = or_no_parts (fetched j)).
Proof.
  intros H. cbv zeta.
  assert (E : run fetched (repeat Call n ++ [Settle k]) start
              = {| cachedChips := or_no_parts (fetched k);
                   fetches := n;
                   pending := filter (fun j => negb (Nat.eqb k j)) (seq 0 n);
                   results := [or_no_parts (fetched k)] |}).
  { rewrite run_app, calls_while_empty by reflexivity.
    cbn [start cachedChips fetches pending results app Nat.add run
         fold_left step].
    now rewrite (pending_fetch k n H). }
  assert (R : forall evs,
             run fetched (repeat Call n ++ Settle k :: evs) start
             = run fetched evs
                 (run fetched (repeat Call n ++ [Settle k]) start)).
  { intros evs.
    change (Settle k :: evs) with ([Settle k] ++ evs).
    now rewrite app_assoc, run_app. }
  pose proof (cached_stays fetched rest
                (run fetched (repeat Call n ++ [Settle k]) start)) as S.
  rewrite E in S. cbn [cachedChips fetches] in S.
  destruct (S (or_no_parts_truthy (fetched k))) as [T F].
  rewrite <- E, <- R in T, F.
  split; [exact F|]. split; [exact T|]. split.
  - rewrite (R (rest ++ [Call])), run_app, <- R.
    cbn [run fold_left step]. rewrite T. cbn [negb]. now rewrite F.
  - intros j P.
    rewrite (R (rest ++ [Settle j])), run_app, <- R.
    cbn [run fold_left step]. now rewrite P.
Qed.

(** The catalog as the server holds it, and a server that answers the
    first request and fails the second. *)
Definition one_chip : value :=
  Obj ObjectProto
    [("parts", Arr [Obj ObjectProto [("model", Str "W25Q32")]])].

Definition fails_second (k : nat) : value :=
  match k with
  | O => one_chip
  | S _ => Null
  end.

(** Two calls overlap: both fetch.  The first fetch stores the catalog,
    the second one, which failed, replaces it by the catalog without
    parts, and that is what the next call gets. *)
Lemma catalog_fetches_witness :
  fetches (run fails_second [Call; Call; Settle 0; Settle 1] start) = 2%nat /\
  results (run fails_second [Call; Call; Settle 0; Settle 1; Call] start)
  = [one_chip; no_parts; no_parts] /\
  known one_chip = [Str "W25Q32"] /\
  known no_parts = [].
Proof.
  destruct (catalog_fetches fails_second 2 0 [Settle 1])
    as (F & _ & Later & _); [lia|].
  split; [exact F|]. split; [|split; reflexivity].
  cbn [repeat app] in Later. now rewrite Later.
Defined.

End CatalogFacts.
